(** * badger: validator combinators (schema.py) and NestedDict (util.py)

    A shallow embedding of the two source files of badger and the
    properties of their combinators and containers.

    Python values are modelled by the inductive types below; exceptions
    by [PyExn]; a validator call by a function into the monad [M], which
    records the warnings sent to the logger and either an exception or a
    result. *)

From Stdlib Require Import String Ascii List Bool ZArith Lia Permutation.
Import ListNotations.
Set Warnings "-register-all".
Open Scope string_scope.
Open Scope list_scope.

(** ** Python values and exceptions *)

(** The classes [int], [str] and [float], as stored by [Type.scalar_map]. *)
Inductive NativeType : Type :=
| py_int
| py_str
| py_float.

Inductive PyVal : Type :=
| PyNone
| PyBool (b : bool)
| PyInt (z : Z)
| PyStr (s : string)
| PyType (t : NativeType).

(** A chunk of the parsed document, as strictyaml hands it to a
    validator: a scalar with its text, a mapping or a sequence. *)
Inductive Chunk : Type :=
| ScalarChunk (text : string)
| MappingChunk (entries : list (string * Chunk))
| SequenceChunk (elements : list Chunk).

Definition is_scalar (chunk : Chunk) : bool :=
  match chunk with
  | ScalarChunk _ => true
  | _ => false
  end.

(** [chunk.contents]; the validators below read it on scalar chunks only. *)
Definition contents (chunk : Chunk) : string :=
  match chunk with
  | ScalarChunk text => text
  | _ => EmptyString
  end.

(** The exceptions the two files can raise.  [KeyError] is the only
    subclass of Python's [LookupError] among them; [RecursionError] is
    what a recursion that exhausts its depth budget raises;
    [AttributeError] is what a call of a method that the object does not
    have raises. *)
Inductive PyExn : Type :=
| KeyError (key : string)
| TypeError
| AttributeError
| RecursionError
| YAMLValidationError (context problem : string) (chunk : Chunk).

Definition is_LookupError (e : PyExn) : bool :=
  match e with
  | KeyError _ => true
  | _ => false
  end.

Definition is_YAMLValidationError (e : PyExn) : bool :=
  match e with
  | YAMLValidationError _ _ _ => true
  | _ => false
  end.

(** ** Built-in dict: insertion-ordered association list *)

Section Dict.
Context {A : Type}.

Definition dict := list (string * A).

(** [k in d] *)
Fixpoint dict_contains (k : string) (d : dict) : bool :=
  match d with
  | [] => false
  | (k', _) :: d' => if String.eqb k k' then true else dict_contains k d'
  end.

(** [d[k]]: raises [KeyError(k)] when the key is missing. *)
Fixpoint dict_getitem (k : string) (d : dict) : PyExn + A :=
  match d with
  | [] => inl (KeyError k)
  | (k', v) :: d' => if String.eqb k k' then inr v else dict_getitem k d'
  end.

(** [d[k] = v]: an existing key keeps its position, a new key goes last. *)
Fixpoint dict_setitem (k : string) (v : A) (d : dict) : dict :=
  match d with
  | [] => [(k, v)]
  | (k', v') :: d' =>
      if String.eqb k k' then (k', v) :: d' else (k', v') :: dict_setitem k v d'
  end.
End Dict.
Arguments dict A : clear implicits.

(** ** The validation monad: warnings logged, then exception or result *)

Definition M (A : Type) : Type := (list string * (PyExn + A))%type.

Definition ret {A} (a : A) : M A := ([], inr a).
Definition raise {A} (e : PyExn) : M A := ([], inl e).

Definition bind {A B} (m : M A) (k : A -> M B) : M B :=
  match m with
  | (w, inl e) => (w, inl e)
  | (w, inr a) => let (w', r) := k a in (w ++ w', r)
  end.

Notation "x <- m ;; k" := (bind m (fun x => k))
  (at level 61, m at next level, right associativity).
Notation "m ;; k" := (bind m (fun _ => k))
  (at level 61, right associativity).

(** [try: body  except YAMLValidationError: handler]; any other
    exception leaves the [try] statement unhandled. *)
Definition try_except_YAMLValidationError {A} (body handler : M A) : M A :=
  match body with
  | (w, inl (YAMLValidationError _ _ _)) => let (w', r) := handler in (w ++ w', r)
  | other => other
  end.

(** [log.warning(msg)] of treelog. *)
Definition log_warning (msg : string) : M unit := ([msg], inr tt).

Definition warnings {A} (m : M A) : list string := fst m.
Definition outcome {A} (m : M A) : PyExn + A := snd m.

Definition succeeds {A} (m : M A) : Prop := exists a, outcome m = inr a.
Definition fails {A} (m : M A) : Prop := exists e, outcome m = inl e.

(** ** strictyaml's interface *)

(** Which validator object: its class and constructor arguments stand
    for the object's identity. *)
Inductive ValidatorRepr : Type :=
| StrictYAML (cls : string)
| LiteralRepr (expected : string)
| TypeRepr
| OrValidatorRepr (a b : ValidatorRepr)
| FirstRepr (name : string) (validators : list ValidatorRepr)
| DeprecatedRepr (message : string) (inner : ValidatorRepr).

(** strictyaml's [YAML] result object. *)
Record YAML : Type := mkYAML {
  value : PyVal;
  _validator : ValidatorRepr;
  _selected_validator : option ValidatorRepr
}.

Record Validator : Type := mkValidator {
  repr : ValidatorRepr;
  call : Chunk -> M YAML
}.

(** [chunk.expecting_but_found(expecting, found)] always raises. *)
Definition expecting_but_found (expecting found : string) (chunk : Chunk) : M unit :=
  raise (YAMLValidationError expecting found chunk).

Definition found (chunk : Chunk) : string :=
  match chunk with
  | ScalarChunk _ => "found a scalar"
  | MappingChunk _ => "found a mapping"
  | SequenceChunk _ => "found a sequence"
  end.

Definition expect_scalar (what : string) (chunk : Chunk) : M unit :=
  if negb (is_scalar chunk)
  then expecting_but_found ("when expecting " ++ what) (found chunk) chunk
  else ret tt.

(** [ScalarValidator.__call__]: the chunk must be a scalar; the result
    wraps what [validate_scalar] returns. *)
Definition ScalarValidator_call (self : ValidatorRepr) (rule_description : string)
    (validate_scalar : Chunk -> M PyVal) (chunk : Chunk) : M YAML :=
  expect_scalar rule_description chunk ;;
  v <- validate_scalar chunk ;;
  ret (mkYAML v self None).

(** [OrValidator.__call__]: the first operand, and on a validation
    failure the second; the result records which one matched. *)
Definition OrValidator_select (self : ValidatorRepr) (result : YAML) : YAML :=
  mkYAML (value result) self (Some (_validator result)).

Definition OrValidator (validator_a validator_b : Validator) : Validator :=
  let self := OrValidatorRepr (repr validator_a) (repr validator_b) in
  mkValidator self (fun chunk =>
    try_except_YAMLValidationError
      (result <- call validator_a chunk ;; ret (OrValidator_select self result))
      (result <- call validator_b chunk ;; ret (OrValidator_select self result))).

(** [functools.reduce] without an initial value. *)
Definition reduce {A} (f : A -> A -> A) (l : list A) : PyExn + A :=
  match l with
  | [] => inl TypeError
  | x :: xs => inr (fold_left f xs x)
  end.

(** ** schema.py *)

Module Deprecated.
Definition __call__ (_message : string) (_inner : Validator) (chunk : Chunk) : M YAML :=
  log_warning _message ;;
  call _inner chunk.

Definition __init__ (message : string) (inner : Validator) : Validator :=
  mkValidator (DeprecatedRepr message (repr inner)) (__call__ message inner).
End Deprecated.

Module Literal.
Definition validate_scalar (_expected : string) (chunk : Chunk) : M PyVal :=
  (if negb (String.eqb _expected (contents chunk))
   then expecting_but_found ("when expecting " ++ _expected)
          "found non-matching string" chunk
   else ret tt) ;;
  ret (PyStr (contents chunk)).

Definition __init__ (expected : string) : Validator :=
  mkValidator (LiteralRepr expected)
    (ScalarValidator_call (LiteralRepr expected) "a literal" (validate_scalar expected)).
End Literal.

Definition Choice (args : list string) : PyExn + Validator :=
  reduce OrValidator (map Literal.__init__ args).

Module First.
Definition select (self validator : ValidatorRepr) (result : YAML) : YAML :=
  mkYAML (value result) self (Some validator).

Fixpoint loop (self : ValidatorRepr) (_name : string)
    (_validators : list Validator) (chunk : Chunk) : M YAML :=
  match _validators with
  | validator :: rest =>
      try_except_YAMLValidationError
        (result <- call validator chunk ;; ret (select self (repr validator) result))
        (loop self _name rest chunk)
  | [] =>
      raise (YAMLValidationError ("failed to find a valid schema for " ++ _name)
               "found invalid input" chunk)
  end.

Definition self_repr (name : string) (validators : list Validator) : ValidatorRepr :=
  FirstRepr name (map repr validators).

Definition __call__ (_name : string) (_validators : list Validator)
    (chunk : Chunk) : M YAML :=
  loop (self_repr _name _validators) _name _validators chunk.

Definition __init__ (name : string) (validators : list Validator) : Validator :=
  mkValidator (self_repr name validators) (__call__ name validators).
End First.

Module Type_.
Definition alternatives : list string :=
  ["int"; "integer"; "str"; "string"; "float"; "floating"; "double"].

Definition newline : string := String (ascii_of_nat 10) EmptyString.

(** [scalar_regex.match(s)] for [^(int|...|double)$]: [re.match]
    anchors at the start and, without [re.MULTILINE], [$] matches at the
    end of the string and also just before a newline that ends it
    (the [re] documentation: "matches the end of the string or just
    before the newline at the end of the string"). *)
Definition scalar_regex_match (s : string) : bool :=
  existsb (fun alt => String.eqb s alt || String.eqb s (alt ++ newline)) alternatives.

Definition scalar_map : dict NativeType :=
  [("int", py_int); ("integer", py_int);
   ("str", py_str); ("string", py_str);
   ("float", py_float); ("floating", py_float); ("double", py_float)].

Definition validate_scalar (chunk : Chunk) : M PyVal :=
  if scalar_regex_match (contents chunk)
  then match dict_getitem (contents chunk) scalar_map with
       | inr t => ret (PyType t)
       | inl e => raise e
       end
  else expecting_but_found "when expecting a valid type description"
         "found invalid input" chunk ;;
       ret PyNone.

Definition __init__ : Validator :=
  mkValidator TypeRepr (ScalarValidator_call TypeRepr "a type" validate_scalar).
End Type_.


(** ** util.py *)

(** [s.partition(sep)] for a one-character separator: the text before
    the first separator, the separator, the text after it; without a
    separator the whole string and two empty strings. *)
Fixpoint partition (sep : ascii) (s : string) : string * string * string :=
  match s with
  | EmptyString => (EmptyString, EmptyString, EmptyString)
  | String c s' =>
      if Ascii.eqb c sep then (EmptyString, String sep EmptyString, s')
      else let '(first, mid, rest) := partition sep s' in (String c first, mid, rest)
  end.

(** Truth value of a string: non-empty. *)
Definition truthy (s : string) : bool :=
  match s with
  | EmptyString => false
  | String _ _ => true
  end.

Definition slash : ascii := "/"%char.

Section NestedDict.
(** The values that are not NestedDicts. *)
Variable V : Type.

(** A NestedDict is a dict ([super]) whose values are NestedDicts
    ([isinstance(val, NestedDict)]) or other objects, the leaves.  The
    model is a tree of values: each stored object is reached through one
    key only. *)
Inductive NestedDict : Type :=
| ND (items : dict Node)
with Node : Type :=
| Leaf (v : V)
| Sub (d : NestedDict).

(** What the methods do with a leaf is up to the leaf's own class:
    [rest in leaf]; *)
Variable leaf_contains : string -> V -> PyExn + bool.
(** [leaf[rest]], which may give any object; *)
Variable leaf_getitem : V -> string -> PyExn + Node.
(** [leaf[rest] = value]: the leaf after the statement and its
    outcome. *)
Variable leaf_setitem : V -> string -> Node -> V * (PyExn + unit).

Definition super (self : NestedDict) : dict Node :=
  match self with ND items => items end.

(** [NestedDict()] *)
Definition empty : NestedDict := ND [].

Fixpoint contains_rec (depth : nat) (self : NestedDict) (key : string) : PyExn + bool :=
  let '(first, _, rest) := partition slash key in
  if truthy rest then
    if dict_contains first (super self) then
      match dict_getitem first (super self) with
      | inl e => inl e
      | inr (Sub d) =>
          match depth with
          | S depth' => contains_rec depth' d rest
          | O => inl RecursionError
          end
      | inr (Leaf v) => leaf_contains rest v
      end
    else inr false
  else inr (dict_contains first (super self)).

Definition __contains__ (self : NestedDict) (key : string) : PyExn + bool :=
  contains_rec (String.length key) self key.

(** The state after the call and its outcome. *)
Fixpoint setitem_rec (depth : nat) (self : NestedDict) (key : string) (value : Node)
    : NestedDict * (PyExn + unit) :=
  let '(first, _, rest) := partition slash key in
  if truthy rest then
    let self1 :=
      if negb (dict_contains first (super self))
      then ND (dict_setitem first (Sub empty) (super self))
      else self in
    match dict_getitem first (super self1) with
    | inl e => (self1, inl e)
    | inr (Sub d) =>
        match depth with
        | S depth' =>
            let (d', r) := setitem_rec depth' d rest value in
            (ND (dict_setitem first (Sub d') (super self1)), r)
        | O => (self1, inl RecursionError)
        end
    | inr (Leaf v) =>
        let (v', r) := leaf_setitem v rest value in
        (ND (dict_setitem first (Leaf v') (super self1)), r)
    end
  else (ND (dict_setitem key value (super self)), inr tt).

Definition __setitem__ (self : NestedDict) (key : string) (value : Node)
    : NestedDict * (PyExn + unit) :=
  setitem_rec (String.length key) self key value.

Fixpoint getitem_rec (depth : nat) (self : NestedDict) (key : string) : PyExn + Node :=
  let '(first, _, rest) := partition slash key in
  if truthy rest then
    match dict_getitem first (super self) with
    | inl e => inl e
    | inr (Sub d) =>
        match depth with
        | S depth' => getitem_rec depth' d rest
        | O => inl RecursionError
        end
    | inr (Leaf v) => leaf_getitem v rest
    end
  else dict_getitem first (super self).

Definition __getitem__ (self : NestedDict) (key : string) : PyExn + Node :=
  getitem_rec (String.length key) self key.

(** [f'{key}/{subkey}'] *)
Definition join_key (key subkey : string) : string :=
  (key ++ String slash EmptyString ++ subkey)%string.

Fixpoint keys (self : NestedDict) : list string :=
  match self with
  | ND items =>
      (fix loop (items : dict Node) : list string :=
         match items with
         | [] => []
         | (key, val) :: items' =>
             match val with
             | Sub d => map (fun subkey => join_key key subkey) (keys d) ++ loop items'
             | Leaf _ => key :: loop items'
             end
         end) items
  end.

Fixpoint values (self : NestedDict) : list V :=
  match self with
  | ND items =>
      (fix loop (items : dict Node) : list V :=
         match items with
         | [] => []
         | (_, val) :: items' =>
             match val with
             | Sub d => values d ++ loop items'
             | Leaf v => v :: loop items'
             end
         end) items
  end.

Fixpoint items (self : NestedDict) : list (string * V) :=
  match self with
  | ND items_ =>
      (fix loop (items_ : dict Node) : list (string * V) :=
         match items_ with
         | [] => []
         | (key, val) :: items' =>
             match val with
             | Sub d =>
                 map (fun '(subkey, subval) => (join_key key subkey, subval)) (items d)
                 ++ loop items'
             | Leaf v => (key, v) :: loop items'
             end
         end) items_
  end.

(** A run of [d[key] = value] statements; the first exception ends it. *)
Fixpoint run_sets (self : NestedDict) (ops : list (string * Node))
    : NestedDict * (PyExn + unit) :=
  match ops with
  | [] => (self, inr tt)
  | (key, value) :: ops' =>
      match __setitem__ self key value with
      | (self', inr _) => run_sets self' ops'
      | (self', inl e) => (self', inl e)
      end
  end.
End NestedDict.

Arguments ND {V} items.
Arguments Leaf {V} v.
Arguments Sub {V} d.
Arguments super {V} self.
Arguments empty {V}.
Arguments __contains__ {V} leaf_contains self key.
Arguments __setitem__ {V} leaf_setitem self key value.
Arguments __getitem__ {V} leaf_getitem self key.
Arguments keys {V} self.
Arguments values {V} self.
Arguments items {V} self.
Arguments run_sets {V} leaf_setitem self ops.
Arguments contains_rec {V} leaf_contains depth self key.
Arguments setitem_rec {V} leaf_setitem depth self key value.
Arguments getitem_rec {V} leaf_getitem depth self key.

(** A leaf that is not subscriptable and does not support item
    assignment: a number, [None], a class.  A string is subscripted by
    integers only, so with the string keys used here it behaves the
    same. *)
Definition no_getitem {V : Type} (leaf : V) (rest : string) : PyExn + Node V :=
  inl TypeError.

Definition no_setitem {V : Type} (leaf : V) (rest : string) (value : Node V)
    : V * (PyExn + unit) :=
  (leaf, inl TypeError).

(** *** struct_as_dict *)

(** A leaf of the type template: a constructor ([int], [str], [float])
    or a [typing.List[...]] alias. *)
Inductive TypeTemplate : Type :=
| Constructor (t : NativeType)
| ListAlias (t : NativeType).

Section StructAsDict.
(** What [array[k]] is when it is neither the masked constant nor a
    record: a numpy scalar or an array. *)
Variable NpValue : Type.
(** What the built-in constructors return. *)
Variable Converted : Type.
(** [int(x)], [str(x)], [float(x)] on a numpy value. *)
Variable construct : NativeType -> NpValue -> PyExn + Converted.

(** A structured record ([np.void] / [ma.mvoid]) with its fields in the
    order of [dtype.fields], each with what [array[k]] evaluates to:
    numpy's masked constant, a record, or another value. *)
Inductive Void : Type :=
| mkVoid (fields : list (string * FieldVal))
with FieldVal : Type :=
| MaskedConstant
| Struct (sub : Void)
| Plain (x : NpValue).

(** The plain dict that is returned. *)
Inductive PyObj : Type :=
| ObjDict (d : dict PyObj)
| ObjArray (x : NpValue)
| ObjConverted (v : Converted).

(** [types[k]]: the template is a NestedDict; a leaf of it, a class or
    a [typing] alias, is not subscriptable by a string. *)
Definition subscript (types : Node TypeTemplate) (k : string) : PyExn + Node TypeTemplate :=
  match types with
  | Sub d => __getitem__ no_getitem d k
  | Leaf t => no_getitem t k
  end.

(** [get_origin(t) == list] *)
Definition origin_is_list (t : Node TypeTemplate) : bool :=
  match t with
  | Leaf (ListAlias _) => true
  | _ => false
  end.

(** [t(x)]: only a class can be called. *)
Definition apply_type (t : Node TypeTemplate) (x : NpValue) : PyExn + Converted :=
  match t with
  | Leaf (Constructor c) => construct c x
  | _ => inl TypeError
  end.

Fixpoint struct_as_dict (array : Void) (types : Node TypeTemplate) : PyExn + dict PyObj :=
  match array with
  | mkVoid fields =>
      (fix loop (fields : list (string * FieldVal)) (retval : dict PyObj)
         : PyExn + dict PyObj :=
         match fields with
         | [] => inr retval
         | (k, array_k) :: fields' =>
             match array_k with
             | MaskedConstant => inr retval
             | Struct sub =>
                 match subscript types k with
                 | inl e => inl e
                 | inr types_k =>
                     match struct_as_dict sub types_k with
                     | inl e => inl e
                     | inr subdata => loop fields' (dict_setitem k (ObjDict subdata) retval)
                     end
                 end
             | Plain x =>
                 match subscript types k with
                 | inl e => inl e
                 | inr types_k =>
                     if origin_is_list types_k
                     then loop fields' (dict_setitem k (ObjArray x) retval)
                     else match apply_type types_k x with
                          | inl e => inl e
                          | inr v => loop fields' (dict_setitem k (ObjConverted v) retval)
                          end
                 end
             end
         end) fields []
  end.

Definition fields_of (array : Void) : list (string * FieldVal) :=
  match array with mkVoid fields => fields end.

Definition is_masked (f : FieldVal) : bool :=
  match f with
  | MaskedConstant => true
  | _ => false
  end.

(** The fields declared before the first field [k] for which
    [array[k]] is the masked constant. *)
Fixpoint populated_prefix (fields : list (string * FieldVal)) : list (string * FieldVal) :=
  match fields with
  | [] => []
  | (k, f) :: fields' => if is_masked f then [] else (k, f) :: populated_prefix fields'
  end.
End StructAsDict.

Arguments mkVoid {NpValue} fields.
Arguments MaskedConstant {NpValue}.
Arguments Struct {NpValue} sub.
Arguments Plain {NpValue} x.
Arguments ObjDict {NpValue Converted} d.
Arguments ObjArray {NpValue Converted} x.
Arguments ObjConverted {NpValue Converted} v.
Arguments struct_as_dict {NpValue Converted} construct array types.
Arguments fields_of {NpValue} array.
Arguments is_masked {NpValue} f.
Arguments populated_prefix {NpValue} fields.

(** * Specification vocabulary *)

(** ** Validators *)

(** [Choice] applied to its literals and then to a chunk: building the
    validator, then calling it. *)
Definition Choice_call (args : list string) (chunk : Chunk) : M YAML :=
  match Choice args with
  | inl e => raise e
  | inr validator => call validator chunk
  end.

(** The call ended in a validation failure. *)
Definition rejects {A} (m : M A) : bool :=
  match outcome m with
  | inl e => is_YAMLValidationError e
  | inr _ => false
  end.

(** On the scalar [t], validator [v] yields the text [t] when [t] is one
    of [lits] and a validation failure otherwise. *)
Definition matches_literals (v : Validator) (lits : list string) (t : string) : Prop :=
  (In t lits ->
   exists r, outcome (call v (ScalarChunk t)) = inr r /\ value r = PyStr t)
  /\ (~ In t lits -> rejects (call v (ScalarChunk t)) = true).

(** How many warnings the wrapper itself logged: those of the wrapped
    call less those of the inner rule alone. *)
Definition wrapper_warnings (message : string) (R : Validator) (x : Chunk) : nat :=
  length (warnings (call (Deprecated.__init__ message R) x))
  - length (warnings (call R x)).

(** ** Paths *)

(** ['/'.join(segs)] *)
Fixpoint join_path (segs : list string) : string :=
  match segs with
  | [] => EmptyString
  | [s] => s
  | s :: segs' => (s ++ String slash (join_path segs'))%string
  end.

Fixpoint has_slash (s : string) : bool :=
  match s with
  | EmptyString => false
  | String c s' => Ascii.eqb c slash || has_slash s'
  end.

(** A path: a non-empty sequence of segments without separator whose
    last segment, when there are several, is not empty (the path does
    not end in a separator). *)
Definition is_path (segs : list string) : bool :=
  forallb (fun s => negb (has_slash s)) segs
  && match segs with
     | [] => false
     | [_] => true
     | _ => truthy (last segs EmptyString)
     end.

Section Resolution.
Context {V : Type}.
Variable leaf_setitem : V -> string -> Node V -> V * (PyExn + unit).

(** Walking a path through the tree, segment by segment. *)
Inductive Resolution : Type :=
| Resolved (n : Node V)
| Absent (seg : string)
| ThroughLeaf (v : V) (rest : list string).

Fixpoint resolve (self : NestedDict V) (segs : list string) : Resolution :=
  match segs with
  | [] => Resolved (Sub self)
  | s :: segs' =>
      match dict_getitem s (super self) with
      | inl _ => Absent s
      | inr n =>
          match segs' with
          | [] => Resolved n
          | _ :: _ =>
              match n with
              | Sub d => resolve d segs'
              | Leaf v => ThroughLeaf v segs'
              end
          end
      end
  end.

(** [__setitem__] read on the segments of its key. *)
Fixpoint set_path (self : NestedDict V) (segs : list string) (value : Node V)
    : NestedDict V * (PyExn + unit) :=
  match segs with
  | [] => (ND (dict_setitem EmptyString value (super self)), inr tt)
  | s :: segs' =>
      match segs' with
      | [] => (ND (dict_setitem s value (super self)), inr tt)
      | _ :: _ =>
          let self1 :=
            if negb (dict_contains s (super self))
            then ND (dict_setitem s (Sub empty) (super self))
            else self in
          match dict_getitem s (super self1) with
          | inl e => (self1, inl e)
          | inr (Sub d) =>
              let (d', r) := set_path d segs' value in
              (ND (dict_setitem s (Sub d') (super self1)), r)
          | inr (Leaf v) =>
              let (v', r) := leaf_setitem v (join_path segs') value in
              (ND (dict_setitem s (Leaf v') (super self1)), r)
          end
      end
  end.

End Resolution.
Arguments Resolution V : clear implicits.

(** ** The order of the tree walk *)

Section TreeOrder.
Context {A : Type}.

(** A run of assignments: each a path (as segments) and a value. *)
Definition assignments := list (list string * A).

Definition first_segment (p : list string) : string := hd EmptyString p.

(** Each string once, in the order of first occurrence. *)
Fixpoint dedup (l : list string) : list string :=
  match l with
  | [] => []
  | x :: l' => x :: filter (fun y => negb (String.eqb y x)) (dedup l')
  end.

(** The first segments of the paths, in the order in which they first
    appear. *)
Definition heads (ops : assignments) : list string :=
  dedup (map (fun o => first_segment (fst o)) ops).

(** The assignments below first segment [h], with that segment removed. *)
Fixpoint under (h : string) (ops : assignments) : assignments :=
  match ops with
  | [] => []
  | (p, v) :: ops' =>
      match p with
      | s :: t => if String.eqb s h then (t, v) :: under h ops' else under h ops'
      | [] => under h ops'
      end
  end.

(** The value of the last assignment whose path is empty, if any. *)
Fixpoint last_here (ops : assignments) : option A :=
  match ops with
  | [] => None
  | (p, v) :: ops' =>
      match last_here ops' with
      | Some v' => Some v'
      | None => match p with [] => Some v | _ => None end
      end
  end.

(** The leaf paths with their final values, in the order of the tree
    walk: the first segments in the order of their first assignment and,
    below each, recursively the same.  [depth] bounds the path length. *)
Fixpoint tree_items (depth : nat) (ops : assignments) : assignments :=
  match depth with
  | O => []
  | S depth' =>
      flat_map (fun h =>
                  match last_here (under h ops) with
                  | Some v => [([h], v)]
                  | None => map (fun '(p, v) => (h :: p, v)) (tree_items depth' (under h ops))
                  end)
               (heads ops)
  end.

Definition path_depth (ops : assignments) : nat :=
  list_max (map (fun o => length (fst o)) ops).

(** The distinct paths in the order of the tree walk. *)
Definition tree_order (ops : assignments) : list (list string) :=
  map fst (tree_items (path_depth ops) ops).

(** [p] is a proper prefix of [q]. *)
Definition proper_prefix (p q : list string) : Prop :=
  exists r, r <> [] /\ q = p ++ r.

(** No path of the run is a proper prefix of another. *)
Definition prefix_free (ops : assignments) : Prop :=
  forall p q, In p (map fst ops) -> In q (map fst ops) -> ~ proper_prefix p q.

(** The run as [d[key] = value] statements on leaf values. *)
Definition statements (ops : list (list string * A)) : list (string * Node A) :=
  map (fun '(p, v) => (join_path p, Leaf v)) ops.

(** The tree a run builds from the empty NestedDict. *)
Fixpoint build (depth : nat) (ops : assignments) : NestedDict A :=
  match depth with
  | O => ND []
  | S depth' =>
      ND (map (fun h =>
                 (h, match last_here (under h ops) with
                     | Some v => Leaf v
                     | None => Sub (build depth' (under h ops))
                     end))
              (heads ops))
  end.

(** What [build] stores under first segment [h]: the leaf last assigned
    there, or the sub-tree of the assignments below [h]. *)
Definition subtree (depth : nat) (ops : assignments) (h : string) : Node A :=
  match last_here (under h ops) with
  | Some v => Leaf v
  | None => Sub (build depth (under h ops))
  end.
End TreeOrder.
Arguments assignments A : clear implicits.

(** ** Scalar leaves *)

(** [sub in s] on strings: [sub] occurs in [s]. *)
Definition is_substring (sub s : string) : bool :=
  match index 0 sub s with
  | Some _ => true
  | None => false
  end.

(** [rest in v] for a scalar leaf: a substring test on a string,
    [TypeError] on the values that are not iterable. *)
Definition scalar_contains (rest : string) (v : PyVal) : PyExn + bool :=
  match v with
  | PyStr s => inr (is_substring rest s)
  | _ => inl TypeError
  end.

(** ** The loop of struct_as_dict *)

Section FieldsLoop.
Context {NpValue Converted : Type}.
Variable construct : NativeType -> NpValue -> PyExn + Converted.

(** The [for] loop of [struct_as_dict] from the fields still to visit
    and the dict built so far. *)
Fixpoint fields_loop (types : Node TypeTemplate) (fields : list (string * FieldVal NpValue))
    (retval : dict (PyObj NpValue Converted)) : PyExn + dict (PyObj NpValue Converted) :=
  match fields with
  | [] => inr retval
  | (k, array_k) :: fields' =>
      match array_k with
      | MaskedConstant => inr retval
      | Struct sub =>
          match subscript types k with
          | inl e => inl e
          | inr types_k =>
              match struct_as_dict construct sub types_k with
              | inl e => inl e
              | inr subdata => fields_loop types fields' (dict_setitem k (ObjDict subdata) retval)
              end
          end
      | Plain x =>
          match subscript types k with
          | inl e => inl e
          | inr types_k =>
              if origin_is_list types_k
              then fields_loop types fields' (dict_setitem k (ObjArray x) retval)
              else match apply_type NpValue Converted construct types_k x with
                   | inl e => inl e
                   | inr v => fields_loop types fields' (dict_setitem k (ObjConverted v) retval)
                   end
          end
      end
  end.
End FieldsLoop.

(** The dict with the keys [hs], in that order, and the values [f]. *)
Definition tabulate {A} (f : string -> A) (hs : list string) : dict A :=
  map (fun k => (k, f k)) hs.

(** Every path of the run has at most [n] segments. *)
Definition bounded {A} (n : nat) (ops : assignments A) : Prop :=
  Forall (fun o => length (fst o) <= n) ops.

(** ** Keys as strings *)

(** [key.split('/')] *)
Fixpoint split_key (s : string) : list string :=
  match s with
  | EmptyString => [EmptyString]
  | String c s' =>
      if Ascii.eqb c slash then EmptyString :: split_key s'
      else match split_key s' with
           | h :: t => String c h :: t
           | [] => [String c EmptyString]
           end
  end.

(** [key.endswith('/')] *)
Fixpoint ends_with_slash (s : string) : bool :=
  match s with
  | EmptyString => false
  | String c s' =>
      match s' with
      | EmptyString => Ascii.eqb c slash
      | String _ _ => ends_with_slash s'
      end
  end.

(** * The rest of util.py and schema.py *)

(** ** Class hierarchies: subclasses and find_subclass *)

(** [a == b] on the values modelled; [True == 1] and [False == 0] hold
    in Python. *)
Definition py_eq (a b : PyVal) : bool :=
  match a, b with
  | PyNone, PyNone => true
  | PyBool x, PyBool y => Bool.eqb x y
  | PyInt x, PyInt y => Z.eqb x y
  | PyBool x, PyInt y => Z.eqb (if x then 1 else 0) y
  | PyInt x, PyBool y => Z.eqb x (if y then 1 else 0)
  | PyStr x, PyStr y => String.eqb x y
  | PyType py_int, PyType py_int => true
  | PyType py_str, PyType py_str => true
  | PyType py_float, PyType py_float => true
  | _, _ => false
  end.

(** A class: its name, the attributes [getattr] finds on it (its own
    and the inherited ones) and its direct subclasses in the order of
    [cls.__subclasses__()]. *)
Inductive PyClass : Type :=
| mkClass (qualname : string) (attributes : dict PyVal) (direct : list PyClass).

Definition attributes_of (cls : PyClass) : dict PyVal :=
  match cls with mkClass _ attributes _ => attributes end.

Definition __subclasses__ (cls : PyClass) : list PyClass :=
  match cls with mkClass _ _ direct => direct end.

(** The generator, as the list of what it yields. *)
Fixpoint subclasses (cls : PyClass) (root : bool) {struct cls} : list PyClass :=
  (if root then [cls] else [])
  ++ match cls with
     | mkClass _ _ direct =>
         (fix loop (subs : list PyClass) : list PyClass :=
            match subs with
            | [] => []
            | sub :: subs' => sub :: (subclasses sub false ++ loop subs')
            end) direct
     end.

(** [hasattr(sub, attr) and getattr(sub, attr) == name] *)
Definition carries (attr : string) (name : PyVal) (sub : PyClass) : bool :=
  dict_contains attr (attributes_of sub)
  && match dict_getitem attr (attributes_of sub) with
     | inr v => py_eq v name
     | inl _ => false
     end.

(** [None] is Python's [None]. *)
Definition find_subclass (cls : PyClass) (name : PyVal) (root : bool) (attr : string)
    : option PyClass :=
  find (carries attr name) (subclasses cls root).

(** [c] is a subclass of [cls], directly or through other classes. *)
Inductive descends_from (cls : PyClass) : PyClass -> Prop :=
| descends_direct c : In c (__subclasses__ cls) -> descends_from cls c
| descends_through c mid :
    In mid (__subclasses__ cls) -> descends_from mid c -> descends_from cls c.

(** ** subindex_set *)

Section SubindexSet.
Context {V : Type}.
Variable leaf_getitem : V -> string -> PyExn + Node V.
Variable leaf_setitem : V -> string -> Node V -> V * (PyExn + unit).
(** The rest of the loop and the final assignment once [target] is a
    leaf, which are up to the leaf's own class: the leaf afterwards and
    the outcome. *)
Variable leaf_subindex_set : V -> list string -> string -> Node V -> V * (PyExn + unit).

(** The loop [for p in path: target = target[p]] followed by
    [target[last] = value], for a NestedDict as [target].  The object
    reached is changed in place, so the mapping it was taken from holds
    the changed object afterwards. *)
Fixpoint subindex_walk (target : NestedDict V) (path : list string) (last_ : string)
    (value : Node V) : NestedDict V * (PyExn + unit) :=
  match path with
  | [] => __setitem__ leaf_setitem target last_ value
  | p :: path' =>
      match __getitem__ leaf_getitem target p with
      | inl e => (target, inl e)
      | inr (Sub d) =>
          let (d', r) := subindex_walk d path' last_ value in
          (ND (dict_setitem p (Sub d') (super target)), r)
      | inr (Leaf v) =>
          let (v', r) := leaf_subindex_set v path' last_ value in
          (ND (dict_setitem p (Leaf v') (super target)), r)
      end
  end.

(** [*path, last = key.split('/')] *)
Definition subindex_set (target : NestedDict V) (key : string) (value : Node V)
    : NestedDict V * (PyExn + unit) :=
  let segs := split_key key in
  subindex_walk target (removelast segs) (last segs EmptyString) value.
End SubindexSet.

(** ** has_data *)

Section HasData.
(** The type of the elements of an array. *)
Variable Elem : Type.

(** What [has_data] is called on, by what it reads there.  A masked
    array without fields, with its elements, the masked ones as [None];
    numpy's masked constant is such an array, with one masked element.
    A masked array or a record with fields, as the objects [array[k]]
    in the order of [dtype.fields]: for an array these are arrays again,
    for a single record ([ma.mvoid]) they are what
    [mvoid.__getitem__] gives.  And an object without fields on which
    [count()] raises [e]: a numpy scalar or a plain [ndarray], which is
    what [array[k]] is for a field of a record that is not masked
    ([AttributeError]; for a string scalar [count] is the method of
    [str] and the call without argument a [TypeError]). *)
Inductive MaskedArray : Type :=
| Unstructured (elements : list (option Elem))
| Structured (fields : list (string * MaskedArray))
| Uncounted (e : PyExn).

Definition unmasked (e : option Elem) : bool :=
  match e with
  | Some _ => true
  | None => false
  end.

(** [array.count()]: the number of elements that are not masked. *)
Definition count (elements : list (option Elem)) : nat :=
  length (filter unmasked elements).

Fixpoint has_data (array : MaskedArray) : PyExn + bool :=
  match array with
  | Unstructured elements => inr (Nat.ltb 0 (count elements))
  | Uncounted e => inl e
  | Structured fields =>
      (fix loop (fields : list (string * MaskedArray)) : PyExn + bool :=
         match fields with
         | [] => inr false
         | (_, array_k) :: fields' =>
             match has_data array_k with
             | inl e => inl e
             | inr true => inr true
             | inr false => loop fields'
             end
         end) fields
  end.

(** The number of unmasked elements in all fields at all depths. *)
Fixpoint total_count (array : MaskedArray) : nat :=
  match array with
  | Unstructured elements => count elements
  | Uncounted _ => 0
  | Structured fields =>
      (fix loop (fields : list (string * MaskedArray)) : nat :=
         match fields with
         | [] => 0
         | (_, array_k) :: fields' => total_count array_k + loop fields'
         end) fields
  end.

(** Every object without fields below [array] can be counted: so it is
    for a masked array, whose fields are masked arrays. *)
Fixpoint counted (array : MaskedArray) : bool :=
  match array with
  | Unstructured _ => true
  | Uncounted _ => false
  | Structured fields =>
      (fix loop (fields : list (string * MaskedArray)) : bool :=
         match fields with
         | [] => true
         | (_, array_k) :: fields' => counted array_k && loop fields'
         end) fields
  end.

(** What [count()] gives on each object without fields, in the order
    in which the fields are declared, nested fields in place. *)
Fixpoint counts (array : MaskedArray) : list (PyExn + nat) :=
  match array with
  | Unstructured elements => [inr (count elements)]
  | Uncounted e => [inl e]
  | Structured fields =>
      (fix loop (fields : list (string * MaskedArray)) : list (PyExn + nat) :=
         match fields with
         | [] => []
         | (_, array_k) :: fields' => counts array_k ++ loop fields'
         end) fields
  end.
End HasData.
Arguments Unstructured {Elem} elements.
Arguments Structured {Elem} fields.
Arguments Uncounted {Elem} e.
Arguments has_data {Elem} array.
Arguments total_count {Elem} array.
Arguments counted {Elem} array.
Arguments counts {Elem} array.
Arguments count {Elem} elements.

(** Reading a list of counts from the left: the first exception or
    positive count decides. *)
Fixpoint first_count (l : list (PyExn + nat)) : PyExn + bool :=
  match l with
  | [] => inr false
  | inl e :: _ => inl e
  | inr O :: l' => first_count l'
  | inr (S _) :: _ => inr true
  end.

(** ** completer *)

Section Completer.
(** [str.lower] *)
Variable lower : string -> string.

(** What a call of [complete] ends in: the value returned ([None] or a
    string) or the [IndexError] of a list index out of range. *)
Inductive Completion : Type :=
| Returned (r : option string)
| RaisedIndexError.

(** [l[i]] for a list: a negative index counts from the end. *)
Definition list_index (l : list string) (i : Z) : option string :=
  if (0 <=? i)%Z then nth_error l (Z.to_nat i)
  else if (- i <=? Z.of_nat (length l))%Z
       then nth_error l (Z.to_nat (Z.of_nat (length l) + i))
       else None.

(** One call of the closure: [matches] is the list it shares with
    earlier and later calls. *)
Definition complete (options : list string) (matches : list string)
    (text : string) (state : Z) : list string * Completion :=
  let matches :=
    if (state =? 0)%Z
    then filter (fun c => prefix (lower text) c) options
    else matches in
  (matches,
   if (state <? Z.of_nat (length matches))%Z
   then match list_index matches state with
        | Some c => Returned (Some c)
        | None => RaisedIndexError
        end
   else Returned None).

(** Calls in a row on the shared list, with the results in order. *)
Fixpoint complete_calls (options : list string) (matches : list string)
    (calls : list (string * Z)) : list Completion :=
  match calls with
  | [] => []
  | (text, state) :: calls' =>
      let (matches', r) := complete options matches text state in
      r :: complete_calls options matches' calls'
  end.
End Completer.

(** ** NestedDict.map and NestedDict.as_list_of_tuples *)

(** [self.map(func)]: the loop over [self.items()] assigning into a new
    NestedDict. *)
Definition NestedDict_map {V W : Type}
    (leaf_setitem : W -> string -> Node W -> W * (PyExn + unit))
    (self : NestedDict V) (func : V -> Node W)
    : PyExn + NestedDict W :=
  match run_sets leaf_setitem empty (map (fun '(key, val) => (key, func val)) (items self)) with
  | (retval, inr _) => inr retval
  | (_, inl e) => inl e
  end.

Section AsListOfTuples.
(** Python objects: a leaf is any object that is not a NestedDict, and
    the lists returned here are objects as well. *)
Variable Obj : Type.
(** A list of [(key, value)] tuples as an object. *)
Variable list_obj : list (string * Obj) -> Obj.

Fixpoint as_list_of_tuples (self : NestedDict Obj) : list (string * Obj) :=
  match self with
  | ND items =>
      (fix loop (items : dict (Node Obj)) : list (string * Obj) :=
         match items with
         | [] => []
         | (key, value) :: items' =>
             (key, match value with
                   | Sub d => list_obj (as_list_of_tuples d)
                   | Leaf v => v
                   end) :: loop items'
         end) items
  end.

(** The object is a list of tuples. *)
Definition is_list_of_tuples (v : Obj) : Prop := exists l, v = list_obj l.

(** No leaf of the tree, at any depth, is a list of tuples. *)
Fixpoint no_list_leaf (self : NestedDict Obj) : Prop :=
  match self with
  | ND items =>
      (fix each (items : dict (Node Obj)) : Prop :=
         match items with
         | [] => True
         | (_, Leaf v) :: items' => ~ is_list_of_tuples v /\ each items'
         | (_, Sub d) :: items' => no_list_leaf d /\ each items'
         end) items
  end.
End AsListOfTuples.
Arguments as_list_of_tuples {Obj} list_obj self.
Arguments is_list_of_tuples {Obj} list_obj v.
Arguments no_list_leaf {Obj} list_obj self.

(** Objects for the examples: an [int] or a list of tuples. *)
Inductive ListObj : Type :=
| AnInt (z : Z)
| AList (l : list (string * ListObj)).

(** ** First: the sub-rules that are tried *)

(** The sub-rules [First] calls on [x]: each one up to and including
    the first that does not end in a validation failure. *)
Fixpoint attempted (Rs : list Validator) (x : Chunk) : list Validator :=
  match Rs with
  | [] => []
  | R :: Rs' => R :: (if rejects (call R x) then attempted Rs' x else [])
  end.

(** ** Paths side by side *)

(** [p] is a prefix of [q], proper or not. *)
Definition is_prefix (p q : list string) : Prop := exists r, q = p ++ r.

(** Neither path is a prefix of the other. *)
Definition diverge (p q : list string) : Prop := ~ is_prefix p q /\ ~ is_prefix q p.

(** [rest in n] for an [int] leaf: an [int] is not iterable. *)
Definition scalar_contains_Z (rest : string) (n : Z) : PyExn + bool := inl TypeError.

(** ** Runs of assignments: values and groups *)

(** The same assignment with [f] applied to the value. *)
Definition on_values {A B} (f : A -> B) (o : list string * A) : list string * B :=
  (fst o, f (snd o)).

(** Groups listed head by head: group [G h] is not empty and all its
    paths start with [h]. *)
Definition grouped {A} (G : string -> assignments A) (hs : list string) : Prop :=
  forall h, In h hs ->
    G h <> [] /\ forall o, In o (G h) -> exists t, fst o = h :: t.

(** ** Leaves that take item assignment *)

(** Objects for the examples: an [int]; a plain [dict], which is not a
    NestedDict and is therefore stored as a leaf; and, as a value that a
    plain dict may hold, a NestedDict (which is never a leaf itself: the
    cases for it in the leaf operations below are not reached). *)
Inductive PlainObj : Type :=
| PlainInt (z : Z)
| PlainDict (entries : list (string * PlainObj))
| PlainNested (items : list (string * PlainObj)).

(** A stored node as an object, and back. *)
Fixpoint obj_of_tree (d : NestedDict PlainObj) : list (string * PlainObj) :=
  match d with
  | ND items =>
      (fix each (items : dict (Node PlainObj)) : list (string * PlainObj) :=
         match items with
         | [] => []
         | (key, Leaf o) :: items' => (key, o) :: each items'
         | (key, Sub sub) :: items' => (key, PlainNested (obj_of_tree sub)) :: each items'
         end) items
  end.

Definition obj_of_node (n : Node PlainObj) : PlainObj :=
  match n with
  | Leaf o => o
  | Sub d => PlainNested (obj_of_tree d)
  end.

Fixpoint node_of_obj (o : PlainObj) : Node PlainObj :=
  match o with
  | PlainNested items =>
      Sub (ND ((fix each (items : list (string * PlainObj)) : dict (Node PlainObj) :=
                  match items with
                  | [] => []
                  | (key, o') :: items' => (key, node_of_obj o') :: each items'
                  end) items))
  | _ => Leaf o
  end.

(** [rest in leaf] *)
Definition plain_contains (rest : string) (leaf : PlainObj) : PyExn + bool :=
  match leaf with
  | PlainInt _ => inl TypeError
  | PlainDict entries => inr (dict_contains rest entries)
  | PlainNested _ => inl TypeError
  end.

(** [leaf[rest]] *)
Definition plain_getitem (leaf : PlainObj) (rest : string) : PyExn + Node PlainObj :=
  match leaf with
  | PlainInt _ => inl TypeError
  | PlainDict entries =>
      match dict_getitem rest entries with
      | inl e => inl e
      | inr o => inr (node_of_obj o)
      end
  | PlainNested _ => inl TypeError
  end.

(** [leaf[rest] = value] *)
Definition plain_setitem (leaf : PlainObj) (rest : string) (value : Node PlainObj)
    : PlainObj * (PyExn + unit) :=
  match leaf with
  | PlainInt _ => (leaf, inl TypeError)
  | PlainDict entries => (PlainDict (dict_setitem rest (obj_of_node value) entries), inr tt)
  | PlainNested _ => (leaf, inl TypeError)
  end.

(** An operation on [d] that was handed to the leaf [leaf]: it ends as
    the leaf's operation does, and [d] is as before when the leaf is.
    [result] is the state and outcome of the operation on [d],
    [leaf_result] those of the leaf's. *)
Definition left_to_leaf {V : Type} (d : NestedDict V) (leaf : V)
    (result : NestedDict V * (PyExn + unit)) (leaf_result : V * (PyExn + unit)) : Prop :=
  snd result = snd leaf_result
  /\ (fst leaf_result = leaf -> fst result = d).

(** ** Records of a masked array, as numpy holds them *)

Section MaskedRecords.
Context {NpValue : Type}.
(** The masked array that numpy builds from the data and the mask of a
    sub-array field. *)
Variable masked_array : NpValue -> list bool -> NpValue.

(** A field of a record of a masked array ([ma.mvoid]), data and mask:
    a scalar field has one mask bit, a sub-array field (a dtype with a
    shape) one bit per element, a nested record the fields of its
    own. *)
Inductive MaskedField : Type :=
| ScalarField (data : NpValue) (mask : bool)
| ArrayField (data : NpValue) (mask : list bool)
| RecordField (fields : list (string * MaskedField)).

(** Some mask bit of the field is set. *)
Fixpoint any_masked (f : MaskedField) : bool :=
  match f with
  | ScalarField _ mask => mask
  | ArrayField _ mask => existsb (fun bit => bit) mask
  | RecordField fields =>
      (fix some (fields : list (string * MaskedField)) : bool :=
         match fields with
         | [] => false
         | (_, f') :: fields' => any_masked f' || some fields'
         end) fields
  end.

(** Every mask bit of the field is set: the field is fully absent. *)
Fixpoint fully_masked (f : MaskedField) : bool :=
  match f with
  | ScalarField _ mask => mask
  | ArrayField _ mask => forallb (fun bit => bit) mask
  | RecordField fields =>
      (fix every (fields : list (string * MaskedField)) : bool :=
         match fields with
         | [] => true
         | (_, f') :: fields' => fully_masked f' && every fields'
         end) fields
  end.

(** The data of the field without its mask, as a field of an
    [np.void]. *)
Fixpoint data_of (f : MaskedField) : FieldVal NpValue :=
  match f with
  | ScalarField data _ => Plain data
  | ArrayField data _ => Plain data
  | RecordField fields =>
      Struct (mkVoid ((fix each (fields : list (string * MaskedField))
                         : list (string * FieldVal NpValue) :=
                         match fields with
                         | [] => []
                         | (k, f') :: fields' => (k, data_of f') :: each fields'
                         end) fields))
  end.

(** [array[k]] on a record of a masked array, numpy's
    [mvoid.__getitem__]: when the mask of the field is an array, the
    result is a masked array, whatever the mask holds; otherwise it is
    the masked constant when the mask of the field is true, which for a
    nested record is when some bit of it is set, and the data
    otherwise. *)
Definition mvoid_getitem (f : MaskedField) : FieldVal NpValue :=
  match f with
  | ArrayField data mask => Plain (masked_array data mask)
  | _ => if any_masked f then MaskedConstant else data_of f
  end.

(** The record as [struct_as_dict] sees it through [array[k]]. *)
Definition mvoid (fields : list (string * MaskedField)) : Void NpValue :=
  mkVoid (map (fun '(k, f) => (k, mvoid_getitem f)) fields).
End MaskedRecords.
Arguments MaskedField NpValue : clear implicits.

(** numpy values for the examples: an integer scalar, an integer array
    and a masked integer array. *)
Inductive NpExample : Type :=
| NpInt (z : Z)
| NpArray (data : list Z)
| NpMaskedArray (data : list Z) (mask : list bool).

Definition example_masked_array (data : NpExample) (mask : list bool) : NpExample :=
  match data with
  | NpArray data => NpMaskedArray data mask
  | other => other
  end.

(** [t(x)] for a constructor [t] of the template, kept as the pair of
    the constructor and its argument: the examples do not depend on
    what a conversion yields. *)
Definition example_construct (t : NativeType) (x : NpExample)
    : PyExn + (NativeType * NpExample) :=
  inr (t, x).

Section Convertible.
Context {NpValue Converted : Type}.
Variable construct : NativeType -> NpValue -> PyExn + Converted.

(** A field that the loop of [struct_as_dict] converts without error:
    a value that is not a record, with a template entry that is a list
    alias or a constructor that accepts the value. *)
Definition convertible (types : Node TypeTemplate) (field : string * FieldVal NpValue)
    : Prop :=
  exists x types_k,
    snd field = Plain x
    /\ subscript types (fst field) = inr types_k
    /\ (origin_is_list types_k = true
        \/ exists v, apply_type NpValue Converted construct types_k x = inr v).
End Convertible.

Section MaskedRecordPrefix.
Context {NpValue : Type}.

(** [array[k]] is the masked constant for this field of a record of a
    masked array: a scalar field that is masked, or a nested record
    with some component masked; never a sub-array field. *)
Definition shows_masked (f : MaskedField NpValue) : bool :=
  match f with
  | ArrayField _ _ => false
  | _ => any_masked f
  end.

(** The fields declared before the first one that shows as masked. *)
Fixpoint fields_before_masked (record : list (string * MaskedField NpValue))
    : list (string * MaskedField NpValue) :=
  match record with
  | [] => []
  | (k, f) :: record' =>
      if shows_masked f then [] else (k, f) :: fields_before_masked record'
  end.
End MaskedRecordPrefix.

(** * Properties *)

(** ** The validation monad *)

Lemma outcome_bind {A B} (m : M A) (k : A -> M B) :
  outcome (x <- m ;; k x) =
  match outcome m with
  | inl e => inl e
  | inr a => outcome (k a)
  end.
Proof.
  destruct m as [w [e | a]]; simpl; [reflexivity |].
  destruct (k a); reflexivity.
Qed.

Lemma warnings_bind_ok {A B} (m : M A) (k : A -> M B) (a : A) :
  outcome m = inr a ->
  warnings (x <- m ;; k x) = warnings m ++ warnings (k a).
Proof.
  destruct m as [w [e | a']]; simpl; intros H; [discriminate |].
  injection H as ->. destruct (k a); reflexivity.
Qed.

Lemma outcome_try_except {A} (body handler : M A) :
  outcome (try_except_YAMLValidationError body handler) =
  if rejects body then outcome handler else outcome body.
Proof.
  unfold rejects. destruct body as [w [[k | | | | c p ch] | a]]; simpl; try reflexivity.
  destruct handler; reflexivity.
Qed.

Lemma rejects_bind_ret {A B} (m : M A) (f : A -> B) :
  rejects (x <- m ;; ret (f x)) = rejects m.
Proof.
  unfold rejects. rewrite outcome_bind. destruct (outcome m); reflexivity.
Qed.

(** ** Deprecated *)

(** C1, as amended: [Deprecated(msg, R)(x)] ends exactly as [R(x)] ends,
    with the same result on success and the same exception on failure,
    and it logs its warning exactly once on every call, before [R] runs
    and whether or not [R] then succeeds. *)
Theorem Deprecated_delegates_after_warning (message : string) (R : Validator) (x : Chunk) :
  outcome (call (Deprecated.__init__ message R) x) = outcome (call R x)
  /\ warnings (call (Deprecated.__init__ message R) x) = message :: warnings (call R x)
  /\ wrapper_warnings message R x = 1.
Proof.
  assert (Hw : warnings (call (Deprecated.__init__ message R) x)
               = message :: warnings (call R x)).
  { simpl. unfold Deprecated.__call__, log_warning, bind.
    destruct (call R x) as [w r]; reflexivity. }
  split; [| split; [exact Hw |]].
  - simpl. unfold Deprecated.__call__, log_warning, bind.
    destruct (call R x) as [w r]; reflexivity.
  - unfold wrapper_warnings. rewrite Hw. cbn [length]. lia.
Qed.

(** C1, as stated, fails: on a failed match the warning is logged all
    the same.  The inner rule is [Literal("true")], the input the scalar
    [maybe]. *)
Lemma Deprecated_warns_on_failed_match :
  let R := Literal.__init__ "true" in
  let x := ScalarChunk "maybe" in
  fails (call R x)
  /\ fails (call (Deprecated.__init__ "capture-output is deprecated" R) x)
  /\ warnings (call (Deprecated.__init__ "capture-output is deprecated" R) x)
     = ["capture-output is deprecated"]
  /\ wrapper_warnings "capture-output is deprecated" R x <> 0.
Proof.
  cbv zeta. repeat split.
  - eexists. vm_compute. reflexivity.
  - eexists. vm_compute. reflexivity.
  - vm_compute. discriminate.
Qed.

(** ** First *)

Lemma First_loop_outcome (self : ValidatorRepr) (name : string)
    (Rs : list Validator) (x : Chunk) :
  outcome (First.loop self name Rs x) =
  match find (fun R => negb (rejects (call R x))) Rs with
  | Some R =>
      match outcome (call R x) with
      | inr result => inr (First.select self (repr R) result)
      | inl e => inl e
      end
  | None =>
      inl (YAMLValidationError ("failed to find a valid schema for " ++ name)
             "found invalid input" x)
  end.
Proof.
  induction Rs as [| R Rs IH]; simpl; [reflexivity |].
  rewrite outcome_try_except, rejects_bind_ret.
  destruct (rejects (call R x)) eqn:E; simpl; [exact IH |].
  rewrite outcome_bind. destruct (outcome (call R x)); reflexivity.
Qed.

(** C2, as amended: [First(name, R1..Rn)(x)] tries the sub-rules in
    declaration order and stops at the first one that does not end in a
    validation failure.  If that sub-rule succeeds, its result is
    returned (marked with the sub-rule selected); if it raises an
    exception of another class, that exception propagates.  If every
    sub-rule ends in a validation failure, the one failure raised is
    "failed to find a valid schema for <name>" and the sub-failures are
    discarded. *)
Theorem First_commits_to_first_non_rejecting (name : string) (Rs : list Validator)
    (x : Chunk) :
  outcome (call (First.__init__ name Rs) x) =
  match find (fun R => negb (rejects (call R x))) Rs with
  | Some R =>
      match outcome (call R x) with
      | inr result => inr (First.select (First.self_repr name Rs) (repr R) result)
      | inl e => inl e
      end
  | None =>
      inl (YAMLValidationError ("failed to find a valid schema for " ++ name)
             "found invalid input" x)
  end.
Proof. apply First_loop_outcome. Qed.

(** C2, as stated, fails: with [Type()] before [Literal("int\n")] and
    the scalar [int\n] (a block scalar), [Type()] raises [KeyError]; it
    is not caught, so the second sub-rule, which succeeds on this input,
    is never tried and the failure raised is not the aggregate one. *)
Lemma First_propagates_KeyError :
  let t := ("int" ++ Type_.newline)%string in
  let R1 := Type_.__init__ in
  let R2 := Literal.__init__ t in
  let x := ScalarChunk t in
  fails (call R1 x)
  /\ succeeds (call R2 x)
  /\ outcome (call (First.__init__ "type" [R1; R2]) x) = inl (KeyError t).
Proof.
  cbv zeta. repeat split.
  - eexists. vm_compute. reflexivity.
  - eexists. vm_compute. reflexivity.
Qed.

(** ** Literal and Choice *)

Lemma Literal_call_scalar (expected t : string) :
  call (Literal.__init__ expected) (ScalarChunk t) =
  if String.eqb expected t
  then ([], inr (mkYAML (PyStr t) (LiteralRepr expected) None))
  else ([], inl (YAMLValidationError ("when expecting " ++ expected)
                   "found non-matching string" (ScalarChunk t))).
Proof.
  simpl. unfold ScalarValidator_call, Literal.validate_scalar. simpl.
  destruct (String.eqb expected t); reflexivity.
Qed.

Lemma Literal_matches (expected t : string) :
  matches_literals (Literal.__init__ expected) [expected] t.
Proof.
  unfold matches_literals, rejects. rewrite Literal_call_scalar.
  destruct (String.eqb_spec expected t) as [-> | Hne]; simpl; split.
  - intros _. eexists. split; reflexivity.
  - intros Hn. exfalso. apply Hn. now left.
  - intros [H | []]. contradiction.
  - reflexivity.
Qed.

Lemma OrValidator_matches (a b : Validator) (la lb : list string) (t : string) :
  matches_literals a la t -> matches_literals b lb t ->
  matches_literals (OrValidator a b) (la ++ lb) t.
Proof.
  intros [Ha1 Ha2] [Hb1 Hb2]. unfold matches_literals. simpl call.
  assert (Hout : forall r : PyExn + YAML,
            outcome (try_except_YAMLValidationError
              (result <- call a (ScalarChunk t) ;;
               ret (OrValidator_select (OrValidatorRepr (repr a) (repr b)) result))
              (result <- call b (ScalarChunk t) ;;
               ret (OrValidator_select (OrValidatorRepr (repr a) (repr b)) result))) = r ->
            r = (if rejects (call a (ScalarChunk t))
                 then match outcome (call b (ScalarChunk t)) with
                      | inl e => inl e
                      | inr y => inr (OrValidator_select (OrValidatorRepr (repr a) (repr b)) y)
                      end
                 else match outcome (call a (ScalarChunk t)) with
                      | inl e => inl e
                      | inr y => inr (OrValidator_select (OrValidatorRepr (repr a) (repr b)) y)
                      end)).
  { intros r <-. rewrite outcome_try_except, rejects_bind_ret, !outcome_bind.
    destruct (rejects (call a (ScalarChunk t)));
      [destruct (outcome (call b (ScalarChunk t))) |
       destruct (outcome (call a (ScalarChunk t)))]; reflexivity. }
  destruct (in_dec string_dec t la) as [Hin | Hnin].
  - split; [| intros Hn; exfalso; apply Hn, in_or_app; now left].
    intros _. destruct (Ha1 Hin) as [r [Hr Hv]].
    eexists. split.
    + rewrite (Hout _ eq_refl). unfold rejects. rewrite Hr. reflexivity.
    + exact Hv.
  - specialize (Ha2 Hnin). split.
    + intros Hin. apply in_app_or in Hin. destruct Hin as [Hin | Hin]; [contradiction |].
      destruct (Hb1 Hin) as [r [Hr Hv]]. eexists. split.
      * rewrite (Hout _ eq_refl), Ha2, Hr. reflexivity.
      * exact Hv.
    + intros Hn. assert (Hnb : ~ In t lb) by (intros H; apply Hn, in_or_app; now right).
      specialize (Hb2 Hnb). unfold rejects at 1. rewrite (Hout _ eq_refl), Ha2.
      unfold rejects in Hb2. destruct (outcome (call b (ScalarChunk t))); [exact Hb2 | discriminate].
Qed.

Lemma fold_OrValidator_matches (rest : list string) (v : Validator)
    (lits : list string) (t : string) :
  matches_literals v lits t ->
  matches_literals (fold_left OrValidator (map Literal.__init__ rest) v) (lits ++ rest) t.
Proof.
  revert v lits. induction rest as [| e rest IH]; intros v lits Hv; simpl.
  - now rewrite app_nil_r.
  - replace (lits ++ e :: rest) with ((lits ++ [e]) ++ rest)
      by (rewrite <- app_assoc; reflexivity).
    apply IH. apply OrValidator_matches; [exact Hv | apply Literal_matches].
Qed.

(** C3: on a scalar with text [t], [Choice(L)] succeeds, and then with
    the text [t] as its value, exactly when [t] is one of the literals
    [L]; [Literal(expected)] succeeds exactly when [t] is [expected],
    compared character by character, and then returns the text
    unchanged. *)
Theorem Choice_and_Literal_accept_exactly (L : list string) (expected t : string) :
  (succeeds (Choice_call L (ScalarChunk t)) <-> In t L)
  /\ ((exists r, outcome (Choice_call L (ScalarChunk t)) = inr r /\ value r = PyStr t)
      <-> In t L)
  /\ (succeeds (call (Literal.__init__ expected) (ScalarChunk t)) <-> t = expected)
  /\ outcome (call (Literal.__init__ t) (ScalarChunk t))
     = inr (mkYAML (PyStr t) (LiteralRepr t) None).
Proof.
  assert (HC : (exists r, outcome (Choice_call L (ScalarChunk t)) = inr r /\ value r = PyStr t)
               <-> In t L).
  { unfold Choice_call, Choice. destruct L as [| e rest]; simpl.
    - split; [intros [r [H _]]; discriminate | intros []].
    - pose proof (fold_OrValidator_matches rest _ [e] t (Literal_matches e t)) as [H1 H2].
      simpl in H1, H2. split.
      + intros [r [Hr _]]. destruct (in_dec string_dec t (e :: rest)) as [Hin | Hn]; [exact Hin |].
        specialize (H2 Hn). unfold rejects in H2. rewrite Hr in H2. discriminate.
      + exact H1. }
  split; [| split; [exact HC | split]].
  - split.
    + intros [r Hr]. destruct (in_dec string_dec t L) as [Hin | Hn]; [exact Hin |].
      exfalso. unfold Choice_call, Choice in Hr. destruct L as [| e rest]; simpl in Hr.
      * discriminate.
      * pose proof (fold_OrValidator_matches rest _ [e] t (Literal_matches e t)) as [_ H2].
        simpl in H2. specialize (H2 Hn). unfold rejects in H2. rewrite Hr in H2. discriminate.
    + intros Hin. apply HC in Hin. destruct Hin as [r [Hr _]]. now exists r.
  - unfold succeeds. rewrite Literal_call_scalar.
    destruct (String.eqb_spec expected t) as [-> | Hne]; simpl.
    + split; [reflexivity | intros _; eexists; reflexivity].
    + split; [intros [r Hr]; discriminate | intros ->; contradiction].
  - rewrite Literal_call_scalar, String.eqb_refl. reflexivity.
Qed.

(** ** Type *)

Lemma dict_getitem_In {A} (k : string) (d : dict A) (v : A) :
  dict_getitem k d = inr v -> In k (map fst d).
Proof.
  induction d as [| [k' v'] d IH]; simpl; [discriminate |].
  destruct (String.eqb_spec k k') as [-> | Hne]; intros H; [now left | right; auto].
Qed.

Lemma Type_call_scalar (t : string) :
  outcome (call Type_.__init__ (ScalarChunk t)) =
  if Type_.scalar_regex_match t
  then match dict_getitem t Type_.scalar_map with
       | inr tag => inr (mkYAML (PyType tag) TypeRepr None)
       | inl e => inl e
       end
  else inl (YAMLValidationError "when expecting a valid type description"
              "found invalid input" (ScalarChunk t)).
Proof.
  unfold Type_.__init__, call, ScalarValidator_call, Type_.validate_scalar,
    expect_scalar, contents, is_scalar. cbn [negb].
  destruct (Type_.scalar_regex_match t); [| reflexivity].
  destruct (dict_getitem t Type_.scalar_map); reflexivity.
Qed.

Lemma Type_regex_matches_alternatives (t : string) :
  In t Type_.alternatives -> Type_.scalar_regex_match t = true.
Proof.
  intros H. unfold Type_.scalar_regex_match. apply existsb_exists.
  exists t. split; [exact H |]. rewrite String.eqb_refl. reflexivity.
Qed.

Lemma Type_regex_match_inv (t : string) :
  Type_.scalar_regex_match t = true ->
  In t Type_.alternatives
  \/ exists name, In name Type_.alternatives /\ t = (name ++ Type_.newline)%string.
Proof.
  unfold Type_.scalar_regex_match. intros H. apply existsb_exists in H.
  destruct H as [alt [Hin H]]. apply orb_prop in H.
  destruct H as [H | H]; apply String.eqb_eq in H; subst t; [now left |].
  right. now exists alt.
Qed.

(** C4: the rule accepts the seven names, and the text [int] followed
    by a newline is not one of them; yet on that text the regex, whose
    [$] also matches before a final newline, lets it pass, and the
    lookup in [scalar_map] raises [KeyError]: the text is not rejected
    with a validation failure, and [First], which moves on to its next
    sub-rule after a validation failure only, does not get to the
    sub-rule that follows. *)
Theorem Type_raises_KeyError_after_newline :
  let text := ("int" ++ Type_.newline)%string in
  ~ In text Type_.alternatives
  /\ Type_.scalar_regex_match text = true
  /\ outcome (call Type_.__init__ (ScalarChunk text)) = inl (KeyError text)
  /\ rejects (call Type_.__init__ (ScalarChunk text)) = false
  /\ rejects (call Type_.__init__ (ScalarChunk "Int")) = true
  /\ outcome (call (First.__init__ "type" [Type_.__init__; Literal.__init__ text])
                (ScalarChunk text))
     = inl (KeyError text).
Proof.
  cbv zeta. split.
  - intros H. cbn in H. repeat (destruct H as [H | H]; [discriminate |]). exact H.
  - repeat split.
Qed.

(** What the type-descriptor rule does with every text: on one of the
    seven names it succeeds with the class that [scalar_map] holds for
    it; on one of the names followed by a newline it raises [KeyError];
    on every other text it fails with the validation failure "when
    expecting a valid type description". *)
Theorem Type_outcome_by_text (t : string) :
  let result := outcome (call Type_.__init__ (ScalarChunk t)) in
  (In t Type_.alternatives ->
   exists tag, dict_getitem t Type_.scalar_map = inr tag
               /\ result = inr (mkYAML (PyType tag) TypeRepr None))
  /\ ((exists name, In name Type_.alternatives /\ t = (name ++ Type_.newline)%string) ->
      result = inl (KeyError t))
  /\ (~ In t Type_.alternatives ->
      ~ (exists name, In name Type_.alternatives /\ t = (name ++ Type_.newline)%string) ->
      result = inl (YAMLValidationError "when expecting a valid type description"
                      "found invalid input" (ScalarChunk t))).
Proof.
  cbv zeta. rewrite Type_call_scalar. split; [| split].
  - intros Hin. rewrite (Type_regex_matches_alternatives t Hin).
    cbn in Hin.
    repeat (destruct Hin as [<- | Hin]; [eexists; split; reflexivity |]).
    destruct Hin.
  - intros [name [Hin ->]]. cbn in Hin.
    repeat (destruct Hin as [<- | Hin]; [reflexivity |]).
    destruct Hin.
  - intros Hn Hnl. destruct (Type_.scalar_regex_match t) eqn:E; [| reflexivity].
    apply Type_regex_match_inv in E. tauto.
Qed.

Lemma Type_outcome_by_text_witness :
  outcome (call Type_.__init__ (ScalarChunk "Int"))
  = inl (YAMLValidationError "when expecting a valid type description"
           "found invalid input" (ScalarChunk "Int"))
  /\ outcome (call Type_.__init__ (ScalarChunk "double"))
     = inr (mkYAML (PyType py_float) TypeRepr None).
Proof.
  pose proof (Type_outcome_by_text "Int") as [_ [_ Hother]].
  pose proof (Type_outcome_by_text "double") as [Hname _].
  split.
  - apply Hother.
    + intros H. cbn in H. repeat (destruct H as [H | H]; [discriminate |]). exact H.
    + intros [name [Hin E]]. cbn in Hin.
      repeat (destruct Hin as [<- | Hin]; [discriminate |]). exact Hin.
  - destruct Hname as [tag [Htag Hres]].
    + cbn. tauto.
    + cbn in Htag. injection Htag as <-. exact Hres.
Defined.

(** ** Keys and their segments *)

Lemma partition_without_separator (s : string) :
  has_slash s = false -> partition slash s = (s, EmptyString, EmptyString).
Proof.
  induction s as [| c s IH]; simpl; [reflexivity |].
  intros H. apply orb_false_iff in H. destruct H as [Hc Hs].
  rewrite Hc, (IH Hs). reflexivity.
Qed.

Lemma partition_at_separator (s rest : string) :
  has_slash s = false ->
  partition slash (s ++ String slash rest) = (s, String slash EmptyString, rest).
Proof.
  induction s as [| c s IH]; simpl.
  - intros _. reflexivity.
  - intros H. apply orb_false_iff in H. destruct H as [Hc Hs].
    rewrite Hc, (IH Hs). reflexivity.
Qed.

Lemma length_append_separator (s rest : string) :
  String.length (s ++ String slash rest) = String.length s + S (String.length rest).
Proof. induction s as [| c s IH]; simpl; [reflexivity | now rewrite IH]. Qed.

Lemma truthy_append_separator (s rest : string) :
  truthy (s ++ String slash rest) = true.
Proof. destruct s; reflexivity. Qed.

Lemma is_path_single (s : string) :
  is_path [s] = true -> has_slash s = false.
Proof.
  unfold is_path. simpl. rewrite !andb_true_r. apply negb_true_iff.
Qed.

Lemma is_path_cons (s s2 : string) (t : list string) :
  is_path (s :: s2 :: t) = true ->
  has_slash s = false
  /\ truthy (join_path (s2 :: t)) = true
  /\ is_path (s2 :: t) = true.
Proof.
  unfold is_path. intros H. apply andb_prop in H. destruct H as [Hall Hlast].
  assert (Hall' : negb (has_slash s)
                  && forallb (fun s => negb (has_slash s)) (s2 :: t) = true)
    by exact Hall.
  apply andb_prop in Hall'. destruct Hall' as [Hs Htl].
  apply negb_true_iff in Hs. split; [exact Hs |].
  rewrite Htl. destruct t as [| s3 t].
  - split; [exact Hlast | reflexivity].
  - split; [apply truthy_append_separator | exact Hlast].
Qed.

Lemma dict_getitem_error {A} (k : string) (d : dict A) (e : PyExn) :
  dict_getitem k d = inl e -> e = KeyError k /\ dict_contains k d = false.
Proof.
  induction d as [| [k' v'] d IH]; simpl.
  - intros H. injection H as <-. auto.
  - destruct (String.eqb k k'); [discriminate | exact IH].
Qed.

Lemma dict_getitem_contains {A} (k : string) (d : dict A) (v : A) :
  dict_getitem k d = inr v -> dict_contains k d = true.
Proof.
  induction d as [| [k' v'] d IH]; simpl; [discriminate |].
  destruct (String.eqb k k'); [reflexivity | exact IH].
Qed.

Lemma partition_rest_shorter (s first mid rest : string) :
  partition slash s = (first, mid, rest) ->
  truthy rest = true ->
  String.length rest < String.length s.
Proof.
  revert first mid rest. induction s as [| c s IH]; intros first mid rest; cbn [partition].
  - intros H. injection H as <- <- <-. discriminate.
  - destruct (Ascii.eqb c slash).
    + intros H _. injection H as <- <- <-. simpl. lia.
    + destruct (partition slash s) as [[a m] r] eqn:E. intros H Hr.
      injection H as <- <- <-. specialize (IH _ _ _ eq_refl Hr). simpl. lia.
Qed.

(** The depth budget [String.length key] is never exhausted: any
    budget of at least that much gives the same result. *)
Lemma getitem_rec_depth {V} (leaf_getitem : V -> string -> PyExn + Node V) (n : nat) :
  forall (m : nat) (self : NestedDict V) (key : string),
    String.length key <= n -> String.length key <= m ->
    getitem_rec leaf_getitem n self key = getitem_rec leaf_getitem m self key.
Proof.
  induction n as [| n IH]; intros m self key Hn Hm.
  - destruct key; [| simpl in Hn; lia]. destruct m; reflexivity.
  - destruct m as [| m]; [destruct key; [reflexivity | simpl in Hm; lia] |].
    cbn [getitem_rec]. destruct (partition slash key) as [[first mid] rest] eqn:E.
    destruct (truthy rest) eqn:Hr; [| reflexivity].
    pose proof (partition_rest_shorter _ _ _ _ E Hr).
    destruct (dict_getitem first (super self)) as [e | [v | d]]; try reflexivity.
    apply IH; lia.
Qed.

Lemma contains_rec_depth {V} (leaf_contains : string -> V -> PyExn + bool) (n : nat) :
  forall (m : nat) (self : NestedDict V) (key : string),
    String.length key <= n -> String.length key <= m ->
    contains_rec leaf_contains n self key = contains_rec leaf_contains m self key.
Proof.
  induction n as [| n IH]; intros m self key Hn Hm.
  - destruct key; [| simpl in Hn; lia]. destruct m; reflexivity.
  - destruct m as [| m]; [destruct key; [reflexivity | simpl in Hm; lia] |].
    cbn [contains_rec]. destruct (partition slash key) as [[first mid] rest] eqn:E.
    destruct (truthy rest) eqn:Hr; [| reflexivity].
    pose proof (partition_rest_shorter _ _ _ _ E Hr).
    destruct (dict_contains first (super self)); [| reflexivity].
    destruct (dict_getitem first (super self)) as [e | [v | d]]; try reflexivity.
    apply IH; lia.
Qed.

Lemma setitem_rec_depth {V}
    (leaf_setitem : V -> string -> Node V -> V * (PyExn + unit))
    (value : Node V) (n : nat) :
  forall (m : nat) (self : NestedDict V) (key : string),
    String.length key <= n -> String.length key <= m ->
    setitem_rec leaf_setitem n self key value = setitem_rec leaf_setitem m self key value.
Proof.
  induction n as [| n IH]; intros m self key Hn Hm.
  - destruct key; [| simpl in Hn; lia]. destruct m; reflexivity.
  - destruct m as [| m]; [destruct key; [reflexivity | simpl in Hm; lia] |].
    cbn [setitem_rec]. destruct (partition slash key) as [[first mid] rest] eqn:E.
    destruct (truthy rest) eqn:Hr; [| reflexivity].
    pose proof (partition_rest_shorter _ _ _ _ E Hr).
    destruct (dict_getitem first _) as [e | [v | d]]; try reflexivity.
    rewrite (IH m d rest) by lia. reflexivity.
Qed.

(** Every key that does not end in a separator is a path: that of its
    segments. *)
Lemma split_key_nonempty (s : string) : split_key s <> [].
Proof.
  destruct s as [| c s]; cbn [split_key]; [discriminate |].
  destruct (Ascii.eqb c slash); [discriminate |].
  destruct (split_key s); discriminate.
Qed.

Lemma split_key_segments (s : string) :
  forallb (fun seg => negb (has_slash seg)) (split_key s) = true.
Proof.
  induction s as [| c s IH]; [reflexivity |]. cbn [split_key].
  destruct (Ascii.eqb c slash) eqn:E; [exact IH |].
  destruct (split_key s) as [| h t]; cbn [forallb has_slash] in *; rewrite E.
  - reflexivity.
  - exact IH.
Qed.

Lemma join_split_key (s : string) : join_path (split_key s) = s.
Proof.
  induction s as [| c s IH]; [reflexivity |]. cbn [split_key].
  destruct (Ascii.eqb_spec c slash) as [-> | Hne].
  - pose proof (split_key_nonempty s) as Hn.
    destruct (split_key s) as [| h t]; [contradiction |].
    cbn [join_path] in *. now rewrite IH.
  - pose proof (split_key_nonempty s) as Hn.
    destruct (split_key s) as [| h t]; [contradiction |].
    destruct t as [| h' t]; cbn [join_path] in *; rewrite <- IH; reflexivity.
Qed.

Lemma split_key_last (s : string) :
  s <> EmptyString -> ends_with_slash s = false ->
  truthy (last (split_key s) EmptyString) = true.
Proof.
  induction s as [| c s IH]; intros Hs He; [contradiction |].
  pose proof (split_key_nonempty s) as Hn.
  cbn [split_key]. destruct (Ascii.eqb c slash) eqn:E.
  - destruct s as [| c' s]; [cbn in He; congruence |].
    destruct (split_key (String c' s)) as [| h t] eqn:Es; [contradiction |].
    cbn [last]. apply IH; [discriminate | exact He].
  - destruct (split_key s) as [| h t] eqn:Es; [contradiction |].
    destruct t as [| h' t]; [reflexivity |].
    destruct s as [| c' s]; [discriminate |].
    change (last (String c h :: h' :: t) EmptyString) with (last (h :: h' :: t) EmptyString).
    apply IH; [discriminate | exact He].
Qed.

Lemma split_key_is_path (key : string) :
  ends_with_slash key = false ->
  is_path (split_key key) = true /\ join_path (split_key key) = key.
Proof.
  intros He. split; [| apply join_split_key].
  unfold is_path. rewrite split_key_segments. cbn [andb].
  destruct key as [| c s]; [reflexivity |].
  pose proof (split_key_last (String c s) ltac:(discriminate) He) as Hl.
  pose proof (split_key_nonempty (String c s)) as Hn.
  destruct (split_key (String c s)) as [| a [| b l]]; [contradiction | reflexivity | exact Hl].
Qed.

Section KeysAsPaths.
Context {V : Type}.
Variable leaf_getitem : V -> string -> PyExn + Node V.
Variable leaf_setitem : V -> string -> Node V -> V * (PyExn + unit).
Variable leaf_contains : string -> V -> PyExn + bool.

Lemma getitem_rec_resolve (segs : list string) :
  forall (depth : nat) (self : NestedDict V),
    is_path segs = true ->
    String.length (join_path segs) <= depth ->
    getitem_rec leaf_getitem depth self (join_path segs) =
    match resolve self segs with
    | Resolved n => inr n
    | Absent seg => inl (KeyError seg)
    | ThroughLeaf v rest => leaf_getitem v (join_path rest)
    end.
Proof.
  induction segs as [| s segs IH]; intros depth self Hp Hd; [discriminate |].
  destruct segs as [| s2 t].
  - apply is_path_single in Hp. cbn [join_path resolve].
    destruct depth; cbn [getitem_rec]; rewrite (partition_without_separator s Hp);
      cbn [truthy]; destruct (dict_getitem s (super self)) as [e | n] eqn:E;
      try reflexivity; apply dict_getitem_error in E; destruct E as [-> _]; reflexivity.
  - apply is_path_cons in Hp. destruct Hp as [Hs [Ht Hp]].
    change (join_path (s :: s2 :: t)) with (s ++ String slash (join_path (s2 :: t)))%string in *.
    rewrite length_append_separator in Hd.
    destruct depth as [| depth]; [lia |].
    cbn [getitem_rec resolve]. rewrite (partition_at_separator s _ Hs), Ht.
    destruct (dict_getitem s (super self)) as [e | [v | d]] eqn:E.
    + apply dict_getitem_error in E. destruct E as [-> _]. reflexivity.
    + reflexivity.
    + apply IH; [exact Hp | lia].
Qed.

Lemma contains_rec_resolve (segs : list string) :
  forall (depth : nat) (self : NestedDict V),
    is_path segs = true ->
    String.length (join_path segs) <= depth ->
    contains_rec leaf_contains depth self (join_path segs) =
    match resolve self segs with
    | Resolved _ => inr true
    | Absent _ => inr false
    | ThroughLeaf v rest => leaf_contains (join_path rest) v
    end.
Proof.
  induction segs as [| s segs IH]; intros depth self Hp Hd; [discriminate |].
  destruct segs as [| s2 t].
  - apply is_path_single in Hp. cbn [join_path resolve].
    destruct depth; cbn [contains_rec]; rewrite (partition_without_separator s Hp);
      cbn [truthy]; destruct (dict_getitem s (super self)) as [e | n] eqn:E;
      try (apply dict_getitem_error in E; destruct E as [_ ->]; reflexivity);
      apply dict_getitem_contains in E; rewrite E; reflexivity.
  - apply is_path_cons in Hp. destruct Hp as [Hs [Ht Hp]].
    change (join_path (s :: s2 :: t)) with (s ++ String slash (join_path (s2 :: t)))%string in *.
    rewrite length_append_separator in Hd.
    destruct depth as [| depth]; [lia |].
    cbn [contains_rec resolve]. rewrite (partition_at_separator s _ Hs), Ht.
    destruct (dict_getitem s (super self)) as [e | [v | d]] eqn:E.
    + apply dict_getitem_error in E. destruct E as [_ ->]. reflexivity.
    + apply dict_getitem_contains in E. rewrite E. reflexivity.
    + apply dict_getitem_contains in E. rewrite E. apply IH; [exact Hp | lia].
Qed.

Lemma setitem_rec_set_path (segs : list string) (value : Node V) :
  forall (depth : nat) (self : NestedDict V),
    is_path segs = true ->
    String.length (join_path segs) <= depth ->
    setitem_rec leaf_setitem depth self (join_path segs) value
    = set_path leaf_setitem self segs value.
Proof.
  induction segs as [| s segs IH]; intros depth self Hp Hd; [discriminate |].
  destruct segs as [| s2 t].
  - apply is_path_single in Hp. cbn [join_path set_path].
    destruct depth; cbn [setitem_rec]; rewrite (partition_without_separator s Hp);
      reflexivity.
  - apply is_path_cons in Hp. destruct Hp as [Hs [Ht Hp]].
    change (join_path (s :: s2 :: t)) with (s ++ String slash (join_path (s2 :: t)))%string in *.
    rewrite length_append_separator in Hd.
    destruct depth as [| depth]; [lia |].
    cbn [setitem_rec set_path]. rewrite (partition_at_separator s _ Hs), Ht.
    destruct (dict_getitem s
                (super (if negb (dict_contains s (super self))
                        then ND (dict_setitem s (Sub empty) (super self))
                        else self))) as [e | [v | d]] eqn:E; try reflexivity.
    rewrite (IH depth d Hp) by lia. reflexivity.
Qed.
End KeysAsPaths.

(** ** NestedDict: membership and lookup *)

(** C6, as amended: for a path [p] given by its segments,
    [contains(p)] is [True] when the path resolves to a leaf or a
    sub-tree and [False] when a segment is missing from the sub-tree
    reached; when a proper prefix of [p] resolves to a leaf, the answer
    is whatever the leaf's own membership test gives for the rest of the
    path, which for a number is a [TypeError] and not [False]. *)
Theorem contains_follows_resolution {V : Type}
    (leaf_contains : string -> V -> PyExn + bool)
    (d : NestedDict V) (segs : list string) :
  is_path segs = true ->
  __contains__ leaf_contains d (join_path segs) =
  match resolve d segs with
  | Resolved _ => inr true
  | Absent _ => inr false
  | ThroughLeaf v rest => leaf_contains (join_path rest) v
  end.
Proof.
  intros Hp. unfold __contains__. now apply contains_rec_resolve.
Qed.

Lemma contains_follows_resolution_witness :
  is_path ["a"; "b"] = true
  /\ __contains__ scalar_contains
       (ND [("a", Sub (ND [("b", Leaf (PyInt 1))]))]) "a/b" = inr true.
Proof.
  split; [reflexivity |].
  exact (contains_follows_resolution scalar_contains
           (ND [("a", Sub (ND [("b", Leaf (PyInt 1))]))]) ["a"; "b"] eq_refl).
Defined.

(** C6, as stated, fails: with the leaf [1] stored at [a], the test
    [contains("a/b")] raises [TypeError] instead of returning [False];
    with the string [xbx] stored at [a] it returns [True]. *)
Lemma contains_through_leaf_is_not_False :
  __contains__ scalar_contains (ND [("a", Leaf (PyInt 1))]) "a/b" = inl TypeError
  /\ __contains__ scalar_contains (ND [("a", Leaf (PyStr "xbx"))]) "a/b" = inr true
  /\ resolve (ND [("a", Leaf (PyInt 1))]) ["a"] = Resolved (Leaf (PyInt 1)).
Proof. repeat split. Qed.

(** A key that ends in a separator is stored under the whole key but
    looked up under its first segment. *)
Example trailing_separator_set_then_get :
  __setitem__ no_setitem empty "a/" (Leaf 1%Z) = (ND [("a/", Leaf 1%Z)], inr tt)
  /\ __getitem__ no_getitem (ND [("a/", Leaf 1%Z)]) "a/" = inl (KeyError "a").
Proof. split; reflexivity. Qed.

(** C7, as amended: for a path [p] given by its segments, [get(p)]
    returns the leaf or sub-tree at [p] when the path resolves, and
    raises [KeyError], a lookup error, naming the segment when a segment
    is missing from the sub-tree reached; when a proper prefix of [p]
    resolves to a leaf, the result is that of subscripting the leaf with
    the rest of the path, whatever the leaf's class makes of it. *)
Theorem getitem_follows_resolution {V : Type} (no_getitem : V -> string -> PyExn + Node V)
    (d : NestedDict V) (segs : list string) :
  is_path segs = true ->
  __getitem__ no_getitem d (join_path segs) =
  match resolve d segs with
  | Resolved n => inr n
  | Absent seg => inl (KeyError seg)
  | ThroughLeaf v rest => no_getitem v (join_path rest)
  end
  /\ (forall seg, resolve d segs = Absent seg ->
      exists e, __getitem__ no_getitem d (join_path segs) = inl e
                /\ is_LookupError e = true).
Proof.
  intros Hp.
  assert (H : __getitem__ no_getitem d (join_path segs) =
              match resolve d segs with
              | Resolved n => inr n
              | Absent seg => inl (KeyError seg)
              | ThroughLeaf v rest => no_getitem v (join_path rest)
              end)
    by (unfold __getitem__; now apply getitem_rec_resolve).
  split; [exact H |].
  intros seg Hseg. rewrite H, Hseg. eexists. split; reflexivity.
Qed.

Lemma getitem_follows_resolution_witness :
  is_path ["a"; "c"] = true
  /\ __getitem__ no_getitem (ND [("a", Sub (ND [("b", Leaf (PyInt 1))]))]) "a/c"
     = inl (KeyError "c").
Proof.
  split; [reflexivity |].
  exact (proj1 (getitem_follows_resolution no_getitem
                  (ND [("a", Sub (ND [("b", Leaf (PyInt 1))]))]) ["a"; "c"] eq_refl)).
Defined.

(** C7, as stated, fails: with the leaf [1] stored at [a], segment [b]
    of the path [a/b] does not exist, and [get("a/b")] raises the
    [TypeError] of subscripting an [int], which is not a lookup
    error. *)
Lemma getitem_through_leaf_is_TypeError :
  __getitem__ no_getitem (ND [("a", Leaf (PyInt 1))]) "a/b" = inl TypeError
  /\ is_LookupError TypeError = false.
Proof. split; reflexivity. Qed.

(** The same for a key given as a string: every key that does not end
    in a separator is covered, through its segments. *)
Lemma getitem_by_key {V : Type} (leaf_getitem : V -> string -> PyExn + Node V)
    (d : NestedDict V) (key : string) :
  ends_with_slash key = false ->
  __getitem__ leaf_getitem d key =
  match resolve d (split_key key) with
  | Resolved n => inr n
  | Absent seg => inl (KeyError seg)
  | ThroughLeaf v rest => leaf_getitem v (join_path rest)
  end.
Proof.
  intros He. destruct (split_key_is_path key He) as [Hp Hj].
  unfold __getitem__. rewrite <- Hj at 1 2. now apply getitem_rec_resolve.
Qed.

Lemma contains_by_key {V : Type} (leaf_contains : string -> V -> PyExn + bool)
    (d : NestedDict V) (key : string) :
  ends_with_slash key = false ->
  __contains__ leaf_contains d key =
  match resolve d (split_key key) with
  | Resolved _ => inr true
  | Absent _ => inr false
  | ThroughLeaf v rest => leaf_contains (join_path rest) v
  end.
Proof.
  intros He. destruct (split_key_is_path key He) as [Hp Hj].
  unfold __contains__. rewrite <- Hj at 1 2. now apply contains_rec_resolve.
Qed.

(** ** NestedDict: assignment through a leaf *)

Lemma dict_getitem_setitem_same {A} (k : string) (v : A) (d : dict A) :
  dict_getitem k (dict_setitem k v d) = inr v.
Proof.
  induction d as [| [k' v'] d IH]; simpl.
  - now rewrite String.eqb_refl.
  - destruct (String.eqb k k') eqn:E; simpl; rewrite E; [reflexivity | exact IH].
Qed.

Lemma dict_contains_setitem_same {A} (k : string) (v : A) (d : dict A) :
  dict_contains k (dict_setitem k v d) = true.
Proof.
  apply dict_getitem_contains with (v := v). apply dict_getitem_setitem_same.
Qed.

Lemma dict_setitem_twice {A} (k : string) (v w : A) (d : dict A) :
  dict_setitem k w (dict_setitem k v d) = dict_setitem k w d.
Proof.
  induction d as [| [k' v'] d IH]; simpl.
  - now rewrite String.eqb_refl.
  - destruct (String.eqb k k') eqn:E; simpl; rewrite E; [reflexivity | now rewrite IH].
Qed.

(** Storing under a key the value it holds changes nothing. *)
Lemma dict_setitem_unchanged {A} (k : string) (v : A) (d : dict A) :
  dict_getitem k d = inr v -> dict_setitem k v d = d.
Proof.
  induction d as [| [k' v'] d IH]; simpl; [discriminate |].
  destruct (String.eqb_spec k k') as [-> | Hne].
  - intros H. injection H as ->. reflexivity.
  - intros H. now rewrite (IH H).
Qed.

Lemma ND_super {V} (d : NestedDict V) : ND (super d) = d.
Proof. destruct d; reflexivity. Qed.

Lemma set_path_cons {V} (leaf_setitem : V -> string -> Node V -> V * (PyExn + unit))
    (d : NestedDict V) (s s2 : string) (t : list string) (value : Node V) :
  set_path leaf_setitem d (s :: s2 :: t) value =
  let self1 :=
    if negb (dict_contains s (super d))
    then ND (dict_setitem s (Sub empty) (super d))
    else d in
  match dict_getitem s (super self1) with
  | inl e => (self1, inl e)
  | inr (Sub d') =>
      let (d'', r) := set_path leaf_setitem d' (s2 :: t) value in
      (ND (dict_setitem s (Sub d'') (super self1)), r)
  | inr (Leaf v) =>
      let (v', r) := leaf_setitem v (join_path (s2 :: t)) value in
      (ND (dict_setitem s (Leaf v') (super self1)), r)
  end.
Proof. reflexivity. Qed.

Lemma resolve_cons {V} (d : NestedDict V) (s s2 : string) (t : list string) :
  resolve d (s :: s2 :: t) =
  match dict_getitem s (super d) with
  | inl _ => Absent s
  | inr (Sub d') => resolve d' (s2 :: t)
  | inr (Leaf v) => ThroughLeaf v (s2 :: t)
  end.
Proof. reflexivity. Qed.

Lemma resolve_step {V} (d : NestedDict V) (s : string) (r : list string) :
  resolve d (s :: r) =
  match dict_getitem s (super d) with
  | inl _ => Absent s
  | inr n =>
      match r with
      | [] => Resolved n
      | _ :: _ => match n with
                  | Sub d' => resolve d' r
                  | Leaf v => ThroughLeaf v r
                  end
      end
  end.
Proof. reflexivity. Qed.


(** A path that holds a leaf: an assignment on a longer path hands the
    rest of the path to that leaf and stores the leaf as it is
    afterwards. *)
Lemma set_path_below_leaf {V : Type}
    (leaf_setitem : V -> string -> Node V -> V * (PyExn + unit)) (p : list string) :
  forall (d : NestedDict V) (v : V) (r : list string) (value : Node V),
    resolve d p = Resolved (Leaf v) ->
    r <> [] ->
    set_path leaf_setitem d (p ++ r) value =
    (fst (set_path leaf_setitem d p (Leaf (fst (leaf_setitem v (join_path r) value)))),
     snd (leaf_setitem v (join_path r) value)).
Proof.
  induction p as [| s p IH]; intros d v r value Hres Hr; [discriminate |].
  destruct p as [| s2 t].
  - cbn [resolve] in Hres.
    destruct (dict_getitem s (super d)) as [e | n] eqn:E; [discriminate |].
    injection Hres as ->.
    destruct r as [| r0 r]; [contradiction |].
    change ([s] ++ r0 :: r) with (s :: r0 :: r). rewrite set_path_cons. cbv zeta.
    rewrite (dict_getitem_contains _ _ _ E). cbn [negb]. rewrite E.
    destruct (leaf_setitem v (join_path (r0 :: r)) value) as [v' res]. reflexivity.
  - rewrite resolve_cons in Hres.
    destruct (dict_getitem s (super d)) as [e | [v0 | d']] eqn:E; try discriminate.
    change ((s :: s2 :: t) ++ r) with (s :: (s2 :: t) ++ r).
    change ((s2 :: t) ++ r) with (s2 :: (t ++ r)).
    rewrite !set_path_cons. cbv zeta.
    rewrite (dict_getitem_contains _ _ _ E). cbn [negb]. rewrite E.
    change (s2 :: t ++ r) with ((s2 :: t) ++ r).
    rewrite (IH d' v r value Hres Hr).
    destruct (set_path leaf_setitem d' (s2 :: t)
                (Leaf (fst (leaf_setitem v (join_path r) value)))) as [d'' res].
    reflexivity.
Qed.

(** Storing at a path the leaf it holds succeeds and changes nothing. *)
Lemma set_path_same_leaf {V : Type}
    (leaf_setitem : V -> string -> Node V -> V * (PyExn + unit)) (p : list string) :
  forall (d : NestedDict V) (v : V),
    resolve d p = Resolved (Leaf v) ->
    set_path leaf_setitem d p (Leaf v) = (d, inr tt).
Proof.
  induction p as [| s p IH]; intros d v Hres; [discriminate |].
  destruct p as [| s2 t].
  - cbn [resolve] in Hres.
    destruct (dict_getitem s (super d)) as [e | n] eqn:E; [discriminate |].
    injection Hres as ->. cbn [set_path].
    now rewrite (dict_setitem_unchanged _ _ _ E), ND_super.
  - rewrite resolve_cons in Hres.
    destruct (dict_getitem s (super d)) as [e | [v0 | d']] eqn:E; try discriminate.
    rewrite set_path_cons. cbv zeta.
    rewrite (dict_getitem_contains _ _ _ E). cbn [negb]. rewrite E.
    rewrite (IH d' v Hres).
    now rewrite (dict_setitem_unchanged _ _ _ E), ND_super.
Qed.



(** ** NestedDict: the three iterators *)

(** Induction over a NestedDict: over the items of each dict and into
    each sub-tree. *)
Lemma NestedDict_tree_ind {V : Type} (P : NestedDict V -> Prop) :
  P (ND []) ->
  (forall k v items, P (ND items) -> P (ND ((k, Leaf v) :: items))) ->
  (forall k d items, P d -> P (ND items) -> P (ND ((k, Sub d) :: items))) ->
  forall d, P d.
Proof.
  intros Hnil Hleaf Hsub.
  exact (fix tree (d : NestedDict V) : P d :=
           match d with
           | ND items =>
               (fix walk (items : dict (Node V)) : P (ND items) :=
                  match items with
                  | [] => Hnil
                  | (k, Leaf v) :: items' => Hleaf k v items' (walk items')
                  | (k, Sub d') :: items' => Hsub k d' items' (tree d') (walk items')
                  end) items
           end).
Qed.

Lemma keys_leaf {V} (k : string) (v : V) (items : dict (Node V)) :
  keys (ND ((k, Leaf v) :: items)) = k :: keys (ND items).
Proof. reflexivity. Qed.

Lemma keys_sub {V} (k : string) (d : NestedDict V) (items : dict (Node V)) :
  keys (ND ((k, Sub d) :: items)) = map (join_key k) (keys d) ++ keys (ND items).
Proof. reflexivity. Qed.

Lemma values_leaf {V} (k : string) (v : V) (items : dict (Node V)) :
  values (ND ((k, Leaf v) :: items)) = v :: values (ND items).
Proof. reflexivity. Qed.

Lemma values_sub {V} (k : string) (d : NestedDict V) (items : dict (Node V)) :
  values (ND ((k, Sub d) :: items)) = values d ++ values (ND items).
Proof. reflexivity. Qed.

Lemma items_leaf {V} (k : string) (v : V) (its : dict (Node V)) :
  items (ND ((k, Leaf v) :: its)) = (k, v) :: items (ND its).
Proof. reflexivity. Qed.

Lemma items_sub {V} (k : string) (d : NestedDict V) (its : dict (Node V)) :
  items (ND ((k, Sub d) :: its))
  = map (fun '(subkey, subval) => (join_key k subkey, subval)) (items d) ++ items (ND its).
Proof. reflexivity. Qed.



Lemma items_keys {V} (d : NestedDict V) : map fst (items d) = keys d.
Proof.
  induction d as [| k v its IH | k d its IHd IH] using NestedDict_tree_ind.
  - reflexivity.
  - rewrite items_leaf, keys_leaf. cbn [map fst]. now rewrite IH.
  - rewrite items_sub, keys_sub, map_app, IH. f_equal.
    rewrite <- IHd, !map_map. apply map_ext. now intros [subkey subval].
Qed.

Lemma items_values {V} (d : NestedDict V) : map snd (items d) = values d.
Proof.
  induction d as [| k v its IH | k d its IHd IH] using NestedDict_tree_ind.
  - reflexivity.
  - rewrite items_leaf, values_leaf. cbn [map snd]. now rewrite IH.
  - rewrite items_sub, values_sub, map_app, IH. f_equal.
    rewrite <- IHd, !map_map. apply map_ext. now intros [subkey subval].
Qed.




(** ** struct_as_dict *)

Section StructAsDictFacts.
Context {NpValue Converted : Type}.
Variable construct : NativeType -> NpValue -> PyExn + Converted.

(** Both sides run the same loop body: split on what it inspects, field
    after field, and close with the induction hypothesis. *)
Ltac same_loop_body IH :=
  repeat first
    [ reflexivity
    | apply IH
    | match goal with
      | |- context [match subscript ?t ?k with _ => _ end] => destruct (subscript t k)
      | |- context [match struct_as_dict ?c ?a ?t with _ => _ end] =>
          destruct (struct_as_dict c a t)
      | |- context [if origin_is_list ?t then _ else _] => destruct (origin_is_list t)
      | |- context [match apply_type _ _ ?c ?t ?x with _ => _ end] =>
          destruct (apply_type _ _ c t x)
      end ].

Lemma struct_as_dict_loop (fields : list (string * FieldVal NpValue))
    (types : Node TypeTemplate) :
  struct_as_dict construct (mkVoid fields) types = fields_loop construct types fields [].
Proof.
  cbn [struct_as_dict]. generalize (@nil (string * PyObj NpValue Converted)).
  induction fields as [| [k f] fields IH]; intros retval; [reflexivity |].
  cbn [fields_loop]. destruct f as [| sub | x]; same_loop_body IH.
Qed.

Lemma fields_loop_stops (types : Node TypeTemplate)
    (before after : list (string * FieldVal NpValue)) (k : string) :
  forall retval,
    fields_loop construct types (before ++ (k, MaskedConstant) :: after) retval
    = fields_loop construct types before retval.
Proof.
  induction before as [| [k' f] before IH]; intros retval; [reflexivity |].
  cbn [app fields_loop]. destruct f as [| sub | x]; same_loop_body IH.
Qed.

Lemma fields_loop_populated_prefix (types : Node TypeTemplate)
    (fields : list (string * FieldVal NpValue)) :
  forall retval,
    fields_loop construct types fields retval
    = fields_loop construct types (populated_prefix fields) retval.
Proof.
  induction fields as [| [k f] fields IH]; intros retval; [reflexivity |].
  cbn [populated_prefix]. destruct f as [| sub | x]; cbn [is_masked fields_loop];
    same_loop_body IH.
Qed.

Lemma dict_setitem_keys {A} (k : string) (v : A) (d : dict A) :
  incl (map fst (dict_setitem k v d)) (k :: map fst d).
Proof.
  induction d as [| [k' v'] d IH]; simpl.
  - intros x [<- | []]. now left.
  - destruct (String.eqb k k'); simpl.
    + intros x Hx. now right.
    + intros x [<- | Hx]; [right; now left |].
      destruct (IH x Hx) as [<- | H]; [now left | right; now right].
Qed.

Lemma fields_loop_keys (types : Node TypeTemplate)
    (fields : list (string * FieldVal NpValue)) :
  forall retval result,
    fields_loop construct types fields retval = inr result ->
    incl (map fst result) (map fst retval ++ map fst (populated_prefix fields)).
Proof.
  induction fields as [| [k f] fields IH]; intros retval result.
  - simpl. intros H. injection H as <-. rewrite app_nil_r. apply incl_refl.
  - assert (Hstep : forall (o : PyObj NpValue Converted),
              fields_loop construct types fields (dict_setitem k o retval) = inr result ->
              incl (map fst result)
                   (map fst retval ++ k :: map fst (populated_prefix fields))).
    { intros o H x Hx. apply IH in H. apply H in Hx. apply in_app_or in Hx.
      apply in_or_app. destruct Hx as [Hx | Hx].
      - apply dict_setitem_keys in Hx. destruct Hx as [<- | Hx]; [right; now left | now left].
      - right. now right. }
    cbn [populated_prefix fields_loop].
    destruct f as [| sub | x]; cbn [is_masked map fst].
    + intros H. injection H as <-. rewrite app_nil_r. apply incl_refl.
    + destruct (subscript types k); [discriminate |].
      destruct (struct_as_dict construct sub n); [discriminate | apply Hstep].
    + destruct (subscript types k); [discriminate |].
      destruct (origin_is_list n); [apply Hstep |].
      destruct (apply_type NpValue Converted construct n x); [discriminate | apply Hstep].
Qed.

Lemma dict_setitem_new_key {A} (k : string) (v : A) (d : dict A) :
  ~ In k (map fst d) -> map fst (dict_setitem k v d) = map fst d ++ [k].
Proof.
  induction d as [| [k' v'] d IH]; cbn; intros Hn; [reflexivity |].
  destruct (String.eqb_spec k k') as [-> | Hne]; [exfalso; apply Hn; now left |].
  cbn. f_equal. apply IH. intros H. apply Hn. now right.
Qed.

Lemma fields_loop_keys_exact (types : Node TypeTemplate)
    (fields : list (string * FieldVal NpValue)) :
  forall retval result,
    NoDup (map fst retval ++ map fst fields) ->
    fields_loop construct types fields retval = inr result ->
    map fst result = map fst retval ++ map fst (populated_prefix fields).
Proof.
  induction fields as [| [k f] fields IH]; intros retval result Hnd.
  - cbn. intros H. injection H as <-. now rewrite app_nil_r.
  - assert (Hk : ~ In k (map fst retval)).
    { cbn [map fst] in Hnd. apply NoDup_remove_2 in Hnd.
      intros H. apply Hnd. apply in_or_app. now left. }
    assert (Hstep : forall o : PyObj NpValue Converted,
              fields_loop construct types fields (dict_setitem k o retval) = inr result ->
              map fst result = map fst retval ++ k :: map fst (populated_prefix fields)).
    { intros o H. apply IH in H.
      - rewrite H, (dict_setitem_new_key k o retval Hk), <- app_assoc. reflexivity.
      - rewrite (dict_setitem_new_key k o retval Hk), <- app_assoc. exact Hnd. }
    cbn [populated_prefix fields_loop].
    destruct f as [| sub | x]; cbn [is_masked map fst].
    + intros H. injection H as <-. now rewrite app_nil_r.
    + destruct (subscript types k); [discriminate |].
      destruct (struct_as_dict construct sub n); [discriminate | apply Hstep].
    + destruct (subscript types k); [discriminate |].
      destruct (origin_is_list n); [apply Hstep |].
      destruct (apply_type NpValue Converted construct n x); [discriminate | apply Hstep].
Qed.

Lemma fields_loop_app (types : Node TypeTemplate)
    (before rest : list (string * FieldVal NpValue)) :
  forall retval,
    populated_prefix before = before ->
    fields_loop construct types (before ++ rest) retval =
    match fields_loop construct types before retval with
    | inr r => fields_loop construct types rest r
    | inl e => inl e
    end.
Proof.
  induction before as [| [k f] before IH]; intros retval Hall; [reflexivity |].
  cbn [populated_prefix] in Hall. destruct f as [| sub | x]; cbn [is_masked] in Hall;
    [discriminate | |]; injection Hall as Hall; cbn [app fields_loop].
  - destruct (subscript types k); [reflexivity |].
    destruct (struct_as_dict construct sub n); [reflexivity | now apply IH].
  - destruct (subscript types k); [reflexivity |].
    destruct (origin_is_list n); [now apply IH |].
    destruct (apply_type NpValue Converted construct n x); [reflexivity | now apply IH].
Qed.

Lemma fields_loop_convertible (types : Node TypeTemplate)
    (fields : list (string * FieldVal NpValue)) :
  Forall (convertible construct types) fields ->
  forall retval, exists result, fields_loop construct types fields retval = inr result.
Proof.
  induction 1 as [| [k f] fields [x [t [Hf [Ht Hc]]]] _ IH]; intros retval.
  - now exists retval.
  - cbn [fst snd] in Hf, Ht. subst f. cbn [fields_loop]. rewrite Ht.
    destruct Hc as [Hl | [v Hv]].
    + rewrite Hl. apply IH.
    + destruct (origin_is_list t); [apply IH |]. rewrite Hv. apply IH.
Qed.

(** C8, as amended: [struct_as_dict] visits the fields in declared
    order and returns the dict built so far at the first field [k] for
    which [array[k]] is the masked constant.  With the fields before
    [k] not the masked constant and their names distinct, as those of a
    dtype are: the result is the result for the fields before [k] alone,
    so the fields declared after [k] are left out, populated or not;
    when a dict is returned its keys are the names of the fields before
    [k], all of them, in declared order; and a dict is returned whenever
    each field before [k] is a value with a template entry that accepts
    it. *)
Theorem struct_as_dict_stops_at_first_masked
    (before after : list (string * FieldVal NpValue)) (k : string)
    (types : Node TypeTemplate) :
  populated_prefix before = before ->
  NoDup (map fst before) ->
  let array := mkVoid (before ++ (k, MaskedConstant) :: after) in
  struct_as_dict construct array types = struct_as_dict construct (mkVoid before) types
  /\ (forall result,
        struct_as_dict construct array types = inr result ->
        map fst result = map fst before)
  /\ (Forall (convertible construct types) before ->
      exists result, struct_as_dict construct array types = inr result).
Proof.
  intros Hall Hnd. cbv zeta. rewrite !struct_as_dict_loop, fields_loop_stops.
  split; [reflexivity |]. split.
  - intros result H.
    rewrite (fields_loop_keys_exact types before [] result Hnd H), Hall. reflexivity.
  - intros Hc. now apply fields_loop_convertible.
Qed.
End StructAsDictFacts.

(** The record of C8's example: [x] populated, [y] a masked scalar, [z]
    populated; the returned dict holds [x] alone. *)
Lemma struct_as_dict_stops_at_first_masked_witness :
  let record := [("x", ScalarField (NpInt 1) false); ("y", ScalarField (NpInt 2) true);
                 ("z", ScalarField (NpInt 3) false)] in
  let types := Sub (ND [("x", Leaf (Constructor py_int)); ("y", Leaf (Constructor py_int));
                        ("z", Leaf (Constructor py_int))]) in
  mvoid example_masked_array record
  = mkVoid ([("x", Plain (NpInt 1))] ++ ("y", MaskedConstant) :: [("z", Plain (NpInt 3))])
  /\ struct_as_dict example_construct (mvoid example_masked_array record) types
     = inr [("x", ObjConverted (py_int, NpInt 1))]
  /\ forall result,
       struct_as_dict example_construct (mvoid example_masked_array record) types
       = inr result ->
       map fst result = ["x"].
Proof.
  cbv zeta. split; [reflexivity |]. split; [reflexivity |].
  assert (Hnd : NoDup (map fst [("x", Plain (NpInt 1))])).
  { cbn. constructor; [intros [] | constructor]. }
  exact (proj1 (proj2 (struct_as_dict_stops_at_first_masked example_construct
                         [("x", Plain (NpInt 1))] [("z", Plain (NpInt 3))] "y"
                         (Sub (ND [("x", Leaf (Constructor py_int));
                                   ("y", Leaf (Constructor py_int));
                                   ("z", Leaf (Constructor py_int))]))
                         eq_refl Hnd))).
Defined.

(** C8, as stated, fails in both directions.  The sub-array field [v]
    is fully absent, yet [array["v"]] is a masked array and not the
    masked constant: the loop goes on and [z], declared after [v], is in
    the result.  The nested record [n] is absent in one component only,
    yet [array["n"]] is the masked constant: the loop stops there and
    [z] is left out although no field is fully absent. *)
Lemma struct_as_dict_does_not_stop_at_fully_masked :
  let types := Sub (ND [("x", Leaf (Constructor py_int)); ("v", Leaf (ListAlias py_int));
                        ("n", Sub (ND [("p", Leaf (Constructor py_int));
                                       ("q", Leaf (Constructor py_int))]));
                        ("z", Leaf (Constructor py_int))]) in
  let v := ArrayField (NpArray [7; 8]%Z) [true; true] in
  let n := RecordField [("p", ScalarField (NpInt 5) true);
                        ("q", ScalarField (NpInt 6) false)] in
  (fully_masked v = true
   /\ struct_as_dict example_construct
        (mvoid example_masked_array
           [("x", ScalarField (NpInt 1) false); ("v", v); ("z", ScalarField (NpInt 3) false)])
        types
      = inr [("x", ObjConverted (py_int, NpInt 1));
             ("v", ObjArray (NpMaskedArray [7; 8]%Z [true; true]));
             ("z", ObjConverted (py_int, NpInt 3))])
  /\ (fully_masked n = false
      /\ struct_as_dict example_construct
           (mvoid example_masked_array
              [("x", ScalarField (NpInt 1) false); ("n", n);
               ("z", ScalarField (NpInt 3) false)])
           types
         = inr [("x", ObjConverted (py_int, NpInt 1))]).
Proof. repeat split. Qed.

(** ** NestedDict: a run of assignments *)

(** *** First segments *)

Lemma dedup_In (l : list string) (x : string) : In x (dedup l) <-> In x l.
Proof.
  induction l as [| y l IH]; simpl; [tauto |].
  rewrite filter_In, IH, negb_true_iff, String.eqb_neq.
  destruct (string_dec y x) as [-> | Hne]; [tauto |].
  split; [tauto |]. intros [H | H]; [contradiction | right; split; congruence].
Qed.

Lemma dedup_NoDup (l : list string) : NoDup (dedup l).
Proof.
  induction l as [| y l IH]; simpl; constructor.
  - rewrite filter_In, String.eqb_refl. intros [_ H]. discriminate.
  - now apply NoDup_filter.
Qed.

Lemma dedup_snoc (l : list string) (x : string) :
  dedup (l ++ [x]) = if in_dec string_dec x l then dedup l else dedup l ++ [x].
Proof.
  induction l as [| y l IH]; [reflexivity |].
  cbn [app dedup]. rewrite IH.
  destruct (in_dec string_dec x l) as [Hin | Hn];
    destruct (in_dec string_dec x (y :: l)) as [Hin' | Hn']; try reflexivity.
  - exfalso. apply Hn'. now right.
  - destruct Hin' as [<- | Hin']; [| contradiction].
    rewrite filter_app. cbn [filter]. rewrite String.eqb_refl. cbn [negb].
    now rewrite app_nil_r.
  - rewrite filter_app. cbn [filter].
    destruct (String.eqb_spec x y) as [-> | Hne]; [exfalso; apply Hn'; now left |].
    reflexivity.
Qed.

(** *** Dicts listed by key *)

Section DictByKey.
Context {A : Type}.
Implicit Types (f g : string -> A) (hs : list string).

Lemma tabulate_getitem f hs (h : string) :
  In h hs -> dict_getitem h (tabulate f hs) = inr (f h).
Proof.
  induction hs as [| k hs IH]; simpl; [contradiction |].
  destruct (String.eqb_spec h k) as [-> | Hne]; [reflexivity |].
  intros [-> | H]; [contradiction | auto].
Qed.

Lemma tabulate_contains f hs (h : string) :
  In h hs -> dict_contains h (tabulate f hs) = true.
Proof.
  intros H. eapply dict_getitem_contains. now apply tabulate_getitem.
Qed.

Lemma tabulate_not_contains f hs (h : string) :
  ~ In h hs -> dict_contains h (tabulate f hs) = false.
Proof.
  induction hs as [| k hs IH]; simpl; [reflexivity |].
  intros H. destruct (String.eqb_spec h k) as [-> | Hne]; [exfalso; apply H; now left |].
  apply IH. intros Hin. apply H. now right.
Qed.

Lemma tabulate_setitem_new f g hs (h : string) (x : A) :
  ~ In h hs -> g h = x -> (forall k, In k hs -> g k = f k) ->
  dict_setitem h x (tabulate f hs) = tabulate g (hs ++ [h]).
Proof.
  induction hs as [| k hs IH]; simpl; intros Hn Hx Hf.
  - now rewrite Hx.
  - destruct (String.eqb_spec h k) as [-> | Hne]; [exfalso; apply Hn; now left |].
    rewrite (Hf k) by now left. f_equal.
    apply IH; [intros H; apply Hn; now right | exact Hx |].
    intros k' Hk'. apply Hf. now right.
Qed.

Lemma tabulate_setitem_old f g hs (h : string) (x : A) :
  NoDup hs -> In h hs -> g h = x -> (forall k, In k hs -> k <> h -> g k = f k) ->
  dict_setitem h x (tabulate f hs) = tabulate g hs.
Proof.
  induction hs as [| k hs IH]; simpl; intros Hnd Hin Hx Hf; [contradiction |].
  apply NoDup_cons_iff in Hnd. destruct Hnd as [Hk Hnd'].
  destruct (String.eqb_spec h k) as [-> | Hne].
  - rewrite Hx. f_equal. apply map_ext_in. intros k' Hk'.
    rewrite Hf; [reflexivity | now right | intros ->; contradiction].
  - destruct Hin as [-> | Hin]; [contradiction |].
    rewrite (Hf k) by (auto; congruence). f_equal.
    apply IH; auto.
Qed.
End DictByKey.

(** *** Assignments grouped by first segment *)

Section Grouping.
Context {A : Type}.
Implicit Types (ops : assignments A) (h : string) (p t : list string) (v : A).

Lemma under_app h ops ops' : under h (ops ++ ops') = under h ops ++ under h ops'.
Proof.
  induction ops as [| [p v] ops IH]; [reflexivity |].
  cbn [app under]. destruct p as [| s t]; [exact IH |].
  destruct (String.eqb s h); [cbn [app]; now rewrite IH | exact IH].
Qed.

Lemma under_In h ops t v : In (t, v) (under h ops) <-> In (h :: t, v) ops.
Proof.
  induction ops as [| [p w] ops IH]; [simpl; tauto |].
  cbn [under]. destruct p as [| s q].
  - rewrite IH. simpl. split; [tauto |]. intros [H | H]; [discriminate | exact H].
  - destruct (String.eqb_spec s h) as [-> | Hne].
    + simpl. rewrite IH. split; (intros [H | H]; [left; congruence | now right]).
    + rewrite IH. simpl. split; [tauto |]. intros [H | H]; [congruence | exact H].
Qed.

Lemma under_paths_In h ops t :
  In t (map fst (under h ops)) <-> In (h :: t) (map fst ops).
Proof.
  rewrite !in_map_iff. split.
  - intros [[t' v] [<- H]]. apply under_In in H. now exists (h :: t', v).
  - intros [[p v] [E H]]. simpl in E. subst p. apply under_In in H. now exists (t, v).
Qed.

Lemma under_snoc_same h ops t v :
  under h (ops ++ [(h :: t, v)]) = under h ops ++ [(t, v)].
Proof. rewrite under_app. cbn [under]. now rewrite String.eqb_refl. Qed.

Lemma under_snoc_other h k ops t v :
  k <> h -> under k (ops ++ [(h :: t, v)]) = under k ops.
Proof.
  intros Hne. rewrite under_app. cbn [under].
  destruct (String.eqb_spec h k) as [-> | _]; [contradiction | apply app_nil_r].
Qed.

Lemma heads_In h ops :
  In h (heads ops) <-> exists p, In p (map fst ops) /\ first_segment p = h.
Proof.
  unfold heads. rewrite dedup_In, in_map_iff. split.
  - intros [[p v] [E H]]. exists p. split; [| exact E].
    apply in_map_iff. now exists (p, v).
  - intros [p [H E]]. apply in_map_iff in H. destruct H as [[p' v] [<- H]].
    now exists (p', v).
Qed.

Lemma heads_NoDup ops : NoDup (heads ops).
Proof. apply dedup_NoDup. Qed.

Lemma heads_snoc_old ops p v :
  In (first_segment p) (heads ops) -> heads (ops ++ [(p, v)]) = heads ops.
Proof.
  intros H. unfold heads in *. rewrite map_app. cbn [map fst]. rewrite dedup_snoc.
  destruct (in_dec string_dec _ _) as [_ | Hn]; [reflexivity |].
  exfalso. apply Hn. now apply dedup_In.
Qed.

Lemma heads_snoc_new ops p v :
  ~ In (first_segment p) (heads ops) ->
  heads (ops ++ [(p, v)]) = heads ops ++ [first_segment p].
Proof.
  intros H. unfold heads in *. rewrite map_app. cbn [map fst]. rewrite dedup_snoc.
  destruct (in_dec string_dec _ _) as [Hin | _]; [| reflexivity].
  exfalso. apply H. now apply dedup_In.
Qed.

Lemma under_not_head h ops : ~ In h (heads ops) -> under h ops = [].
Proof.
  intros Hn. destruct (under h ops) as [| [t v] l] eqn:E; [reflexivity |].
  exfalso. apply Hn. apply heads_In. exists (h :: t). split; [| reflexivity].
  apply under_paths_In. rewrite E. now left.
Qed.

Lemma last_here_snoc_empty ops v : last_here (ops ++ [([], v)]) = Some v.
Proof.
  induction ops as [| [p w] ops IH]; [reflexivity |].
  cbn [app last_here]. now rewrite IH.
Qed.

Lemma last_here_snoc_deeper ops s t v :
  last_here (ops ++ [(s :: t, v)]) = last_here ops.
Proof.
  induction ops as [| [p w] ops IH]; [reflexivity |].
  cbn [app last_here]. now rewrite IH.
Qed.

Lemma last_here_None ops : last_here ops = None <-> ~ In [] (map fst ops).
Proof.
  induction ops as [| [p w] ops IH]; [simpl; tauto |].
  cbn [last_here map fst]. destruct (last_here ops) as [v' |].
  - split; [discriminate |]. intros H. exfalso.
    assert (Hn : ~ In [] (map fst ops)) by (intros Hin; apply H; now right).
    apply IH in Hn. discriminate.
  - destruct p as [| s t].
    + split; [discriminate |]. intros H. exfalso. apply H. now left.
    + split; [| reflexivity]. intros _ [H | H]; [discriminate |].
      now apply (proj1 IH eq_refl).
Qed.

Lemma prefix_free_app_l ops ops' : prefix_free (ops ++ ops') -> prefix_free ops.
Proof.
  intros H p q Hp Hq. apply H; rewrite map_app; apply in_or_app; now left.
Qed.

Lemma prefix_free_under h ops : prefix_free ops -> prefix_free (under h ops).
Proof.
  intros H p q Hp Hq [r [Hr E]]. apply under_paths_In in Hp, Hq.
  apply (H _ _ Hp Hq). exists r. split; [exact Hr |]. now rewrite E.
Qed.

Lemma prefix_free_no_leaf_above h t ops :
  prefix_free ops -> t <> [] -> In (h :: t) (map fst ops) ->
  last_here (under h ops) = None.
Proof.
  intros Hpf Ht Hin. apply last_here_None. intros Hempty.
  apply under_paths_In in Hempty. apply (Hpf _ _ Hempty Hin). now exists t.
Qed.

Lemma prefix_free_nonempty ops p :
  prefix_free ops -> p <> [] -> In p (map fst ops) -> ~ In [] (map fst ops).
Proof.
  intros Hpf Hp Hin Hempty. apply (Hpf _ _ Hempty Hin). now exists p.
Qed.

Lemma bounded_under n h ops : bounded (S n) ops -> bounded n (under h ops).
Proof.
  unfold bounded. rewrite !Forall_forall. intros H [t v] Hin.
  apply under_In in Hin. apply H in Hin. simpl in *. lia.
Qed.

Lemma bounded_app_l n ops ops' : bounded n (ops ++ ops') -> bounded n ops.
Proof. unfold bounded. intros H. now apply Forall_app in H. Qed.

Lemma build_S n ops : build (S n) ops = ND (tabulate (subtree n ops) (heads ops)).
Proof. reflexivity. Qed.

Lemma build_nil n : build n (@nil (list string * A)) = empty.
Proof. destruct n; reflexivity. Qed.

Lemma subtree_snoc_other n ops h k t v :
  k <> h -> subtree n (ops ++ [(h :: t, v)]) k = subtree n ops k.
Proof. intros Hne. unfold subtree. now rewrite under_snoc_other. Qed.
End Grouping.

(** *** One assignment on the tree of a run *)

Section RunOfAssignments.
Context {V : Type}.
Variable leaf_setitem : V -> string -> Node V -> V * (PyExn + unit).
Implicit Types (ops : assignments V) (h : string) (p t : list string) (v : V).

Lemma set_path_build (n : nat) :
  forall ops p v,
    p <> [] ->
    prefix_free (ops ++ [(p, v)]) ->
    bounded n (ops ++ [(p, v)]) ->
    set_path leaf_setitem (build n ops) p (Leaf v) = (build n (ops ++ [(p, v)]), inr tt).
Proof.
  induction n as [| n IH]; intros ops p v Hp Hpf Hb.
  - exfalso. apply Forall_app in Hb. destruct Hb as [_ Hb].
    inversion Hb as [| ? ? Hlen _]; subst. destruct p; [contradiction | simpl in Hlen; lia].
  - destruct p as [| h t]; [contradiction |]. clear Hp.
    assert (Hother : forall k, In k (heads ops) -> k <> h ->
              subtree n (ops ++ [(h :: t, v)]) k = subtree n ops k)
      by (intros k _ Hk; now apply subtree_snoc_other).
    rewrite !build_S. destruct t as [| t1 t2].
    + (* the last segment: the leaf is stored *)
      cbn [set_path super]. f_equal. f_equal.
      assert (Hleaf : subtree n (ops ++ [([h], v)]) h = Leaf v)
        by (unfold subtree; now rewrite under_snoc_same, last_here_snoc_empty).
      destruct (in_dec string_dec h (heads ops)) as [Hin | Hn].
      * rewrite (heads_snoc_old ops [h] v Hin).
        apply tabulate_setitem_old; auto using heads_NoDup.
      * rewrite (heads_snoc_new ops [h] v Hn).
        apply tabulate_setitem_new; auto.
        intros k Hk. apply Hother; [exact Hk | intros ->; contradiction].
    + (* a segment before the last: descend, creating the sub-tree if needed *)
      set (t := t1 :: t2) in *.
      assert (Ht : t <> []) by discriminate.
      assert (Hpf' : prefix_free (under h ops ++ [(t, v)]))
        by (rewrite <- under_snoc_same; now apply prefix_free_under).
      assert (Hb' : bounded n (under h ops ++ [(t, v)]))
        by (rewrite <- under_snoc_same; now apply bounded_under).
      assert (Hnone : last_here (under h ops) = None).
      { apply last_here_None. intros Hempty. apply under_paths_In in Hempty.
        apply (Hpf [h] (h :: t)).
        - rewrite map_app. apply in_or_app. now left.
        - rewrite map_app. apply in_or_app. right. now left.
        - now exists t. }
      assert (Hsub : subtree n (ops ++ [(h :: t, v)]) h
                     = Sub (build n (under h ops ++ [(t, v)]))).
      { unfold subtree. rewrite under_snoc_same. subst t.
        now rewrite last_here_snoc_deeper, Hnone. }
      subst t. rewrite set_path_cons. cbv zeta. cbn [super].
      destruct (in_dec string_dec h (heads ops)) as [Hin | Hn].
      * rewrite (tabulate_contains _ _ _ Hin). cbn [negb super].
        rewrite (tabulate_getitem _ _ _ Hin). unfold subtree at 1. rewrite Hnone.
        rewrite (IH _ _ _ Ht Hpf' Hb'). f_equal. f_equal.
        rewrite (heads_snoc_old ops (h :: t1 :: t2) v Hin).
        apply tabulate_setitem_old; auto using heads_NoDup.
      * rewrite (tabulate_not_contains _ _ _ Hn). cbn [negb super].
        rewrite dict_getitem_setitem_same.
        rewrite (under_not_head h ops Hn) in *.
        rewrite <- (build_nil n), (IH _ _ _ Ht Hpf' Hb'), dict_setitem_twice.
        f_equal. f_equal.
        rewrite (heads_snoc_new ops (h :: t1 :: t2) v Hn).
        apply tabulate_setitem_new; auto.
        intros k Hk. apply Hother; [exact Hk | intros ->; contradiction].
Qed.

Lemma run_sets_app (d : NestedDict V) (l l' : list (string * Node V)) :
  run_sets leaf_setitem d (l ++ l') =
  match run_sets leaf_setitem d l with
  | (d', inr _) => run_sets leaf_setitem d' l'
  | (d', inl e) => (d', inl e)
  end.
Proof.
  revert d. induction l as [| [key value] l IH]; intros d; [reflexivity |].
  cbn [app run_sets].
  destruct (__setitem__ leaf_setitem d key value) as [d' [e | u]]; [reflexivity |].
  apply IH.
Qed.

Lemma run_sets_build (n : nat) (ops : assignments V) :
  Forall (fun o => is_path (fst o) = true) ops ->
  prefix_free ops ->
  bounded n ops ->
  run_sets leaf_setitem empty (statements ops) = (build n ops, inr tt).
Proof.
  induction ops as [| [p v] ops IH] using rev_ind; intros Hpaths Hpf Hb.
  - cbn. now rewrite build_nil.
  - apply Forall_app in Hpaths. destruct Hpaths as [Hpaths Hp].
    inversion Hp as [| ? ? Hp' _]; subst. cbn [fst] in Hp'.
    unfold statements. rewrite map_app, run_sets_app.
    fold (statements ops).
    rewrite (IH Hpaths (prefix_free_app_l _ _ Hpf) (bounded_app_l _ _ _ Hb)).
    cbn [map run_sets]. unfold __setitem__.
    rewrite setitem_rec_set_path by (auto; lia).
    rewrite set_path_build; auto. intros ->. discriminate.
Qed.
End RunOfAssignments.

(** *** Reading the tree of a run *)

Section TreeOfRun.
Context {V : Type}.
Implicit Types (ops : assignments V) (h : string) (p t : list string) (v : V).

Lemma items_tabulate (f : string -> Node V) (hs : list string) :
  items (ND (tabulate f hs)) =
  flat_map (fun k =>
              match f k with
              | Leaf v => [(k, v)]
              | Sub d => map (fun '(subkey, subval) => (join_key k subkey, subval)) (items d)
              end) hs.
Proof.
  induction hs as [| k hs IH]; [reflexivity |].
  cbn [tabulate map flat_map]. fold (tabulate f hs). destruct (f k) as [v | d].
  - rewrite items_leaf, IH. reflexivity.
  - rewrite items_sub, IH. reflexivity.
Qed.

Lemma tree_items_nonempty (n : nat) ops p v :
  In (p, v) (tree_items n ops) -> p <> [].
Proof.
  destruct n as [| n]; [intros [] |].
  cbn [tree_items]. rewrite in_flat_map. intros [h [_ H]].
  destruct (last_here (under h ops)).
  - destruct H as [H | []]. injection H as <- _. discriminate.
  - apply in_map_iff in H. destruct H as [[q w] [H _]]. injection H as <- _. discriminate.
Qed.

Lemma join_path_cons h p : p <> [] -> join_path (h :: p) = join_key h (join_path p).
Proof. destruct p; [contradiction | reflexivity]. Qed.

Lemma items_build (n : nat) :
  forall ops,
    items (build n ops) = map (fun '(p, v) => (join_path p, v)) (tree_items n ops).
Proof.
  induction n as [| n IH]; intros ops; [reflexivity |].
  rewrite build_S, items_tabulate. cbn [tree_items].
  induction (heads ops) as [| h hs IHhs]; [reflexivity |].
  cbn [flat_map]. rewrite map_app, <- IHhs. f_equal.
  unfold subtree. destruct (last_here (under h ops)) as [v |]; [reflexivity |].
  rewrite IH, !map_map. apply map_ext_in. intros [p v] Hin.
  apply tree_items_nonempty in Hin. now rewrite join_path_cons.
Qed.

Lemma resolve_build_head (n : nat) ops h :
  In h (heads ops) ->
  dict_getitem h (super (build (S n) ops)) = inr (subtree n ops h).
Proof. intros H. rewrite build_S. cbn [super]. now apply tabulate_getitem. Qed.

Lemma path_head_In ops h t : In (h :: t) (map fst ops) -> In h (heads ops).
Proof. intros H. apply heads_In. now exists (h :: t). Qed.

(** The path last assigned [v] resolves to the leaf [v]. *)
Lemma resolve_build_leaf (n : nat) :
  forall ops before p v after,
    ops = before ++ (p, v) :: after ->
    ~ In p (map fst after) ->
    p <> [] ->
    prefix_free ops ->
    bounded n ops ->
    resolve (build n ops) p = Resolved (Leaf v).
Proof.
  induction n as [| n IH]; intros ops before p v after E Hlast Hp Hpf Hb.
  - exfalso. subst ops. apply Forall_app in Hb. destruct Hb as [_ Hb].
    inversion Hb as [| ? ? Hlen _]; subst. destruct p; [contradiction | simpl in Hlen; lia].
  - destruct p as [| h t]; [contradiction |]. clear Hp.
    assert (Hin : In (h :: t) (map fst ops)).
    { subst ops. rewrite map_app. apply in_or_app. right. now left. }
    assert (Hunder : under h ops = under h before ++ (t, v) :: under h after).
    { subst ops. rewrite under_app. cbn [under]. now rewrite String.eqb_refl. }
    destruct t as [| t1 t2].
    + cbn [resolve]. rewrite (resolve_build_head n ops h (path_head_In _ _ _ Hin)).
      unfold subtree. rewrite Hunder.
      assert (Hafter : under h after = []).
      { destruct (under h after) as [| [t' v'] l] eqn:Ea; [reflexivity |]. exfalso.
        assert (Hin' : In (h :: t') (map fst after))
          by (apply under_paths_In; rewrite Ea; now left).
        destruct t' as [| s t']; [contradiction |].
        apply (Hpf [h] (h :: s :: t') Hin).
        - subst ops. rewrite map_app. apply in_or_app. right. now right.
        - exists (s :: t'). split; [discriminate | reflexivity]. }
      rewrite Hafter, last_here_snoc_empty. reflexivity.
    + rewrite resolve_cons, (resolve_build_head n ops h (path_head_In _ _ _ Hin)).
      unfold subtree.
      rewrite (prefix_free_no_leaf_above h (t1 :: t2) ops Hpf ltac:(discriminate) Hin).
      apply (IH _ _ _ _ _ Hunder).
      * intros H. apply Hlast. now apply under_paths_In.
      * discriminate.
      * now apply prefix_free_under.
      * now apply bounded_under.
Qed.

(** Every proper prefix of an assigned path resolves to a sub-tree. *)
Lemma resolve_build_prefix (n : nat) :
  forall ops pre r,
    pre <> [] -> r <> [] ->
    In (pre ++ r) (map fst ops) ->
    prefix_free ops ->
    bounded n ops ->
    exists sub, resolve (build n ops) pre = Resolved (Sub sub).
Proof.
  induction n as [| n IH]; intros ops pre r Hpre Hr Hin Hpf Hb.
  - exfalso. unfold bounded in Hb. rewrite Forall_forall in Hb.
    apply in_map_iff in Hin. destruct Hin as [[q w] [Eq Hin]]. apply Hb in Hin.
    simpl in Eq, Hin. subst q. destruct pre; [contradiction | simpl in Hin; lia].
  - destruct pre as [| h t]; [contradiction |]. clear Hpre.
    change ((h :: t) ++ r) with (h :: (t ++ r)) in Hin.
    assert (Hnone : last_here (under h ops) = None).
    { apply (prefix_free_no_leaf_above h (t ++ r) ops Hpf); [| exact Hin].
      intros E. apply app_eq_nil in E. destruct E as [_ E]. contradiction. }
    destruct t as [| t1 t2].
    + cbn [resolve]. rewrite (resolve_build_head n ops h (path_head_In _ _ _ Hin)).
      unfold subtree. rewrite Hnone. eexists. reflexivity.
    + rewrite resolve_cons, (resolve_build_head n ops h (path_head_In _ _ _ Hin)).
      unfold subtree. rewrite Hnone.
      apply (IH (under h ops) (t1 :: t2) r); auto.
      * discriminate.
      * now apply under_paths_In.
      * now apply prefix_free_under.
      * now apply bounded_under.
Qed.
End TreeOfRun.

(** *** The order of the tree walk *)

Section TreeOrderFacts.
Context {A : Type}.
Implicit Types (ops : assignments A) (h : string) (p t : list string) (v : A).

Lemma map_flat_map {X Y Z} (f : Y -> Z) (g : X -> list Y) (l : list X) :
  map f (flat_map g l) = flat_map (fun x => map f (g x)) l.
Proof.
  induction l as [| x l IH]; [reflexivity |]. cbn [flat_map]. now rewrite map_app, IH.
Qed.

Lemma tree_paths_S (n : nat) ops :
  map fst (tree_items (S n) ops) =
  flat_map (fun h =>
              match last_here (under h ops) with
              | Some _ => [[h]]
              | None => map (cons h) (map fst (tree_items n (under h ops)))
              end) (heads ops).
Proof.
  cbn [tree_items]. rewrite map_flat_map. apply flat_map_ext. intros h.
  destruct (last_here (under h ops)); [reflexivity |].
  rewrite !map_map. apply map_ext. now intros [p v].
Qed.

Lemma tree_paths_In (n : nat) :
  forall ops p,
    prefix_free ops -> bounded n ops -> ~ In [] (map fst ops) ->
    (In p (map fst (tree_items n ops)) <-> In p (map fst ops)).
Proof.
  induction n as [| n IH]; intros ops p Hpf Hb Hne.
  - split; [intros [] |]. intros Hin. exfalso.
    unfold bounded in Hb. rewrite Forall_forall in Hb.
    apply in_map_iff in Hin. destruct Hin as [[q w] [Eq Hin]].
    pose proof (Hb _ Hin) as Hlen. simpl in Eq, Hlen. subst q.
    destruct p; [| simpl in Hlen; lia].
    apply Hne. apply in_map_iff. now exists ([], w).
  - rewrite tree_paths_S, in_flat_map. split.
    + intros [h [Hh Hin]]. destruct (last_here (under h ops)) as [w |] eqn:E.
      * destruct Hin as [<- | []]. apply under_paths_In.
        destruct (in_dec (list_eq_dec string_dec) [] (map fst (under h ops))) as [H | H];
          [exact H |].
        apply last_here_None in H. congruence.
      * apply in_map_iff in Hin. destruct Hin as [t [<- Hin]].
        apply under_paths_In. apply (IH (under h ops)); auto.
        -- now apply prefix_free_under.
        -- now apply bounded_under.
        -- now apply last_here_None.
    + intros Hin. destruct p as [| h t]; [contradiction |].
      exists h. split; [now apply path_head_In with (t := t) |].
      destruct (last_here (under h ops)) as [w |] eqn:E.
      * destruct t as [| s t]; [now left |]. exfalso.
        rewrite (prefix_free_no_leaf_above h (s :: t) ops Hpf) in E; [discriminate | | exact Hin].
        discriminate.
      * apply in_map. apply (IH (under h ops)).
        -- now apply prefix_free_under.
        -- now apply bounded_under.
        -- now apply last_here_None.
        -- now apply under_paths_In.
Qed.

Lemma NoDup_flat_map_by_head (g : string -> list (list string)) (hs : list string) :
  NoDup hs ->
  (forall h, NoDup (g h)) ->
  (forall h p, In p (g h) -> first_segment p = h) ->
  NoDup (flat_map g hs).
Proof.
  intros Hnd Hg Hfirst. induction hs as [| h hs IH]; [constructor |].
  apply NoDup_cons_iff in Hnd. destruct Hnd as [Hh Hnd].
  cbn [flat_map]. apply NoDup_app; auto.
  intros p Hp Hp'. apply in_flat_map in Hp'. destruct Hp' as [k [Hk Hp']].
  apply Hfirst in Hp, Hp'. apply Hh. congruence.
Qed.

Lemma NoDup_map_cons (h : string) (l : list (list string)) :
  NoDup l -> NoDup (map (cons h) l).
Proof.
  induction 1 as [| x l Hx Hnd IH]; cbn [map]; constructor; [| exact IH].
  rewrite in_map_iff. intros [y [E Hy]]. injection E as ->. contradiction.
Qed.

Lemma tree_paths_NoDup (n : nat) : forall ops, NoDup (map fst (tree_items n ops)).
Proof.
  induction n as [| n IH]; intros ops; [constructor |].
  rewrite tree_paths_S. apply NoDup_flat_map_by_head.
  - apply heads_NoDup.
  - intros h. destruct (last_here (under h ops)).
    + constructor; [intros [] | constructor].
    + apply NoDup_map_cons, IH.
  - intros h p Hp. destruct (last_here (under h ops)).
    + destruct Hp as [<- | []]. reflexivity.
    + apply in_map_iff in Hp. destruct Hp as [t [<- _]]. reflexivity.
Qed.

(** Assigning again to a path already assigned leaves the order as it is. *)
Lemma tree_paths_overwrite (n : nat) :
  forall ops p v,
    In p (map fst ops) ->
    map fst (tree_items n (ops ++ [(p, v)])) = map fst (tree_items n ops).
Proof.
  induction n as [| n IH]; intros ops p v Hin; [reflexivity |].
  rewrite !tree_paths_S.
  rewrite heads_snoc_old by (apply heads_In; now exists p).
  apply flat_map_ext. intros k. destruct p as [| h t].
  - rewrite under_app. cbn [under]. now rewrite app_nil_r.
  - destruct (string_dec k h) as [-> | Hne]; [| now rewrite under_snoc_other].
    rewrite under_snoc_same. destruct t as [| s t].
    + rewrite last_here_snoc_empty.
      destruct (last_here (under h ops)) eqn:E; [reflexivity |].
      exfalso. apply last_here_None in E. apply E. now apply under_paths_In.
    + rewrite last_here_snoc_deeper.
      destruct (last_here (under h ops)); [reflexivity |].
      f_equal. apply IH. now apply under_paths_In.
Qed.

Lemma path_depth_bounded ops : bounded (path_depth ops) ops.
Proof.
  unfold bounded, path_depth.
  assert (H : Forall (fun k => k <= list_max (map (fun o => length (fst o)) ops))
                (map (fun o => length (fst o)) ops))
    by (apply list_max_le; lia).
  rewrite Forall_forall in *. intros o Ho. apply H.
  exact (in_map (fun o => length (fst o)) ops o Ho).
Qed.

Lemma path_depth_overwrite ops p v :
  In p (map fst ops) -> path_depth (ops ++ [(p, v)]) = path_depth ops.
Proof.
  intros Hin. unfold path_depth. rewrite map_app, list_max_app.
  change (list_max (map (fun o => length (fst o)) [(p, v)])) with (Nat.max (length p) 0).
  apply in_map_iff in Hin. destruct Hin as [[q w] [E Hin]]. cbn [fst] in E. subst q.
  pose proof (path_depth_bounded ops) as Hb. unfold bounded in Hb.
  rewrite Forall_forall in Hb. apply Hb in Hin. unfold path_depth in Hin.
  cbn [fst] in Hin. lia.
Qed.
End TreeOrderFacts.

(** *** The run as a whole *)

(** C5, as amended: take a run of [set(path_i, value_i)] on an empty
    NestedDict in which every path is a sequence of segments without
    separator that does not end in a separator, and no path is a proper
    prefix of another (a path may occur again: an overwrite).  Then every
    [set] succeeds; [get(path)] returns the value last assigned to the
    path; every proper prefix of an assigned path resolves to a sub-tree,
    created on demand; and [keys()] yields each distinct path exactly
    once, in the order of the tree walk: the first segments in the order
    in which they were first assigned and, below each first segment,
    recursively the same.  Assigning again to a path already assigned
    does not change the order. *)
Theorem run_of_assignments_builds_tree {V : Type}
    (leaf_getitem : V -> string -> PyExn + Node V)
    (leaf_setitem : V -> string -> Node V -> V * (PyExn + unit))
    (ops : assignments V) :
  Forall (fun o => is_path (fst o) = true) ops ->
  prefix_free ops ->
  exists d,
    run_sets leaf_setitem empty (statements ops) = (d, inr tt)
    /\ (forall before p v after,
          ops = before ++ (p, v) :: after -> ~ In p (map fst after) ->
          __getitem__ leaf_getitem d (join_path p) = inr (Leaf v))
    /\ (forall pre r,
          pre <> [] -> r <> [] -> In (pre ++ r) (map fst ops) ->
          exists sub, resolve d pre = Resolved (Sub sub))
    /\ keys d = map join_path (tree_order ops)
    /\ NoDup (tree_order ops)
    /\ (forall p, In p (tree_order ops) <-> In p (map fst ops))
    /\ (forall p v, In p (map fst ops) -> tree_order (ops ++ [(p, v)]) = tree_order ops).
Proof.
  intros Hpaths Hpf.
  pose proof (path_depth_bounded ops) as Hb.
  assert (Hne : ~ In [] (map fst ops)).
  { intros Hin. apply in_map_iff in Hin. destruct Hin as [[q w] [E Hin]].
    rewrite Forall_forall in Hpaths. apply Hpaths in Hin. simpl in E. subst q.
    discriminate. }
  exists (build (path_depth ops) ops).
  split; [now apply run_sets_build |].
  split; [| split; [| split; [| split; [| split]]]].
  - intros before p v after E Hlast.
    assert (Hp : is_path p = true).
    { rewrite Forall_forall in Hpaths. apply (Hpaths (p, v)).
      rewrite E. apply in_or_app. right. now left. }
    unfold __getitem__. rewrite getitem_rec_resolve by (auto; lia).
    rewrite (resolve_build_leaf _ ops before p v after); auto.
    intros ->. discriminate.
  - intros pre r Hpre Hr Hin. now apply resolve_build_prefix with (r := r).
  - rewrite <- items_keys, items_build. unfold tree_order. rewrite !map_map.
    apply map_ext. now intros [p v].
  - apply tree_paths_NoDup.
  - intros p. now apply tree_paths_In.
  - intros p v Hin. unfold tree_order.
    rewrite (path_depth_overwrite ops p v Hin). now apply tree_paths_overwrite.
Qed.

Lemma run_of_assignments_builds_tree_witness :
  let ops := [(["a"; "b"], 1%Z); (["c"], 2%Z); (["a"; "d"], 3%Z); (["a"; "b"], 4%Z)] in
  Forall (fun o => is_path (fst o) = true) ops
  /\ prefix_free ops
  /\ exists d,
       run_sets no_setitem empty [("a/b", Leaf 1%Z); ("c", Leaf 2%Z); ("a/d", Leaf 3%Z);
                                  ("a/b", Leaf 4%Z)] = (d, inr tt)
       /\ __getitem__ no_getitem d "a/b" = inr (Leaf 4%Z)
       /\ keys d = ["a/b"; "a/d"; "c"].
Proof.
  cbv zeta.
  assert (H1 : Forall (fun o : list string * Z => is_path (fst o) = true)
                 [(["a"; "b"], 1%Z); (["c"], 2%Z); (["a"; "d"], 3%Z); (["a"; "b"], 4%Z)])
    by (repeat constructor).
  assert (H2 : prefix_free
                 [(["a"; "b"], 1%Z); (["c"], 2%Z); (["a"; "d"], 3%Z); (["a"; "b"], 4%Z)]).
  { intros p q Hp Hq [r [Hr E]]. simpl in Hp, Hq.
    repeat (destruct Hp as [<- | Hp]; [
      repeat (destruct Hq as [<- | Hq]; [
        try discriminate; injection E as <-; now apply Hr |]); destruct Hq |]).
    destruct Hp. }
  split; [exact H1 |]. split; [exact H2 |].
  destruct (run_of_assignments_builds_tree no_getitem no_setitem _ H1 H2)
    as [d [Hrun [Hget [_ [Hkeys _]]]]].
  exists d. split; [exact Hrun |]. split; [| exact Hkeys].
  apply (Hget [(["a"; "b"], 1%Z); (["c"], 2%Z); (["a"; "d"], 3%Z)] ["a"; "b"] 4%Z []
           eq_refl).
  intros [].
Defined.

(** C5, as stated, fails.  With the distinct paths [a/b], [c], [a/d]
    set in this order, [keys()] yields [a/b], [a/d], [c]: the order of
    the tree walk, not the order of first assignment.  With the distinct
    paths [a] and [a/b], the second [set] raises [TypeError] and [a/b] is
    never stored. *)
Lemma keys_are_not_in_first_set_order :
  (exists d,
      run_sets no_setitem empty [("a/b", Leaf 1%Z); ("c", Leaf 2%Z); ("a/d", Leaf 3%Z)]
      = (d, inr tt)
      /\ keys d = ["a/b"; "a/d"; "c"]
      /\ keys d <> ["a/b"; "c"; "a/d"])
  /\ run_sets no_setitem empty [("a", Leaf 1%Z); ("a/b", Leaf 2%Z)]
     = (ND [("a", Leaf 1%Z)], inl TypeError).
Proof.
  split; [| reflexivity].
  eexists. split; [reflexivity |]. split; [reflexivity | discriminate].
Qed.

(** * Further properties *)

(** ** First and Choice *)

Lemma warnings_bind_ret {A B} (m : M A) (f : A -> B) :
  warnings (x <- m ;; ret (f x)) = warnings m.
Proof.
  destruct m as [w [e | a]]; [reflexivity |]. cbn. apply app_nil_r.
Qed.

Lemma warnings_try_except {A} (body handler : M A) :
  warnings (try_except_YAMLValidationError body handler) =
  if rejects body then warnings body ++ warnings handler else warnings body.
Proof.
  unfold rejects. destruct body as [w [[k | | | | c p ch] | a]]; cbn; try reflexivity.
  destruct handler; reflexivity.
Qed.

(** [First] logs the warnings of every sub-rule it tries, in order,
    also of the sub-rules it gives up on: a failed branch that has
    logged a deprecation warning leaves that warning in the log. *)
Theorem First_keeps_warnings_of_abandoned_branches (name : string)
    (Rs : list Validator) (x : Chunk) :
  warnings (call (First.__init__ name Rs) x)
  = flat_map (fun R => warnings (call R x)) (attempted Rs x).
Proof.
  cbn [call First.__init__]. unfold First.__call__.
  generalize (First.self_repr name Rs). intros self.
  induction Rs as [| R Rs IH]; [reflexivity |].
  cbn [First.loop attempted flat_map].
  rewrite warnings_try_except, rejects_bind_ret, warnings_bind_ret.
  destruct (rejects (call R x)); [now rewrite IH |].
  cbn [flat_map]. now rewrite app_nil_r.
Qed.

Lemma Literal_rejects (expected t : string) :
  rejects (call (Literal.__init__ expected) (ScalarChunk t)) = negb (String.eqb expected t).
Proof.
  unfold rejects. rewrite Literal_call_scalar. destruct (String.eqb expected t); reflexivity.
Qed.

Lemma find_Literal (L : list string) (t : string) :
  find (fun R => negb (rejects (call R (ScalarChunk t)))) (map Literal.__init__ L)
  = if in_dec string_dec t L then Some (Literal.__init__ t) else None.
Proof.
  induction L as [| e L IH]; [reflexivity |].
  cbn [map find]. rewrite Literal_rejects, negb_involutive.
  destruct (String.eqb_spec e t) as [-> | Hne].
  - destruct (in_dec string_dec t (t :: L)) as [_ | Hn]; [reflexivity |].
    exfalso. apply Hn. now left.
  - rewrite IH. destruct (in_dec string_dec t L) as [Hin | Hn];
      destruct (in_dec string_dec t (e :: L)) as [Hin' | Hn']; try reflexivity.
    + exfalso. apply Hn'. now right.
    + destruct Hin' as [-> | Hin']; contradiction.
Qed.

(** [First] over literals accepts what [Choice] over the same literals
    accepts: on a scalar with text [t] it succeeds, with value [t] and
    the matching [Literal] as the selected validator, exactly when [t]
    is one of the literals; with no literals it fails where [Choice]
    cannot even be built. *)
Theorem First_of_literals_accepts_like_Choice (name : string) (L : list string)
    (t : string) :
  let first := First.__init__ name (map Literal.__init__ L) in
  (succeeds (call first (ScalarChunk t)) <-> In t L)
  /\ (succeeds (call first (ScalarChunk t)) <-> succeeds (Choice_call L (ScalarChunk t)))
  /\ (outcome (call first (ScalarChunk t))
      = inr (mkYAML (PyStr t) (repr first) (Some (LiteralRepr t)))
      <-> In t L).
Proof.
  cbv zeta.
  assert (Hout : outcome (call (First.__init__ name (map Literal.__init__ L)) (ScalarChunk t))
                 = if in_dec string_dec t L
                   then inr (mkYAML (PyStr t)
                               (repr (First.__init__ name (map Literal.__init__ L)))
                               (Some (LiteralRepr t)))
                   else inl (YAMLValidationError
                               ("failed to find a valid schema for " ++ name)
                               "found invalid input" (ScalarChunk t))).
  { cbn [call First.__init__]. unfold First.__call__.
    rewrite First_loop_outcome, find_Literal.
    destruct (in_dec string_dec t L); [| reflexivity].
    rewrite Literal_call_scalar, String.eqb_refl. reflexivity. }
  assert (H1 : succeeds (call (First.__init__ name (map Literal.__init__ L)) (ScalarChunk t))
               <-> In t L).
  { unfold succeeds. rewrite Hout. destruct (in_dec string_dec t L) as [Hin | Hn].
    - split; [intros _; exact Hin | intros _; eexists; reflexivity].
    - split; [intros [r Hr]; discriminate | intros H; contradiction]. }
  split; [exact H1 |]. split.
  - rewrite H1. unfold succeeds, Choice_call, Choice. destruct L as [| e rest].
    + cbn. split; [intros [] | intros [r Hr]; discriminate].
    + cbn [map reduce].
      pose proof (fold_OrValidator_matches rest _ [e] t (Literal_matches e t)) as [Hyes Hno].
      cbn [app] in Hyes, Hno. split.
      * intros Hin. destruct (Hyes Hin) as [r [Hr _]]. now exists r.
      * intros [r Hr]. destruct (in_dec string_dec t (e :: rest)) as [Hin | Hn]; [exact Hin |].
        specialize (Hno Hn). unfold rejects in Hno. rewrite Hr in Hno. discriminate.
  - rewrite Hout. destruct (in_dec string_dec t L) as [Hin | Hn].
    + split; [intros _; exact Hin | reflexivity].
    + split; [discriminate | intros H; contradiction].
Qed.

(** On the scalar [t], validator [v] fails with the diagnostic of the
    literal [e]. *)
Lemma OrValidator_fails_as_second (a b : Validator) (t e : string) :
  rejects (call a (ScalarChunk t)) = true ->
  outcome (call b (ScalarChunk t))
  = inl (YAMLValidationError ("when expecting " ++ e) "found non-matching string"
           (ScalarChunk t)) ->
  outcome (call (OrValidator a b) (ScalarChunk t))
  = inl (YAMLValidationError ("when expecting " ++ e) "found non-matching string"
           (ScalarChunk t)).
Proof.
  intros Ha Hb. cbn [call OrValidator].
  rewrite outcome_try_except, rejects_bind_ret, Ha, outcome_bind, Hb. reflexivity.
Qed.

Lemma last_cons {A} (l : list A) : forall x d : A, last (x :: l) d = last l x.
Proof.
  induction l as [| y l IH]; intros x d; [reflexivity |].
  change (last (x :: y :: l) d) with (last (y :: l) d). now rewrite !IH.
Qed.

Lemma fold_OrValidator_fails_as_last (rest : list string) :
  forall (v : Validator) (e t : string),
    outcome (call v (ScalarChunk t))
    = inl (YAMLValidationError ("when expecting " ++ e) "found non-matching string"
             (ScalarChunk t)) ->
    ~ In t rest ->
    outcome (call (fold_left OrValidator (map Literal.__init__ rest) v) (ScalarChunk t))
    = inl (YAMLValidationError ("when expecting " ++ last rest e)
             "found non-matching string" (ScalarChunk t)).
Proof.
  induction rest as [| e' rest IH]; intros v e t Hv Hn; [exact Hv |].
  cbn [map fold_left].
  assert (He' : e' <> t) by (intros ->; apply Hn; now left).
  assert (Hrest : ~ In t rest) by (intros H; apply Hn; now right).
  rewrite last_cons.
  apply IH; [| exact Hrest].
  apply OrValidator_fails_as_second.
  - unfold rejects. now rewrite Hv.
  - rewrite Literal_call_scalar. apply String.eqb_neq in He'. now rewrite He'.
Qed.

(** When the text is none of the literals, the failure [Choice] raises
    is the one of its last literal alone: the diagnostic names the last
    alternative and none of the others. *)
Theorem Choice_failure_names_last_literal (e : string) (rest : list string) (t : string) :
  ~ In t (e :: rest) ->
  outcome (Choice_call (e :: rest) (ScalarChunk t))
  = inl (YAMLValidationError ("when expecting " ++ last (e :: rest) e)
           "found non-matching string" (ScalarChunk t)).
Proof.
  intros Hn. unfold Choice_call, Choice. cbn [map reduce].
  assert (He : e <> t) by (intros ->; apply Hn; now left).
  assert (Hrest : ~ In t rest) by (intros H; apply Hn; now right).
  rewrite last_cons.
  apply fold_OrValidator_fails_as_last; [| exact Hrest].
  rewrite Literal_call_scalar. apply String.eqb_neq in He. now rewrite He.
Qed.

Lemma Choice_failure_names_last_literal_witness :
  ~ In "middle" ["first"; "last"; "all"]
  /\ outcome (Choice_call ["first"; "last"; "all"] (ScalarChunk "middle"))
     = inl (YAMLValidationError "when expecting all" "found non-matching string"
              (ScalarChunk "middle")).
Proof.
  assert (H : ~ In "middle" ["first"; "last"; "all"])
    by (intros H; simpl in H; repeat (destruct H as [H | H]; try discriminate); exact H).
  split; [exact H |].
  exact (Choice_failure_names_last_literal "first" ["last"; "all"] "middle" H).
Defined.

(** ** NestedDict: one assignment on any tree *)

Lemma dict_getitem_setitem_other {A} (k k' : string) (v : A) (d : dict A) :
  k' <> k -> dict_getitem k' (dict_setitem k v d) = dict_getitem k' d.
Proof.
  intros Hne. induction d as [| [k0 v0] d IH]; cbn.
  - apply String.eqb_neq in Hne. now rewrite Hne.
  - destruct (String.eqb_spec k k0) as [-> | Hk]; cbn.
    + apply String.eqb_neq in Hne. now rewrite Hne.
    + destruct (String.eqb k' k0); [reflexivity | exact IH].
Qed.

Lemma resolve_empty {V} (seg : string) (rest : list string) :
  resolve (@empty V) (seg :: rest) = Absent seg.
Proof. reflexivity. Qed.

Lemma removelast_cons {A} (x y : A) (l : list A) :
  removelast (x :: y :: l) = x :: removelast (y :: l).
Proof. reflexivity. Qed.

(** A path that runs through a leaf holds that leaf at a proper
    prefix. *)
Lemma resolve_through_leaf {V} (q : list string) :
  forall (d : NestedDict V) (v : V) (rest : list string),
    resolve d q = ThroughLeaf v rest ->
    exists p, q = p ++ rest /\ rest <> [] /\ resolve d p = Resolved (Leaf v).
Proof.
  induction q as [| s q IH]; intros d v rest H; [discriminate |].
  rewrite resolve_step in H.
  destruct (dict_getitem s (super d)) as [e | n] eqn:E; [discriminate |].
  destruct q as [| q0 q]; [discriminate |].
  destruct n as [v0 | d0].
  - injection H as <- <-. exists [s]. repeat split; try discriminate.
    cbn [resolve]. now rewrite E.
  - destruct (IH d0 v rest H) as [p [Hq [Hr Hres]]].
    exists (s :: p). rewrite Hq. repeat split; auto.
    destruct p as [| p0 p]; [discriminate |]. now rewrite resolve_cons, E.
Qed.

(** What [set_path] does when no leaf is met before the last segment:
    missing sub-trees are created and the value is stored. *)
Lemma set_path_outcome {V : Type}
    (leaf_setitem : V -> string -> Node V -> V * (PyExn + unit))
    (segs : list string) (value : Node V) :
  forall d : NestedDict V,
    segs <> [] ->
    match resolve d (removelast segs) with
    | Resolved (Leaf _) | ThroughLeaf _ _ => True
    | Resolved (Sub _) | Absent _ =>
        exists d', set_path leaf_setitem d segs value = (d', inr tt)
                   /\ resolve d' segs = Resolved value
    end.
Proof.
  induction segs as [| s segs IH]; intros d Hne; [contradiction |].
  destruct segs as [| s2 t].
  - cbn [removelast resolve set_path]. eexists. split; [reflexivity |].
    cbn [super]. now rewrite dict_getitem_setitem_same.
  - rewrite removelast_cons, set_path_cons. cbv zeta.
    pose proof IH as IHsub.
    rewrite (resolve_step d s (removelast (s2 :: t))).
    destruct (dict_getitem s (super d)) as [e | [v | d0]] eqn:E.
    + (* the segment is missing: the sub-tree is created *)
      apply dict_getitem_error in E. destruct E as [_ Ec]. rewrite Ec. cbn [negb super].
      rewrite dict_getitem_setitem_same.
      specialize (IHsub (@empty V) ltac:(discriminate)).
      assert (Hok : exists d', set_path leaf_setitem empty (s2 :: t) value = (d', inr tt)
                              /\ resolve d' (s2 :: t) = Resolved value).
      { destruct (removelast (s2 :: t)) as [| r0 r]; [exact IHsub |].
        rewrite resolve_empty in IHsub. exact IHsub. }
      destruct Hok as [d' [Hset Hres]]. rewrite Hset, dict_setitem_twice.
      eexists. split; [reflexivity |].
      rewrite resolve_cons. cbn [super]. now rewrite dict_getitem_setitem_same.
    + (* a leaf on the way *)
      destruct (removelast (s2 :: t)); exact I.
    + (* a sub-tree: descend *)
      rewrite (dict_getitem_contains _ _ _ E). cbn [negb]. rewrite E.
      specialize (IHsub d0 ltac:(discriminate)).
      assert (Hsame : match removelast (s2 :: t) with
                      | [] => Resolved (Sub d0)
                      | _ :: _ => resolve d0 (removelast (s2 :: t))
                      end = resolve d0 (removelast (s2 :: t)))
        by (destruct (removelast (s2 :: t)); reflexivity).
      rewrite Hsame.
      destruct (resolve d0 (removelast (s2 :: t))) as [[v | d1] | seg | v rest];
        try exact I;
        destruct IHsub as [d' [Hset Hres]]; rewrite Hset; eexists;
        (split; [reflexivity |]);
        rewrite resolve_cons; cbn [super]; now rewrite dict_getitem_setitem_same.
Qed.

(** An assignment on a path that runs into a leaf is the leaf's
    business. *)
Lemma setitem_defers_to_leaf {V : Type}
    (leaf_setitem : V -> string -> Node V -> V * (PyExn + unit))
    (d : NestedDict V) (p r : list string) (leaf : V) (value : Node V) :
  is_path (p ++ r) = true ->
  r <> [] ->
  resolve d p = Resolved (Leaf leaf) ->
  left_to_leaf d leaf (__setitem__ leaf_setitem d (join_path (p ++ r)) value)
    (leaf_setitem leaf (join_path r) value).
Proof.
  intros Hpr Hr Hres. unfold left_to_leaf, __setitem__.
  rewrite setitem_rec_set_path by (auto; lia).
  rewrite (set_path_below_leaf leaf_setitem p d leaf r value Hres Hr). cbn [fst snd].
  split; [reflexivity |]. intros ->.
  now rewrite (set_path_same_leaf leaf_setitem p d leaf Hres).
Qed.

(** [set(p, value)] on any NestedDict, by what the path before the last
    segment resolves to.  When that path leads to a sub-tree, or a
    segment of it is missing, the assignment succeeds, creating the
    missing sub-trees, and afterwards [p] resolves to [value] and
    [get(p)] returns it: a missing segment never makes it fail.  When
    that path holds or runs into a leaf, the assignment is handed to the
    leaf with the rest of the path as key: it ends as the leaf's own
    item assignment does, and the NestedDict is left as it was when the
    leaf is. *)
Theorem setitem_creates_or_defers_to_leaf {V : Type}
    (leaf_getitem : V -> string -> PyExn + Node V)
    (leaf_setitem : V -> string -> Node V -> V * (PyExn + unit))
    (d : NestedDict V) (segs : list string) (value : Node V) :
  is_path segs = true ->
  match resolve d (removelast segs) with
  | Resolved (Sub _) | Absent _ =>
      exists d', __setitem__ leaf_setitem d (join_path segs) value = (d', inr tt)
                 /\ resolve d' segs = Resolved value
                 /\ __getitem__ leaf_getitem d' (join_path segs) = inr value
  | Resolved (Leaf leaf) =>
      left_to_leaf d leaf (__setitem__ leaf_setitem d (join_path segs) value)
        (leaf_setitem leaf (last segs EmptyString) value)
  | ThroughLeaf leaf rest =>
      left_to_leaf d leaf (__setitem__ leaf_setitem d (join_path segs) value)
        (leaf_setitem leaf (join_path (rest ++ [last segs EmptyString])) value)
  end.
Proof.
  intros Hp. assert (Hne : segs <> []) by (intros ->; discriminate).
  pose proof (set_path_outcome leaf_setitem segs value d Hne) as H.
  pose proof (app_removelast_last EmptyString Hne) as Hsplit.
  destruct (resolve d (removelast segs)) as [[v | d1] | seg | v rest] eqn:Hres.
  - rewrite Hsplit at 1.
    apply (setitem_defers_to_leaf leaf_setitem d (removelast segs) [last segs EmptyString]);
      auto.
    + now rewrite <- Hsplit.
    + discriminate.
  - destruct H as [d' [Hset Hres']]. exists d'. unfold __setitem__, __getitem__.
    rewrite setitem_rec_set_path, getitem_rec_resolve by (auto; lia).
    now rewrite Hres'.
  - destruct H as [d' [Hset Hres']]. exists d'. unfold __setitem__, __getitem__.
    rewrite setitem_rec_set_path, getitem_rec_resolve by (auto; lia).
    now rewrite Hres'.
  - destruct (resolve_through_leaf _ _ _ _ Hres) as [p [Hq [Hr Hleaf]]].
    assert (E : segs = p ++ (rest ++ [last segs EmptyString]))
      by (rewrite app_assoc, <- Hq; exact Hsplit).
    rewrite E at 1. apply setitem_defers_to_leaf; auto.
    + now rewrite <- E.
    + intros Hnil. apply app_eq_nil in Hnil. destruct Hnil as [_ Hnil]. discriminate.
Qed.

(** The two kinds of outcome at once: below the plain dict stored at
    [a], the key [b/c] is assigned in that dict; below the int stored at
    [n], the assignment raises the [TypeError] of the int. *)
Lemma setitem_creates_or_defers_to_leaf_witness :
  let d := ND [("a", Leaf (PlainDict [])); ("n", Leaf (PlainInt 1))] in
  is_path ["a"; "b"; "c"] = true
  /\ is_path ["n"; "b"] = true
  /\ __setitem__ plain_setitem d "a/b/c" (Leaf (PlainInt 2))
     = (ND [("a", Leaf (PlainDict [("b/c", PlainInt 2)])); ("n", Leaf (PlainInt 1))],
        inr tt)
  /\ left_to_leaf d (PlainDict []) (__setitem__ plain_setitem d "a/b/c" (Leaf (PlainInt 2)))
       (plain_setitem (PlainDict []) "b/c" (Leaf (PlainInt 2)))
  /\ left_to_leaf d (PlainInt 1) (__setitem__ plain_setitem d "n/b" (Leaf (PlainInt 2)))
       (plain_setitem (PlainInt 1) "b" (Leaf (PlainInt 2))).
Proof.
  cbv zeta. split; [reflexivity |]. split; [reflexivity |]. split; [reflexivity |].
  split.
  - exact (setitem_creates_or_defers_to_leaf plain_getitem plain_setitem
             (ND [("a", Leaf (PlainDict [])); ("n", Leaf (PlainInt 1))])
             ["a"; "b"; "c"] (Leaf (PlainInt 2)) eq_refl).
  - exact (setitem_creates_or_defers_to_leaf plain_getitem plain_setitem
             (ND [("a", Leaf (PlainDict [])); ("n", Leaf (PlainInt 1))])
             ["n"; "b"] (Leaf (PlainInt 2)) eq_refl).
Defined.

Lemma diverge_heads (s s' : string) (p q : list string) :
  diverge (s :: p) (s' :: q) -> s <> s' \/ (s = s' /\ p <> [] /\ q <> [] /\ diverge p q).
Proof.
  intros [Hpq Hqp]. destruct (string_dec s s') as [<- | Hne]; [right | now left].
  split; [reflexivity |]. repeat split.
  - intros ->. apply Hpq. now exists q.
  - intros ->. apply Hqp. now exists p.
  - intros [r ->]. apply Hpq. now exists r.
  - intros [r ->]. apply Hqp. now exists r.
Qed.

(** A [set_path] on [p] that succeeds without the help of a leaf leaves
    the resolution of a path that diverges from [p] as it was. *)
Lemma set_path_frame {V : Type} (p : list string) (value : Node V) :
  forall (d d' : NestedDict V) (q : list string),
    p <> [] -> q <> [] -> diverge p q ->
    set_path no_setitem d p value = (d', inr tt) ->
    match resolve d q with
    | Resolved n => resolve d' q = Resolved n
    | ThroughLeaf v r => resolve d' q = ThroughLeaf v r
    | Absent _ => exists seg, resolve d' q = Absent seg
    end.
Proof.
  induction p as [| s p IH]; intros d d' q Hp Hq Hdiv Hset; [contradiction |].
  destruct q as [| s' q]; [contradiction |].
  assert (Hother : s <> s' ->
            forall x y : Node V,
              dict_getitem s' (dict_setitem s x (super d)) = dict_getitem s' (super d)
              /\ dict_getitem s' (dict_setitem s x (dict_setitem s y (super d)))
                 = dict_getitem s' (super d)).
  { intros Hne x y. rewrite !dict_getitem_setitem_other by congruence. auto. }
  assert (Hsame : forall d1 : NestedDict V,
            dict_getitem s' (super d1) = dict_getitem s' (super d) ->
            match resolve d (s' :: q) with
            | Resolved n => resolve d1 (s' :: q) = Resolved n
            | ThroughLeaf v r => resolve d1 (s' :: q) = ThroughLeaf v r
            | Absent _ => exists seg, resolve d1 (s' :: q) = Absent seg
            end).
  { intros d1 H1. rewrite (resolve_step d1), (resolve_step d), H1.
    destruct (dict_getitem s' (super d)) as [e | n]; [now exists s' |].
    destruct q as [| q0 q]; [reflexivity |].
    destruct n as [v | d0]; [reflexivity |].
    destruct (resolve d0 (q0 :: q)); [reflexivity | now eexists | reflexivity]. }
  destruct p as [| s2 t].
  - (* the value is stored at this level *)
    cbn [set_path] in Hset. injection Hset as <-.
    apply diverge_heads in Hdiv. destruct Hdiv as [Hne | [_ [Hn _]]]; [| contradiction].
    apply Hsame. cbn [super]. apply (Hother Hne value value).
  - rewrite set_path_cons in Hset. cbv zeta in Hset.
    apply diverge_heads in Hdiv. destruct Hdiv as [Hne | [<- [_ [Hq' Hdiv]]]].
    + (* another first segment: nothing below it is touched *)
      destruct (dict_contains s (super d)); cbn [negb super] in Hset.
      * destruct (dict_getitem s (super d)) as [e | [v | d0]];
          [discriminate | unfold no_setitem in Hset; discriminate |].
        destruct (set_path no_setitem d0 (s2 :: t) value) as [d0' r]. injection Hset as <- _.
        apply Hsame. cbn [super]. apply (Hother Hne (Sub d0') (Sub d0')).
      * rewrite dict_getitem_setitem_same in Hset.
        destruct (set_path no_setitem empty (s2 :: t) value) as [d0' r]. injection Hset as <- _.
        apply Hsame. cbn [super]. apply (Hother Hne (Sub d0') (Sub empty)).
    + (* the same first segment: the paths diverge below it *)
      destruct q as [| q0 q]; [contradiction |]. rewrite (resolve_step d).
      destruct (dict_getitem s (super d)) as [e | [v | d0]] eqn:E.
      * apply dict_getitem_error in E. destruct E as [_ Ec].
        rewrite Ec in Hset. cbn [negb super] in Hset.
        rewrite dict_getitem_setitem_same in Hset.
        destruct (set_path no_setitem empty (s2 :: t) value) as [d0' r] eqn:Esub.
        injection Hset as <- ->.
        pose proof (IH empty d0' (q0 :: q) ltac:(discriminate) Hq' Hdiv Esub) as H.
        rewrite resolve_empty in H. destruct H as [seg H]. exists seg.
        rewrite resolve_step. cbn [super]. now rewrite dict_getitem_setitem_same.
      * rewrite (dict_getitem_contains _ _ _ E) in Hset. cbn [negb] in Hset.
        rewrite E in Hset. unfold no_setitem in Hset. discriminate.
      * rewrite (dict_getitem_contains _ _ _ E) in Hset. cbn [negb] in Hset.
        rewrite E in Hset.
        destruct (set_path no_setitem d0 (s2 :: t) value) as [d0' r] eqn:Esub.
        injection Hset as <- ->.
        pose proof (IH d0 d0' (q0 :: q) ltac:(discriminate) Hq' Hdiv Esub) as H.
        assert (Hres : resolve (ND (dict_setitem s (Sub d0') (super d))) (s :: q0 :: q)
                       = resolve d0' (q0 :: q)).
        { rewrite resolve_step. cbn [super]. now rewrite dict_getitem_setitem_same. }
        rewrite Hres. exact H.
Qed.

(** On a NestedDict built by assignments from the empty one, one more
    assignment [set(p, v)], with no path of the run a proper prefix of
    another, succeeds and does not disturb a path [q] that diverges
    from [p] (neither is a prefix of the other): [contains(q)] answers
    as before, and what [get(q)] returned before it returns
    afterwards. *)
Theorem setitem_leaves_other_paths_alone {V : Type}
    (leaf_getitem : V -> string -> PyExn + Node V)
    (leaf_setitem : V -> string -> Node V -> V * (PyExn + unit))
    (leaf_contains : string -> V -> PyExn + bool)
    (ops : assignments V) (d : NestedDict V) (p q : list string) (v : V) :
  Forall (fun o => is_path (fst o) = true) (ops ++ [(p, v)]) ->
  prefix_free (ops ++ [(p, v)]) ->
  run_sets leaf_setitem empty (statements ops) = (d, inr tt) ->
  is_path q = true ->
  diverge p q ->
  exists d',
    __setitem__ leaf_setitem d (join_path p) (Leaf v) = (d', inr tt)
    /\ __contains__ leaf_contains d' (join_path q)
       = __contains__ leaf_contains d (join_path q)
    /\ (forall n, __getitem__ leaf_getitem d (join_path q) = inr n ->
                  __getitem__ leaf_getitem d' (join_path q) = inr n).
Proof.
  intros Hpaths Hpf Hrun Hq Hdiv.
  pose proof (path_depth_bounded (ops ++ [(p, v)])) as Hb.
  set (n := path_depth (ops ++ [(p, v)])) in Hb.
  apply Forall_app in Hpaths. destruct Hpaths as [Hpaths Hp].
  inversion Hp as [| ? ? Hp' _]; subst. cbn [fst] in Hp'.
  rewrite (run_sets_build leaf_setitem n ops Hpaths (prefix_free_app_l _ _ Hpf)
             (bounded_app_l _ _ _ Hb)) in Hrun.
  injection Hrun as <-.
  assert (Hpne : p <> []) by (intros ->; discriminate).
  assert (Hqne : q <> []) by (intros ->; discriminate).
  exists (build n (ops ++ [(p, v)])).
  split.
  - unfold __setitem__. rewrite setitem_rec_set_path by (auto; lia).
    now apply set_path_build.
  - pose proof (set_path_build no_setitem n ops p v Hpne Hpf Hb) as Hset.
    pose proof (set_path_frame p (Leaf v) _ _ q Hpne Hqne Hdiv Hset) as H.
    unfold __contains__, __getitem__.
    rewrite !contains_rec_resolve, !getitem_rec_resolve by (auto; lia).
    destruct (resolve (build n ops) q) as [m | seg | w r].
    + rewrite H. auto.
    + destruct H as [seg' H]. rewrite H. split; [reflexivity | discriminate].
    + rewrite H. auto.
Qed.

Lemma setitem_leaves_other_paths_alone_witness :
  let ops := [(["a"; "b"], 1%Z)] in
  let d := ND [("a", Sub (ND [("b", Leaf 1%Z)]))] in
  let d' := ND [("a", Sub (ND [("b", Leaf 1%Z); ("c", Leaf 2%Z)]))] in
  run_sets no_setitem empty (statements ops) = (d, inr tt)
  /\ diverge ["a"; "c"] ["a"; "b"]
  /\ __setitem__ no_setitem d "a/c" (Leaf 2%Z) = (d', inr tt)
  /\ __contains__ scalar_contains_Z d' "a/b" = __contains__ scalar_contains_Z d "a/b"
  /\ __getitem__ no_getitem d' "a/b" = inr (Leaf 1%Z).
Proof.
  cbv zeta.
  assert (Hdiv : diverge ["a"; "c"] ["a"; "b"]).
  { split; intros [r E]; cbn in E; discriminate. }
  assert (Hpaths : Forall (fun o : list string * Z => is_path (fst o) = true)
                     ([(["a"; "b"], 1%Z)] ++ [(["a"; "c"], 2%Z)]))
    by (repeat constructor).
  assert (Hpf : prefix_free ([(["a"; "b"], 1%Z)] ++ [(["a"; "c"], 2%Z)])).
  { intros x y Hx Hy [r [Hr E]]. simpl in Hx, Hy.
    repeat (destruct Hx as [<- | Hx]; [
      repeat (destruct Hy as [<- | Hy]; [
        try discriminate; injection E as <-; now apply Hr |]); destruct Hy |]).
    destruct Hx. }
  destruct (setitem_leaves_other_paths_alone no_getitem no_setitem scalar_contains_Z
              [(["a"; "b"], 1%Z)] (ND [("a", Sub (ND [("b", Leaf 1%Z)]))])
              ["a"; "c"] ["a"; "b"] 2%Z Hpaths Hpf eq_refl eq_refl Hdiv)
    as [d' [Hset [Hc Hg]]].
  split; [reflexivity |]. split; [exact Hdiv |].
  assert (E : d' = ND [("a", Sub (ND [("b", Leaf 1%Z); ("c", Leaf 2%Z)]))]).
  { vm_compute in Hset. now injection Hset as <-. }
  subst d'. split; [reflexivity |]. split; [exact Hc |].
  exact (Hg (Leaf 1%Z) eq_refl).
Defined.

(** ** NestedDict: iteration against lookup, and map *)

Section IterationAndMap.
Context {V : Type}.
Variable leaf_getitem : V -> string -> PyExn + Node V.
Variable leaf_setitem : V -> string -> Node V -> V * (PyExn + unit).
Implicit Types (ops : assignments V) (h : string) (p t : list string) (v : V).

Lemma resolve_build_items (n : nat) :
  forall ops p v,
    In (p, v) (tree_items n ops) -> resolve (build n ops) p = Resolved (Leaf v).
Proof.
  induction n as [| n IH]; intros ops p v Hin; [destruct Hin |].
  cbn [tree_items] in Hin. apply in_flat_map in Hin. destruct Hin as [h [Hh Hin]].
  destruct (last_here (under h ops)) as [w |] eqn:E.
  - destruct Hin as [Hin | []]. injection Hin as <- <-.
    cbn [resolve]. rewrite (resolve_build_head n ops h Hh). unfold subtree. now rewrite E.
  - apply in_map_iff in Hin. destruct Hin as [[p' v'] [Heq Hin]]. injection Heq as <- <-.
    pose proof (tree_items_nonempty _ _ _ _ Hin) as Hne.
    destruct p' as [| a b]; [contradiction |].
    rewrite resolve_cons, (resolve_build_head n ops h Hh). unfold subtree. rewrite E.
    now apply IH.
Qed.

Lemma run_builds (ops : assignments V) (d : NestedDict V) :
  Forall (fun o => is_path (fst o) = true) ops ->
  prefix_free ops ->
  run_sets leaf_setitem empty (statements ops) = (d, inr tt) ->
  d = build (path_depth ops) ops.
Proof.
  intros Hpaths Hpf Hrun.
  rewrite (run_sets_build leaf_setitem (path_depth ops) ops Hpaths Hpf
             (path_depth_bounded ops)) in Hrun.
  now injection Hrun.
Qed.

Lemma no_empty_path (ops : assignments V) :
  Forall (fun o => is_path (fst o) = true) ops -> ~ In [] (map fst ops).
Proof.
  intros Hpaths Hin. apply in_map_iff in Hin. destruct Hin as [[q w] [E Hin]].
  rewrite Forall_forall in Hpaths. apply Hpaths in Hin. cbn in E. subst q. discriminate.
Qed.

Lemma tree_items_are_paths (ops : assignments V) (p : list string) (v : V) :
  Forall (fun o => is_path (fst o) = true) ops ->
  prefix_free ops ->
  In (p, v) (tree_items (path_depth ops) ops) ->
  is_path p = true /\ In p (map fst ops).
Proof.
  intros Hpaths Hpf Hin.
  assert (Hp : In p (map fst ops)).
  { apply (tree_paths_In (path_depth ops) ops p Hpf (path_depth_bounded ops)
             (no_empty_path ops Hpaths)).
    apply in_map_iff. now exists (p, v). }
  split; [| exact Hp].
  apply in_map_iff in Hp. destruct Hp as [[q w] [E Hq]]. cbn in E. subst q.
  rewrite Forall_forall in Hpaths. exact (Hpaths _ Hq).
Qed.

(** On a NestedDict built by assignments from the empty one (paths
    without trailing separator, none a proper prefix of another), every
    pair [(key, value)] that [items()] yields can be looked up:
    [get(key)] returns that value and [contains(key)] is [True]. *)
Theorem items_can_be_looked_up (leaf_contains : string -> V -> PyExn + bool)
    (ops : assignments V) (d : NestedDict V) :
  Forall (fun o => is_path (fst o) = true) ops ->
  prefix_free ops ->
  run_sets leaf_setitem empty (statements ops) = (d, inr tt) ->
  forall key v,
    In (key, v) (items d) ->
    __getitem__ leaf_getitem d key = inr (Leaf v)
    /\ __contains__ leaf_contains d key = inr true.
Proof.
  intros Hpaths Hpf Hrun key v Hin.
  rewrite (run_builds ops d Hpaths Hpf Hrun) in *. rewrite items_build in Hin.
  apply in_map_iff in Hin. destruct Hin as [[p w] [Heq Hin]]. injection Heq as <- <-.
  destruct (tree_items_are_paths ops p w Hpaths Hpf Hin) as [Hp _].
  apply resolve_build_items in Hin.
  unfold __getitem__, __contains__.
  rewrite getitem_rec_resolve, contains_rec_resolve by (auto; lia).
  now rewrite Hin.
Qed.
End IterationAndMap.

Lemma items_can_be_looked_up_witness :
  let ops := [(["a"; "b"], 1%Z); (["c"], 2%Z)] in
  let d := ND [("a", Sub (ND [("b", Leaf 1%Z)])); ("c", Leaf 2%Z)] in
  run_sets no_setitem empty (statements ops) = (d, inr tt)
  /\ In ("a/b", 1%Z) (items d)
  /\ __getitem__ no_getitem d "a/b" = inr (Leaf 1%Z)
  /\ __contains__ scalar_contains_Z d "a/b" = inr true.
Proof.
  cbv zeta.
  assert (H1 : Forall (fun o : list string * Z => is_path (fst o) = true)
                 [(["a"; "b"], 1%Z); (["c"], 2%Z)]) by (repeat constructor).
  assert (H2 : prefix_free [(["a"; "b"], 1%Z); (["c"], 2%Z)]).
  { intros p q Hp Hq [r [Hr E]]. cbn in Hp, Hq.
    repeat (destruct Hp as [<- | Hp]; [
      repeat (destruct Hq as [<- | Hq]; [
        try discriminate; injection E as <-; now apply Hr |]); destruct Hq |]).
    destruct Hp. }
  assert (H3 : In ("a/b", 1%Z)
                 (items (ND [("a", Sub (ND [("b", Leaf 1%Z)])); ("c", Leaf 2%Z)])))
    by (left; reflexivity).
  pose proof (items_can_be_looked_up no_getitem no_setitem scalar_contains_Z
                _ _ H1 H2 eq_refl _ _ H3) as [Hg Hc].
  split; [reflexivity |]. split; [exact H3 |]. split; [exact Hg | exact Hc].
Defined.

(** *** The tree order of a list already in tree order *)

Section TreeOrderAgain.
Context {A B : Type}.
Implicit Types (ops : assignments A) (h : string).

Lemma heads_on_values (f : A -> B) ops : heads (map (on_values f) ops) = heads ops.
Proof. unfold heads. rewrite map_map. reflexivity. Qed.

Lemma under_on_values (f : A -> B) h ops :
  under h (map (on_values f) ops) = map (on_values f) (under h ops).
Proof.
  induction ops as [| [p v] ops IH]; [reflexivity |].
  cbn [map under on_values fst snd]. destruct p as [| s t]; [exact IH |].
  destruct (String.eqb s h); [cbn [map on_values fst snd]; now rewrite IH | exact IH].
Qed.

Lemma last_here_on_values (f : A -> B) ops :
  last_here (map (on_values f) ops) = option_map f (last_here ops).
Proof.
  induction ops as [| [p v] ops IH]; [reflexivity |].
  cbn [map last_here on_values fst snd]. rewrite IH.
  destruct (last_here ops); [reflexivity |]. destruct p; reflexivity.
Qed.

Lemma tree_items_on_values (f : A -> B) (n : nat) :
  forall ops, tree_items n (map (on_values f) ops) = map (on_values f) (tree_items n ops).
Proof.
  induction n as [| n IH]; intros ops; [reflexivity |].
  cbn [tree_items]. rewrite heads_on_values, map_flat_map. apply flat_map_ext. intros h.
  rewrite under_on_values, last_here_on_values.
  destruct (last_here (under h ops)); [reflexivity |].
  cbn [option_map]. rewrite IH, !map_map. apply map_ext. now intros [p v].
Qed.
End TreeOrderAgain.

Section TreeOrderIdempotent.
Context {A : Type}.
Implicit Types (ops : assignments A) (h : string).

Lemma filter_all {X} (f : X -> bool) (l : list X) :
  (forall x, In x l -> f x = true) -> filter f l = l.
Proof.
  induction l as [| x l IH]; intros H; [reflexivity |].
  cbn [filter]. rewrite (H x) by now left. f_equal. apply IH. intros y Hy. apply H. now right.
Qed.

Lemma filter_twice {X} (f : X -> bool) (l : list X) :
  filter f (filter f l) = filter f l.
Proof.
  induction l as [| x l IH]; [reflexivity |].
  cbn [filter]. destruct (f x) eqn:E; cbn [filter]; rewrite ?E, IH; reflexivity.
Qed.

Lemma dedup_block (h : string) (block rest : list string) :
  block <> [] -> (forall x, In x block -> x = h) ->
  dedup (block ++ rest) = h :: filter (fun y => negb (String.eqb y h)) (dedup rest).
Proof.
  induction block as [| x block IH]; intros Hne Hall; [contradiction |].
  assert (Hx : x = h) by (apply Hall; now left). subst x.
  cbn [app dedup]. f_equal. destruct block as [| y block]; [reflexivity |].
  rewrite IH; [| discriminate | intros z Hz; apply Hall; now right].
  cbn [filter]. rewrite String.eqb_refl. cbn [negb]. apply filter_twice.
Qed.

Lemma flat_map_ext_in {X Y} (f g : X -> list Y) (l : list X) :
  (forall x, In x l -> f x = g x) -> flat_map f l = flat_map g l.
Proof.
  induction l as [| x l IH]; intros H; [reflexivity |].
  cbn [flat_map]. rewrite (H x) by now left. f_equal. apply IH. intros y Hy. apply H. now right.
Qed.

Lemma heads_of_group (G : string -> assignments A) (hs : list string) (h k : string) :
  grouped G hs -> In k hs -> In h (heads (G k)) -> h = k.
Proof.
  intros Hg Hk Hin. apply heads_In in Hin. destruct Hin as [p [Hp <-]].
  apply in_map_iff in Hp. destruct Hp as [o [<- Ho]].
  destruct (proj2 (Hg k Hk) o Ho) as [t ->]. reflexivity.
Qed.

Lemma heads_grouped (G : string -> assignments A) (hs : list string) :
  NoDup hs -> grouped G hs -> heads (flat_map G hs) = hs.
Proof.
  induction hs as [| h hs IH]; intros Hnd Hg; [reflexivity |].
  apply NoDup_cons_iff in Hnd. destruct Hnd as [Hh Hnd].
  assert (Hg' : grouped G hs) by (intros k Hk; apply Hg; now right).
  specialize (IH Hnd Hg'). unfold heads in *.
  cbn [flat_map]. rewrite map_app.
  destruct (Hg h ltac:(now left)) as [Hne Hall].
  rewrite (dedup_block h).
  - rewrite IH. f_equal. apply filter_all. intros x Hx.
    apply negb_true_iff, String.eqb_neq. intros ->. contradiction.
  - destruct (G h); [contradiction | discriminate].
  - intros x Hx. apply in_map_iff in Hx. destruct Hx as [o [<- Ho]].
    destruct (Hall o Ho) as [t ->]. reflexivity.
Qed.

Lemma under_flat_map_none (G : string -> assignments A) (hs : list string) (h : string) :
  (forall x, In x hs -> under h (G x) = []) -> under h (flat_map G hs) = [].
Proof.
  induction hs as [| x hs IH]; intros H; [reflexivity |].
  cbn [flat_map]. rewrite under_app, (H x) by now left.
  apply IH. intros y Hy. apply H. now right.
Qed.

Lemma under_grouped (G : string -> assignments A) (hs : list string) (h : string) :
  NoDup hs -> grouped G hs -> In h hs -> under h (flat_map G hs) = under h (G h).
Proof.
  induction hs as [| k hs IH]; intros Hnd Hg Hin; [destruct Hin |].
  apply NoDup_cons_iff in Hnd. destruct Hnd as [Hk Hnd].
  assert (Hg' : grouped G hs) by (intros x Hx; apply Hg; now right).
  assert (Hnone : forall x y, In x (k :: hs) -> x <> y -> under y (G x) = []).
  { intros x y Hx Hxy. apply under_not_head. intros Hy.
    apply Hxy. symmetry. exact (heads_of_group G (k :: hs) y x Hg Hx Hy). }
  cbn [flat_map]. rewrite under_app. destruct Hin as [-> | Hin].
  - assert (Hrest : under h (flat_map G hs) = []).
    { apply under_flat_map_none. intros x Hx. apply Hnone; [now right |].
      intros ->. contradiction. }
    rewrite Hrest. apply app_nil_r.
  - rewrite (Hnone k h); [| now left | intros ->; contradiction].
    now apply IH.
Qed.

Lemma under_map_cons (h : string) (l : assignments A) :
  under h (map (fun '(p, v) => (h :: p, v)) l) = l.
Proof.
  induction l as [| [p v] l IH]; [reflexivity |].
  cbn [map under]. now rewrite String.eqb_refl, IH.
Qed.

Lemma last_here_tree_items (n : nat) ops : last_here (tree_items n ops) = None.
Proof.
  apply last_here_None. intros Hin. apply in_map_iff in Hin.
  destruct Hin as [[p v] [E Hin]]. cbn in E. subst p.
  now apply tree_items_nonempty in Hin.
Qed.

(** The tree order of a list that is already in tree order is the list. *)
Lemma tree_items_idempotent (n : nat) :
  forall ops,
    prefix_free ops -> bounded n ops -> ~ In [] (map fst ops) ->
    tree_items n (tree_items n ops) = tree_items n ops.
Proof.
  induction n as [| n IH]; intros ops Hpf Hb Hne; [reflexivity |].
  set (G := fun h =>
              match last_here (under h ops) with
              | Some v => [([h], v)]
              | None => map (fun '(p, v) => (h :: p, v)) (tree_items n (under h ops))
              end).
  assert (HT : tree_items (S n) ops = flat_map G (heads ops)) by reflexivity.
  assert (Hg : grouped G (heads ops)).
  { intros h Hh. unfold G. destruct (last_here (under h ops)) as [v |] eqn:E.
    - split; [discriminate |]. intros o [<- | []]. now exists [].
    - split.
      + apply heads_In in Hh. destruct Hh as [p [Hp Hfirst]].
        destruct p as [| s t]; [contradiction |]. cbn in Hfirst. subst s.
        assert (Ht : In t (map fst (tree_items n (under h ops)))).
        { apply tree_paths_In.
          - now apply prefix_free_under.
          - now apply bounded_under.
          - now apply last_here_None.
          - now apply under_paths_In. }
        destruct (tree_items n (under h ops)); [destruct Ht | discriminate].
      + intros o Ho. apply in_map_iff in Ho. destruct Ho as [[p v] [<- _]]. now exists p. }
  rewrite HT. cbn [tree_items].
  rewrite (heads_grouped G (heads ops) (heads_NoDup ops) Hg).
  apply flat_map_ext_in. intros h Hh.
  rewrite (under_grouped G (heads ops) h (heads_NoDup ops) Hg Hh).
  unfold G. destruct (last_here (under h ops)) as [v |] eqn:E.
  - cbn [under]. now rewrite String.eqb_refl.
  - rewrite under_map_cons, last_here_tree_items. f_equal. apply IH.
    + now apply prefix_free_under.
    + now apply bounded_under.
    + now apply last_here_None.
Qed.
End TreeOrderIdempotent.

(** *** map *)

(** On a NestedDict built by assignments from the empty one (paths
    without trailing separator, none a proper prefix of another),
    [map(func)] with a [func] that returns leaf values succeeds, and the
    result has the same keys in the same order with [func] applied to
    each value. *)
Theorem NestedDict_map_keeps_keys_and_order {V W : Type}
    (leaf_setitem : V -> string -> Node V -> V * (PyExn + unit))
    (leaf_setitem' : W -> string -> Node W -> W * (PyExn + unit))
    (f : V -> W) (ops : assignments V) (d : NestedDict V) :
  Forall (fun o => is_path (fst o) = true) ops ->
  prefix_free ops ->
  run_sets leaf_setitem empty (statements ops) = (d, inr tt) ->
  exists d',
    NestedDict_map leaf_setitem' d (fun v => Leaf (f v)) = inr d'
    /\ items d' = map (fun '(key, v) => (key, f v)) (items d)
    /\ keys d' = keys d
    /\ values d' = map f (values d).
Proof.
  intros Hpaths Hpf Hrun.
  rewrite (run_builds leaf_setitem ops d Hpaths Hpf Hrun).
  set (n := path_depth ops). set (T := tree_items n ops).
  assert (HT : forall p v, In (p, v) T -> is_path p = true /\ In p (map fst ops))
    by (intros p v; apply tree_items_are_paths; assumption).
  assert (Hfst : map fst (map (on_values f) T) = map fst T)
    by (rewrite map_map; apply map_ext; now intros [p v]).
  assert (Hin : forall p, In p (map fst (map (on_values f) T)) -> In p (map fst ops)).
  { intros p Hp. rewrite Hfst in Hp. apply in_map_iff in Hp.
    destruct Hp as [[q v] [<- Hq]]. exact (proj2 (HT q v Hq)). }
  assert (Hrun' : run_sets leaf_setitem' empty (statements (map (on_values f) T))
                  = (build n (map (on_values f) T), inr tt)).
  { apply run_sets_build.
    - apply Forall_forall. intros o Ho. apply in_map_iff in Ho.
      destruct Ho as [[p v] [<- Hp]]. exact (proj1 (HT p v Hp)).
    - intros p q Hp Hq. apply Hpf; auto.
    - apply Forall_forall. intros o Ho.
      assert (Hpo : In (fst o) (map fst ops)) by (apply Hin; now apply in_map).
      apply in_map_iff in Hpo. destruct Hpo as [o' [E Ho']].
      pose proof (path_depth_bounded ops) as Hb. unfold bounded in Hb.
      rewrite Forall_forall in Hb. specialize (Hb o' Ho'). now rewrite E in Hb. }
  assert (Hitems : items (build n (map (on_values f) T))
                   = map (fun '(key, v) => (key, f v)) (items (build n ops))).
  { rewrite !items_build, tree_items_on_values. fold T.
    unfold T at 1. rewrite tree_items_idempotent;
      [| exact Hpf | apply path_depth_bounded | now apply no_empty_path].
    fold T. rewrite !map_map. apply map_ext. now intros [p v]. }
  exists (build n (map (on_values f) T)). split; [| split; [exact Hitems | split]].
  - unfold NestedDict_map. rewrite items_build. fold T.
    replace (map (fun '(key, val) => (key, Leaf (f val)))
               (map (fun '(p, v) => (join_path p, v)) T))
      with (statements (map (on_values f) T)).
    + now rewrite Hrun'.
    + unfold statements. rewrite !map_map. apply map_ext. now intros [p v].
  - rewrite <- !items_keys, Hitems, map_map. apply map_ext. now intros [k v].
  - rewrite <- !items_values, Hitems, !map_map. apply map_ext. now intros [k v].
Qed.

Lemma NestedDict_map_keeps_keys_and_order_witness :
  let ops := [(["a"; "b"], 1%Z); (["c"], 2%Z); (["a"; "d"], 3%Z)] in
  exists d d',
    run_sets no_setitem empty (statements ops) = (d, inr tt)
    /\ NestedDict_map no_setitem d (fun v => Leaf (Z.succ v)) = inr d'
    /\ keys d = ["a/b"; "a/d"; "c"]
    /\ items d' = [("a/b", 2%Z); ("a/d", 4%Z); ("c", 3%Z)].
Proof.
  cbv zeta.
  assert (H1 : Forall (fun o : list string * Z => is_path (fst o) = true)
                 [(["a"; "b"], 1%Z); (["c"], 2%Z); (["a"; "d"], 3%Z)])
    by (repeat constructor).
  assert (H2 : prefix_free [(["a"; "b"], 1%Z); (["c"], 2%Z); (["a"; "d"], 3%Z)]).
  { intros p q Hp Hq [r [Hr E]]. cbn in Hp, Hq.
    repeat (destruct Hp as [<- | Hp]; [
      repeat (destruct Hq as [<- | Hq]; [
        try discriminate; injection E as <-; now apply Hr |]); destruct Hq |]).
    destruct Hp. }
  destruct (NestedDict_map_keeps_keys_and_order no_setitem no_setitem Z.succ _
              (ND [("a", Sub (ND [("b", Leaf 1%Z); ("d", Leaf 3%Z)])); ("c", Leaf 2%Z)])
              H1 H2 eq_refl) as [d' [Hmap [Hitems _]]].
  exists (ND [("a", Sub (ND [("b", Leaf 1%Z); ("d", Leaf 3%Z)])); ("c", Leaf 2%Z)]), d'.
  split; [reflexivity |]. split; [exact Hmap |]. split; [reflexivity | exact Hitems].
Defined.

(** ** as_list_of_tuples *)

Section ListOfTuples.
Context {Obj : Type}.
Variable list_obj : list (string * Obj) -> Obj.
Hypothesis list_obj_injective : forall l l', list_obj l = list_obj l' -> l = l'.

Lemma as_list_of_tuples_leaf (k : string) (v : Obj) (its : dict (Node Obj)) :
  as_list_of_tuples list_obj (ND ((k, Leaf v) :: its))
  = (k, v) :: as_list_of_tuples list_obj (ND its).
Proof. reflexivity. Qed.

Lemma as_list_of_tuples_sub (k : string) (d : NestedDict Obj) (its : dict (Node Obj)) :
  as_list_of_tuples list_obj (ND ((k, Sub d) :: its))
  = (k, list_obj (as_list_of_tuples list_obj d)) :: as_list_of_tuples list_obj (ND its).
Proof. reflexivity. Qed.

Lemma as_list_of_tuples_keys (d : NestedDict Obj) :
  map fst (as_list_of_tuples list_obj d) = map fst (super d).
Proof.
  destruct d as [its]. cbn [super].
  induction its as [| [k [v | d]] its IH]; [reflexivity | |].
  - rewrite as_list_of_tuples_leaf. cbn [map fst]. now rewrite IH.
  - rewrite as_list_of_tuples_sub. cbn [map fst]. now rewrite IH.
Qed.

Lemma as_list_of_tuples_injective (d1 : NestedDict Obj) :
  forall d2,
    no_list_leaf list_obj d1 -> no_list_leaf list_obj d2 ->
    as_list_of_tuples list_obj d1 = as_list_of_tuples list_obj d2 ->
    d1 = d2.
Proof.
  induction d1 as [| k v its IH | k d its IHd IH] using NestedDict_tree_ind;
    intros [its2] H1 H2 E.
  - destruct its2 as [| [k2 [v2 | d2]] its2]; [reflexivity | discriminate | discriminate].
  - destruct H1 as [Hv H1].
    destruct its2 as [| [k2 [v2 | d2]] its2]; [discriminate | |].
    + rewrite !as_list_of_tuples_leaf in E. injection E as <- <- E.
      destruct H2 as [_ H2]. specialize (IH (ND its2) H1 H2 E).
      now injection IH as <-.
    + rewrite as_list_of_tuples_leaf, as_list_of_tuples_sub in E. injection E as _ E _.
      exfalso. apply Hv. eexists. exact E.
  - destruct H1 as [Hd H1].
    destruct its2 as [| [k2 [v2 | d2]] its2]; [discriminate | |].
    + rewrite as_list_of_tuples_leaf, as_list_of_tuples_sub in E. injection E as _ E _.
      destruct H2 as [Hv _]. exfalso. apply Hv. eexists. symmetry. exact E.
    + rewrite !as_list_of_tuples_sub in E. injection E as <- Ed E.
      destruct H2 as [Hd2 H2]. apply list_obj_injective in Ed.
      rewrite (IHd d2 Hd Hd2 Ed).
      specialize (IH (ND its2) H1 H2 E). now injection IH as <-.
Qed.
End ListOfTuples.

(** [as_list_of_tuples] returns one tuple per key of the top level, in
    the order of the dict, and it loses nothing as long as no leaf is
    itself a list of tuples: two NestedDicts without such leaves that
    give the same list are the same.  (A leaf that is a list of tuples
    cannot be told from a sub-tree in the result.) *)
Theorem as_list_of_tuples_is_lossless_without_list_leaves {Obj : Type}
    (list_obj : list (string * Obj) -> Obj) (d1 d2 : NestedDict Obj) :
  (forall l l', list_obj l = list_obj l' -> l = l') ->
  no_list_leaf list_obj d1 ->
  no_list_leaf list_obj d2 ->
  map fst (as_list_of_tuples list_obj d1) = map fst (super d1)
  /\ (as_list_of_tuples list_obj d1 = as_list_of_tuples list_obj d2 -> d1 = d2).
Proof.
  intros Hinj H1 H2. split; [apply as_list_of_tuples_keys |].
  now apply as_list_of_tuples_injective.
Qed.

(** Two NestedDicts with int leaves and the same list are equal; with
    the list [[("b", 1)]] as a leaf at [a], the list is that of the
    NestedDict with the leaf [1] at [a/b]. *)
Lemma as_list_of_tuples_is_lossless_without_list_leaves_witness :
  let d := ND [("a", Sub (ND [("b", Leaf (AnInt 1))])); ("c", Leaf (AnInt 2))] in
  let with_list_leaf := ND [("a", Leaf (AList [("b", AnInt 1)])); ("c", Leaf (AnInt 2))] in
  as_list_of_tuples AList d = [("a", AList [("b", AnInt 1)]); ("c", AnInt 2)]
  /\ (as_list_of_tuples AList d = as_list_of_tuples AList d -> d = d)
  /\ as_list_of_tuples AList with_list_leaf = as_list_of_tuples AList d
  /\ with_list_leaf <> d.
Proof.
  cbv zeta. split; [reflexivity |].
  assert (Hinj : forall l l' : list (string * ListObj), AList l = AList l' -> l = l')
    by (intros l l' H; now injection H).
  assert (Hd : no_list_leaf AList
                 (ND [("a", Sub (ND [("b", Leaf (AnInt 1))])); ("c", Leaf (AnInt 2))])).
  { cbn. repeat split; intros [l H]; discriminate. }
  split.
  - exact (proj2 (as_list_of_tuples_is_lossless_without_list_leaves AList _ _ Hinj Hd Hd)).
  - split; [reflexivity | discriminate].
Defined.

(** ** subindex_set *)

Section SubindexSetFacts.
Context {V : Type}.
Variable leaf_getitem : V -> string -> PyExn + Node V.
Variable leaf_setitem : V -> string -> Node V -> V * (PyExn + unit).

Lemma getitem_single (d : NestedDict V) (p : string) :
  has_slash p = false -> __getitem__ leaf_getitem d p = dict_getitem p (super d).
Proof.
  intros Hp. unfold __getitem__.
  destruct (String.length p); cbn [getitem_rec];
    rewrite (partition_without_separator p Hp); reflexivity.
Qed.

Lemma setitem_single (d : NestedDict V) (k : string) (value : Node V) :
  has_slash k = false ->
  __setitem__ leaf_setitem d k value = (ND (dict_setitem k value (super d)), inr tt).
Proof.
  intros Hk. unfold __setitem__.
  destruct (String.length k); cbn [setitem_rec];
    rewrite (partition_without_separator k Hk); reflexivity.
Qed.

Variable leaf_subindex_set : V -> list string -> string -> Node V -> V * (PyExn + unit).

Lemma subindex_walk_outcome (path : list string) (last_ : string) (value : Node V) :
  forall d : NestedDict V,
    forallb (fun s => negb (has_slash s)) path = true ->
    has_slash last_ = false ->
    let walk := subindex_walk leaf_getitem leaf_setitem leaf_subindex_set
                  d path last_ value in
    match resolve d path with
    | Resolved (Sub _) => walk = set_path leaf_setitem d (path ++ [last_]) value
    | Absent seg => walk = (d, inl (KeyError seg))
    | Resolved (Leaf leaf) =>
        left_to_leaf d leaf walk (leaf_subindex_set leaf [] last_ value)
    | ThroughLeaf leaf rest =>
        left_to_leaf d leaf walk (leaf_subindex_set leaf rest last_ value)
    end.
Proof.
  induction path as [| p path IH]; intros d Hpath Hlast; cbv zeta.
  - cbn [subindex_walk resolve app set_path]. now apply setitem_single.
  - cbn [forallb] in Hpath. apply andb_prop in Hpath. destruct Hpath as [Hp Hpath].
    apply negb_true_iff in Hp.
    cbn [subindex_walk]. rewrite (getitem_single d p Hp), (resolve_step d p path).
    destruct (dict_getitem p (super d)) as [e | [v | d0]] eqn:E.
    + apply dict_getitem_error in E. destruct E as [-> _]. reflexivity.
    + assert (H : left_to_leaf d v
                    (let (v', r) := leaf_subindex_set v path last_ value in
                     (ND (dict_setitem p (Leaf v') (super d)), r))
                    (leaf_subindex_set v path last_ value)).
      { destruct (leaf_subindex_set v path last_ value) as [v' r].
        split; [reflexivity |]. cbn [fst]. intros ->.
        now rewrite (dict_setitem_unchanged _ _ _ E), ND_super. }
      destruct path; exact H.
    + specialize (IH d0 Hpath Hlast). cbv zeta in IH.
      assert (Hset : set_path leaf_setitem d ((p :: path) ++ [last_]) value
                     = let (d', r) := set_path leaf_setitem d0 (path ++ [last_]) value in
                       (ND (dict_setitem p (Sub d') (super d)), r)).
      { destruct path as [| p2 path'].
        - cbn [app]. rewrite set_path_cons. cbv zeta.
          rewrite (dict_getitem_contains _ _ _ E). cbn [negb]. now rewrite E.
        - change ((p :: p2 :: path') ++ [last_]) with (p :: p2 :: (path' ++ [last_])).
          rewrite set_path_cons. cbv zeta.
          rewrite (dict_getitem_contains _ _ _ E). cbn [negb]. now rewrite E. }
      assert (Hback : forall leaf leaf_result,
                left_to_leaf d0 leaf
                  (subindex_walk leaf_getitem leaf_setitem leaf_subindex_set
                     d0 path last_ value) leaf_result ->
                left_to_leaf d leaf
                  (let (d', r) := subindex_walk leaf_getitem leaf_setitem leaf_subindex_set
                                    d0 path last_ value in
                   (ND (dict_setitem p (Sub d') (super d)), r)) leaf_result).
      { intros leaf leaf_result [Hsnd Hfst].
        destruct (subindex_walk leaf_getitem leaf_setitem leaf_subindex_set
                    d0 path last_ value) as [d' r].
        split; [exact Hsnd |]. intros Hl. cbn [fst] in *. rewrite (Hfst Hl).
        now rewrite (dict_setitem_unchanged _ _ _ E), ND_super. }
      destruct path as [| p2 path'].
      * cbn [resolve] in IH. rewrite IH, Hset. reflexivity.
      * destruct (resolve d0 (p2 :: path')) as [[v | d1] | seg | v r].
        -- now apply Hback.
        -- rewrite IH, Hset. reflexivity.
        -- rewrite IH. now rewrite (dict_setitem_unchanged _ _ _ E), ND_super.
        -- now apply Hback.
Qed.

(** [subindex_set(target, key, value)] on a NestedDict, for a key that
    does not end in a separator.  When the segments before the last
    lead to an existing sub-tree, it does what [target[key] = value]
    does.  When one of them is missing it raises [KeyError] naming it
    and the target is left as it was: unlike [__setitem__] it creates no
    sub-tree.  When they lead to a leaf or run into one, the rest of
    the walk is the leaf's business: it ends as the walk on the leaf
    does, and the target is left as it was when the leaf is. *)
Theorem subindex_set_needs_existing_subtrees (d : NestedDict V) (key : string)
    (value : Node V) :
  ends_with_slash key = false ->
  let result := subindex_set leaf_getitem leaf_setitem leaf_subindex_set d key value in
  let last_ := last (split_key key) EmptyString in
  match resolve d (removelast (split_key key)) with
  | Resolved (Sub _) => result = __setitem__ leaf_setitem d key value
  | Absent seg => result = (d, inl (KeyError seg))
  | Resolved (Leaf leaf) =>
      left_to_leaf d leaf result (leaf_subindex_set leaf [] last_ value)
  | ThroughLeaf leaf rest =>
      left_to_leaf d leaf result (leaf_subindex_set leaf rest last_ value)
  end.
Proof.
  intros He. destruct (split_key_is_path key He) as [Hp Hj].
  pose proof (split_key_nonempty key) as Hne.
  pose proof (split_key_segments key) as Hseg.
  pose proof (app_removelast_last EmptyString Hne) as Hsplit.
  unfold subindex_set. cbv zeta.
  assert (Hall : forallb (fun s => negb (has_slash s)) (removelast (split_key key)) = true
                 /\ has_slash (last (split_key key) EmptyString) = false).
  { rewrite Hsplit, forallb_app in Hseg. apply andb_prop in Hseg.
    destruct Hseg as [H1 H2]. split; [exact H1 |].
    cbn [forallb] in H2. rewrite andb_true_r in H2. now apply negb_true_iff. }
  destruct Hall as [Hpath Hlast].
  assert (Hs : __setitem__ leaf_setitem d key value
               = set_path leaf_setitem d (split_key key) value).
  { pose proof (setitem_rec_set_path leaf_setitem (split_key key) value
                  (String.length key) d Hp) as H.
    rewrite Hj in H. unfold __setitem__. apply H. lia. }
  pose proof (subindex_walk_outcome _ _ value d Hpath Hlast) as H. cbv zeta in H.
  rewrite <- Hsplit in H. rewrite Hs. exact H.
Qed.
End SubindexSetFacts.

(** With int leaves, where the walk on a leaf raises [TypeError]: a
    missing parent is an error for [subindex_set], while [__setitem__]
    creates it. *)
Lemma subindex_set_needs_existing_subtrees_witness :
  let d := ND [("a", Sub (ND [("b", Leaf 1%Z)]))] in
  let on_int := fun (leaf : Z) (_ : list string) (_ : string) (_ : Node Z) =>
                  (leaf, @inl PyExn unit TypeError) in
  ends_with_slash "x/y" = false
  /\ subindex_set no_getitem no_setitem on_int d "x/y" (Leaf 2%Z) = (d, inl (KeyError "x"))
  /\ fst (__setitem__ no_setitem d "x/y" (Leaf 2%Z))
     = ND [("a", Sub (ND [("b", Leaf 1%Z)])); ("x", Sub (ND [("y", Leaf 2%Z)]))].
Proof.
  cbv zeta. split; [reflexivity |]. split; [| reflexivity].
  exact (subindex_set_needs_existing_subtrees no_getitem no_setitem
           (fun (leaf : Z) _ _ _ => (leaf, inl TypeError))
           (ND [("a", Sub (ND [("b", Leaf 1%Z)]))]) "x/y" (Leaf 2%Z) eq_refl).
Defined.

(** ** has_data *)

Section HasDataFacts.
Context {Elem : Type}.

Lemma MaskedArray_fields_ind (P : MaskedArray Elem -> Prop) :
  (forall elements, P (Unstructured elements)) ->
  (forall e, P (Uncounted e)) ->
  P (Structured []) ->
  (forall k a fields, P a -> P (Structured fields) -> P (Structured ((k, a) :: fields))) ->
  forall a, P a.
Proof.
  intros Hplain Hnone Hnil Hcons.
  exact (fix walk (a : MaskedArray Elem) : P a :=
           match a with
           | Unstructured elements => Hplain elements
           | Uncounted e => Hnone e
           | Structured fields =>
               (fix each (fields : list (string * MaskedArray Elem))
                  : P (Structured fields) :=
                  match fields with
                  | [] => Hnil
                  | (k, a') :: fields' => Hcons k a' fields' (walk a') (each fields')
                  end) fields
           end).
Qed.

Lemma has_data_cons (k : string) (a : MaskedArray Elem)
    (fields : list (string * MaskedArray Elem)) :
  has_data (Structured ((k, a) :: fields))
  = match has_data a with
    | inl e => inl e
    | inr true => inr true
    | inr false => has_data (Structured fields)
    end.
Proof. reflexivity. Qed.

Lemma total_count_cons (k : string) (a : MaskedArray Elem)
    (fields : list (string * MaskedArray Elem)) :
  total_count (Structured ((k, a) :: fields))
  = total_count a + total_count (Structured fields).
Proof. reflexivity. Qed.

Lemma counts_cons (k : string) (a : MaskedArray Elem)
    (fields : list (string * MaskedArray Elem)) :
  counts (Structured ((k, a) :: fields)) = counts a ++ counts (Structured fields).
Proof. reflexivity. Qed.

Lemma counted_cons (k : string) (a : MaskedArray Elem)
    (fields : list (string * MaskedArray Elem)) :
  counted (Structured ((k, a) :: fields)) = counted a && counted (Structured fields).
Proof. reflexivity. Qed.

Lemma first_count_app (l l' : list (PyExn + nat)) :
  first_count (l ++ l')
  = match first_count l with
    | inl e => inl e
    | inr true => inr true
    | inr false => first_count l'
    end.
Proof.
  induction l as [| [e | [| n]] l IH]; cbn [app first_count]; auto.
Qed.

Lemma has_data_first_count (array : MaskedArray Elem) :
  has_data array = first_count (counts array).
Proof.
  induction array as [elements | e | | k a fields IHa IH] using MaskedArray_fields_ind.
  - cbn. destruct (count elements); reflexivity.
  - reflexivity.
  - reflexivity.
  - now rewrite has_data_cons, counts_cons, first_count_app, IHa, IH.
Qed.

Lemma has_data_counted (array : MaskedArray Elem) :
  counted array = true -> has_data array = inr (Nat.ltb 0 (total_count array)).
Proof.
  induction array as [elements | e | | k a fields IHa IH] using MaskedArray_fields_ind.
  - reflexivity.
  - discriminate.
  - reflexivity.
  - rewrite counted_cons, has_data_cons, total_count_cons. intros H.
    apply andb_prop in H. destruct H as [Ha Hf]. rewrite (IHa Ha), (IH Hf).
    destruct (total_count a) as [| n]; reflexivity.
Qed.

Lemma first_count_zeros (l : list (PyExn + nat)) :
  Forall (fun c => c = inr 0) l -> first_count l = inr false.
Proof. induction 1 as [| c l -> _ IH]; [reflexivity | exact IH]. Qed.

(** [has_data] calls [count()] on the objects without fields in the
    order of the fields and stops at the first call that raises or
    finds an unmasked element.  On a masked array, where every such
    object is an array, it never raises and is [True] exactly when some
    element of some field, at any depth, is not masked.  In general,
    with every count before the deciding one zero: it raises what that
    [count()] raises, as on a record whose first field that is not
    masked is a numpy scalar; it is [True] when that count is positive;
    and it is [False] when all counts are zero. *)
Theorem has_data_stops_at_first_count (array : MaskedArray Elem) :
  (counted array = true ->
   (has_data array = inr true <-> 0 < total_count array)
   /\ (has_data array = inr false <-> total_count array = 0))
  /\ (forall before c after,
        counts array = before ++ c :: after ->
        Forall (fun c' => c' = inr 0) before ->
        match c with
        | inl e => has_data array = inl e
        | inr n => 0 < n -> has_data array = inr true
        end)
  /\ (Forall (fun c => c = inr 0) (counts array) -> has_data array = inr false).
Proof.
  split; [| split].
  - intros Hc. rewrite (has_data_counted array Hc).
    destruct (Nat.ltb_spec 0 (total_count array)) as [Hpos | Hzero].
    + split; split; intros H; try reflexivity; try exact Hpos; try discriminate; lia.
    + split; split; intros H; try reflexivity; try discriminate; lia.
  - intros before c after Hsplit Hzeros.
    rewrite has_data_first_count, Hsplit, first_count_app, (first_count_zeros _ Hzeros).
    destruct c as [e | [| n]]; cbn [first_count]; [reflexivity | lia | reflexivity].
  - intros Hzeros. rewrite has_data_first_count. now apply first_count_zeros.
Qed.
End HasDataFacts.

(** A record with the fields [a], masked, and [b], an unmasked number:
    [array["a"]] is the masked constant, which counts no element, and
    [array["b"]] a numpy scalar, which has no [count]. *)
Lemma has_data_stops_at_first_count_witness :
  let record := Structured [("a", Unstructured [@None Z]); ("b", Uncounted AttributeError)] in
  counts record = [inr 0] ++ inl AttributeError :: []
  /\ has_data record = inl AttributeError.
Proof.
  cbv zeta. split; [reflexivity |].
  exact (proj1 (proj2 (has_data_stops_at_first_count
                         (Structured [("a", Unstructured [@None Z]);
                                      ("b", Uncounted AttributeError)])))
           [inr 0] (inl AttributeError) [] eq_refl
           (Forall_cons _ eq_refl (Forall_nil _))).
Defined.

(** ** completer *)

Section CompleterFacts.
Variable lower : string -> string.
Variable options : list string.

Lemma complete_first (matches : list string) (text : string) :
  let found := filter (fun c => prefix (lower text) c) options in
  complete lower options matches text 0 = (found, Returned (nth_error found 0)).
Proof.
  cbv zeta. unfold complete. cbn [Z.eqb]. f_equal.
  destruct (filter (fun c => prefix (lower text) c) options) as [| c l]; reflexivity.
Qed.

Lemma complete_later (matches : list string) (text : string) (i : nat) :
  i <> 0 ->
  complete lower options matches text (Z.of_nat i)
  = (matches, Returned (nth_error matches i)).
Proof.
  intros Hi. unfold complete.
  assert (Hz : (Z.of_nat i =? 0)%Z = false) by (apply Z.eqb_neq; lia).
  rewrite Hz. f_equal.
  destruct (Z.ltb_spec (Z.of_nat i) (Z.of_nat (length matches))) as [Hlt | Hge].
  - unfold list_index.
    assert (Hnn : (0 <=? Z.of_nat i)%Z = true) by (apply Z.leb_le; lia).
    rewrite Hnn, Nat2Z.id.
    destruct (nth_error matches i) eqn:E; [reflexivity |].
    apply nth_error_None in E. lia.
  - assert (E : nth_error matches i = None) by (apply nth_error_None; lia).
    now rewrite E.
Qed.

Lemma complete_calls_later (matches : list string) (texts : list string) :
  forall k, k <> 0 ->
    complete_calls lower options matches
      (combine texts (map Z.of_nat (seq k (length texts))))
    = map (fun i => Returned (nth_error matches i)) (seq k (length texts)).
Proof.
  induction texts as [| text texts IH]; intros k Hk; [reflexivity |].
  cbn [length seq map combine complete_calls].
  rewrite (complete_later matches text k Hk). f_equal. apply IH. lia.
Qed.

(** The readline protocol: a call with state 0 followed by calls with
    states 1, 2, ... returns, in order, the options that start with the
    lower-cased text of the first call, then [None] for every further
    state.  What the shared list held before, and the texts passed with
    the later states, make no difference; an option that does not start
    with that text is never returned. *)
Theorem complete_enumerates_matches (matches : list string) (text : string)
    (texts : list string) :
  let found := filter (fun c => prefix (lower text) c) options in
  complete_calls lower options matches
    ((text, 0%Z) :: combine texts (map Z.of_nat (seq 1 (length texts))))
  = map (fun i => Returned (nth_error found i)) (seq 0 (S (length texts)))
  /\ (forall i c, nth_error found i = Some c ->
                  In c options /\ prefix (lower text) c = true)
  /\ (forall i, length found <= i -> nth_error found i = None).
Proof.
  cbv zeta. split; [| split].
  - cbn [complete_calls seq map]. rewrite (complete_first matches text). cbv zeta.
    f_equal. apply complete_calls_later. discriminate.
  - intros i c H. apply nth_error_In in H. apply filter_In in H. exact H.
  - intros i H. now apply nth_error_None.
Qed.
End CompleterFacts.

(** ** subclasses and find_subclass *)

Lemma PyClass_tree_ind (P : PyClass -> Prop) :
  (forall qualname attributes direct,
      Forall P direct -> P (mkClass qualname attributes direct)) ->
  forall cls, P cls.
Proof.
  intros H.
  exact (fix walk (cls : PyClass) : P cls :=
           match cls with
           | mkClass qualname attributes direct =>
               H qualname attributes direct
                 ((fix each (l : list PyClass) : Forall P l :=
                     match l with
                     | [] => Forall_nil P
                     | c :: l' => Forall_cons c (walk c) (each l')
                     end) direct)
           end).
Qed.

Lemma subclasses_below (cls : PyClass) :
  subclasses cls false
  = flat_map (fun sub => sub :: subclasses sub false) (__subclasses__ cls).
Proof.
  destruct cls as [qualname attributes direct]. cbn [subclasses __subclasses__ app].
  induction direct as [| sub direct IH]; [reflexivity |].
  cbn [flat_map app]. now rewrite IH.
Qed.

Lemma subclasses_with_root (cls : PyClass) :
  subclasses cls true = cls :: subclasses cls false.
Proof. destruct cls. reflexivity. Qed.

Lemma subclasses_descend (cls : PyClass) :
  forall c, In c (subclasses cls false) -> descends_from cls c.
Proof.
  induction cls as [qualname attributes direct IH] using PyClass_tree_ind.
  intros c Hin. rewrite subclasses_below in Hin. cbn [__subclasses__] in Hin.
  apply in_flat_map in Hin. destruct Hin as [sub [Hsub Hc]].
  destruct Hc as [<- | Hc].
  - now apply descends_direct.
  - apply descends_through with (mid := sub); [exact Hsub |].
    rewrite Forall_forall in IH. now apply IH.
Qed.

Lemma descend_subclasses (cls c : PyClass) :
  descends_from cls c -> In c (subclasses cls false).
Proof.
  induction 1 as [cls c Hin | cls c mid Hmid _ IH];
    rewrite subclasses_below; apply in_flat_map.
  - exists c. split; [exact Hin | now left].
  - exists mid. split; [exact Hmid | now right].
Qed.

(** [subclasses(cls)] yields exactly the classes that descend from
    [cls], directly or through other classes, each direct subclass
    before the classes below it; with [root=True] the class itself comes
    first. *)
Theorem subclasses_are_the_descendants (cls c : PyClass) :
  (In c (subclasses cls false) <-> descends_from cls c)
  /\ (In c (subclasses cls true) <-> c = cls \/ descends_from cls c)
  /\ subclasses cls true = cls :: subclasses cls false
  /\ subclasses cls false
     = flat_map (fun sub => sub :: subclasses sub false) (__subclasses__ cls).
Proof.
  assert (H : In c (subclasses cls false) <-> descends_from cls c)
    by (split; [apply subclasses_descend | apply descend_subclasses]).
  split; [exact H |]. split; [| split; [apply subclasses_with_root | apply subclasses_below]].
  rewrite subclasses_with_root. cbn [In]. rewrite H.
  split; (intros [E | D]; [left; congruence | now right]).
Qed.

(** [find_subclass] searches the whole hierarchy below [cls] (and
    [cls] itself with [root=True]): it returns a class that has the
    attribute with a value equal to [name], the first such class the
    generator yields, and [None] only when no class of the hierarchy has
    it. *)
Theorem find_subclass_searches_all_descendants (cls : PyClass) (name : PyVal)
    (root : bool) (attr : string) :
  match find_subclass cls name root attr with
  | Some c =>
      carries attr name c = true
      /\ ((root = true /\ c = cls) \/ descends_from cls c)
      /\ exists before after,
           subclasses cls root = before ++ c :: after
           /\ forall b, In b before -> carries attr name b = false
  | None =>
      forall c, (root = true /\ c = cls) \/ descends_from cls c ->
                carries attr name c = false
  end.
Proof.
  assert (Hall : forall c, In c (subclasses cls root)
                           <-> (root = true /\ c = cls) \/ descends_from cls c).
  { intros c. destruct root.
    - rewrite (proj1 (proj2 (subclasses_are_the_descendants cls c))).
      split; (intros [H | H]; [left | now right]); [now split | now destruct H].
    - rewrite (proj1 (subclasses_are_the_descendants cls c)).
      split; [now right | intros [[H _] | H]; [discriminate | exact H]]. }
  unfold find_subclass. destruct (find (carries attr name) (subclasses cls root)) as [c |] eqn:E.
  - pose proof (find_some _ _ E) as [Hin Hc]. split; [exact Hc |].
    split; [now apply Hall |].
    clear Hall Hin. induction (subclasses cls root) as [| x l IH]; [discriminate |].
    cbn [find] in E. destruct (carries attr name x) eqn:Ex.
    + injection E as ->. exists [], l. split; [reflexivity | intros b []].
    + destruct (IH E) as [before [after [-> Hb]]].
      exists (x :: before), after. split; [reflexivity |].
      intros b [<- | Hin]; [exact Ex | now apply Hb].
  - intros c Hc. apply Hall in Hc. exact (find_none _ _ E c Hc).
Qed.

(** ** struct_as_dict: keys and template *)

Section StructAsDictMore.
Context {NpValue Converted : Type}.
Variable construct : NativeType -> NpValue -> PyExn + Converted.

Lemma is_masked_mvoid_getitem (masked_array : NpValue -> list bool -> NpValue)
    (f : MaskedField NpValue) :
  is_masked (mvoid_getitem masked_array f) = shows_masked f.
Proof.
  destruct f as [data mask | data mask | fields]; [| reflexivity |].
  - cbn. now destruct mask.
  - unfold mvoid_getitem, shows_masked. now destruct (any_masked (RecordField fields)).
Qed.

Lemma populated_prefix_mvoid (masked_array : NpValue -> list bool -> NpValue)
    (record : list (string * MaskedField NpValue)) :
  populated_prefix (map (fun '(k, f) => (k, mvoid_getitem masked_array f)) record)
  = map (fun '(k, f) => (k, mvoid_getitem masked_array f)) (fields_before_masked record).
Proof.
  induction record as [| [k f] record IH]; [reflexivity |].
  cbn [map populated_prefix fields_before_masked].
  rewrite is_masked_mvoid_getitem. destruct (shows_masked f); [reflexivity |].
  cbn [map]. now rewrite IH.
Qed.

(** On a record of a masked array with distinct field names, when
    [struct_as_dict] returns, the keys of the returned dict are the
    names of the fields declared before the first masked scalar field
    or nested record with a masked component, all of them, in declared
    order; all names when there is no such field.  A sub-array field
    does not end the walk, whatever its mask. *)
Theorem struct_as_dict_keys_on_masked_record
    (masked_array : NpValue -> list bool -> NpValue)
    (record : list (string * MaskedField NpValue)) (types : Node TypeTemplate)
    (result : dict (PyObj NpValue Converted)) :
  NoDup (map fst record) ->
  struct_as_dict construct (mvoid masked_array record) types = inr result ->
  map fst result = map fst (fields_before_masked record).
Proof.
  intros Hnd H. unfold mvoid in H. rewrite struct_as_dict_loop in H.
  assert (Hnames : forall l : list (string * MaskedField NpValue),
            map fst (map (fun '(k, f) => (k, mvoid_getitem masked_array f)) l)
            = map fst l)
    by (intros l; rewrite map_map; apply map_ext; now intros [k f]).
  apply fields_loop_keys_exact in H; [| cbn [map app]; now rewrite Hnames].
  now rewrite H, populated_prefix_mvoid, Hnames.
Qed.

(** A field that is not the masked constant and that the template
    does not have makes [struct_as_dict] raise [KeyError] with the
    field's name, when the fields before it are not the masked constant
    either and are converted without error. *)
Theorem struct_as_dict_missing_template_entry
    (before after : list (string * FieldVal NpValue)) (k : string)
    (f : FieldVal NpValue) (template : NestedDict TypeTemplate)
    (r : dict (PyObj NpValue Converted)) :
  populated_prefix before = before ->
  struct_as_dict construct (mkVoid before) (Sub template) = inr r ->
  is_masked f = false ->
  has_slash k = false ->
  dict_contains k (super template) = false ->
  struct_as_dict construct (mkVoid (before ++ (k, f) :: after)) (Sub template)
  = inl (KeyError k).
Proof.
  intros Hall Hbefore Hf Hk Hmissing.
  rewrite struct_as_dict_loop in *. rewrite (fields_loop_app _ _ _ _ _ Hall), Hbefore.
  assert (Hsub : subscript (Sub template) k = inl (KeyError k)).
  { cbn [subscript]. rewrite (getitem_single no_getitem template k Hk).
    destruct (dict_getitem k (super template)) as [e | n] eqn:E.
    - apply dict_getitem_error in E. now destruct E as [-> _].
    - apply dict_getitem_contains in E. congruence. }
  cbn [fields_loop]. destruct f as [| sub | x]; [discriminate | |]; now rewrite Hsub.
Qed.
End StructAsDictMore.

(** The sub-array field [v], fully masked, does not end the walk; the
    masked scalar [y] does. *)
Lemma struct_as_dict_keys_on_masked_record_witness :
  let record := [("x", ScalarField (NpInt 1) false);
                 ("v", ArrayField (NpArray [7; 8]%Z) [true; true]);
                 ("y", ScalarField (NpInt 2) true);
                 ("z", ScalarField (NpInt 3) false)] in
  let types := Sub (ND [("x", Leaf (Constructor py_int)); ("v", Leaf (ListAlias py_int))]) in
  NoDup (map fst record)
  /\ struct_as_dict example_construct (mvoid example_masked_array record) types
     = inr [("x", ObjConverted (py_int, NpInt 1));
            ("v", ObjArray (NpMaskedArray [7; 8]%Z [true; true]))]
  /\ map fst (fields_before_masked record) = ["x"; "v"].
Proof.
  cbv zeta.
  assert (Hnd : NoDup ["x"; "v"; "y"; "z"]).
  { repeat constructor; cbn; intros H;
      repeat (destruct H as [H | H]; try discriminate); exact H. }
  split; [exact Hnd |]. split; [reflexivity |].
  symmetry.
  exact (struct_as_dict_keys_on_masked_record example_construct example_masked_array
           [("x", ScalarField (NpInt 1) false);
            ("v", ArrayField (NpArray [7; 8]%Z) [true; true]);
            ("y", ScalarField (NpInt 2) true);
            ("z", ScalarField (NpInt 3) false)]
           (Sub (ND [("x", Leaf (Constructor py_int)); ("v", Leaf (ListAlias py_int))]))
           [("x", ObjConverted (py_int, NpInt 1));
            ("v", ObjArray (NpMaskedArray [7; 8]%Z [true; true]))]
           Hnd eq_refl).
Defined.

Lemma struct_as_dict_missing_template_entry_witness :
  struct_as_dict (fun _ (x : Z) => inr (PyInt x))
    (mkVoid [("x", Plain 1%Z); ("y", Plain 2%Z)])
    (Sub (ND [("x", Leaf (Constructor py_int))]))
  = inl (KeyError "y").
Proof.
  exact (struct_as_dict_missing_template_entry (fun _ (x : Z) => inr (PyInt x))
           [("x", Plain 1%Z)] [] "y" (Plain 2%Z)
           (ND [("x", Leaf (Constructor py_int))])
           [("x", ObjConverted (PyInt 1%Z))]
           eq_refl eq_refl eq_refl eq_refl eq_refl).
Defined.

(** ** NestedDict: keys after one assignment, on any tree *)

Section KeysAfterAssignment.
Context {V : Type}.
Variable leaf_getitem : V -> string -> PyExn + Node V.
Variable leaf_setitem : V -> string -> Node V -> V * (PyExn + unit).

Lemma keys_app (its its' : dict (Node V)) :
  keys (ND (its ++ its')) = keys (ND its) ++ keys (ND its').
Proof.
  induction its as [| [k [v | d]] its IH]; [reflexivity | |].
  - cbn [app]. rewrite !keys_leaf, IH. reflexivity.
  - cbn [app]. rewrite !keys_sub, IH, app_assoc. reflexivity.
Qed.

Lemma dict_setitem_absent {A} (k : string) (v : A) (d : dict A) :
  dict_contains k d = false -> dict_setitem k v d = d ++ [(k, v)].
Proof.
  induction d as [| [k' v'] d IH]; cbn; [reflexivity |].
  destruct (String.eqb k k'); [discriminate |]. intros H. now rewrite IH.
Qed.

Lemma keys_setitem_leaf (its : dict (Node V)) (s : string) (v0 v : V) :
  dict_getitem s its = inr (Leaf v0) ->
  keys (ND (dict_setitem s (Leaf v) its)) = keys (ND its).
Proof.
  induction its as [| [k n] its IH]; cbn [dict_getitem dict_setitem]; [discriminate |].
  destruct (String.eqb_spec s k) as [-> | Hne].
  - intros H. injection H as ->. now rewrite !keys_leaf.
  - intros H. specialize (IH H). destruct n as [w | d].
    + now rewrite !keys_leaf, IH.
    + now rewrite !keys_sub, IH.
Qed.

Lemma keys_setitem_sub (its : dict (Node V)) (s : string) (d0 d0' : NestedDict V) :
  dict_getitem s its = inr (Sub d0) ->
  keys d0' = keys d0 ->
  keys (ND (dict_setitem s (Sub d0') its)) = keys (ND its).
Proof.
  intros Hget Hkeys.
  induction its as [| [k n] its IH]; cbn [dict_getitem dict_setitem] in *; [discriminate |].
  destruct (String.eqb_spec s k) as [-> | Hne].
  - injection Hget as ->. now rewrite !keys_sub, Hkeys.
  - specialize (IH Hget). destruct n as [w | d].
    + now rewrite !keys_leaf, IH.
    + now rewrite !keys_sub, IH.
Qed.

Lemma set_path_overwrites_leaf (p : list string) (v : V) :
  forall (d : NestedDict V) (v0 : V),
    resolve d p = Resolved (Leaf v0) ->
    exists d', set_path leaf_setitem d p (Leaf v) = (d', inr tt)
               /\ keys d' = keys d
               /\ resolve d' p = Resolved (Leaf v).
Proof.
  induction p as [| s p IH]; intros d v0 Hres; [discriminate |].
  destruct p as [| s2 t].
  - cbn [resolve] in Hres.
    destruct (dict_getitem s (super d)) as [e | n] eqn:E; [discriminate |].
    injection Hres as ->. cbn [set_path]. eexists. split; [reflexivity |]. split.
    + rewrite (keys_setitem_leaf _ _ _ _ E). now rewrite ND_super.
    + cbn [resolve super]. now rewrite dict_getitem_setitem_same.
  - rewrite resolve_cons in Hres.
    destruct (dict_getitem s (super d)) as [e | [w | d0]] eqn:E; try discriminate.
    destruct (IH d0 v0 Hres) as [d0' [Hset [Hkeys Hres']]].
    rewrite set_path_cons. cbv zeta.
    rewrite (dict_getitem_contains _ _ _ E). cbn [negb]. rewrite E, Hset.
    eexists. split; [reflexivity |]. split.
    + rewrite (keys_setitem_sub _ _ _ _ E Hkeys). now rewrite ND_super.
    + rewrite resolve_cons. cbn [super]. now rewrite dict_getitem_setitem_same.
Qed.

(** On any NestedDict, assigning a leaf to a path that holds a leaf
    (the path resolves to it through sub-trees) succeeds, replaces the
    value and leaves [keys()] as it was, order included. *)
Theorem overwriting_a_leaf_keeps_keys (d : NestedDict V) (segs : list string) (v0 v : V) :
  is_path segs = true ->
  resolve d segs = Resolved (Leaf v0) ->
  exists d',
    __setitem__ leaf_setitem d (join_path segs) (Leaf v) = (d', inr tt)
    /\ keys d' = keys d
    /\ __getitem__ leaf_getitem d' (join_path segs) = inr (Leaf v).
Proof.
  intros Hp Hres. unfold __getitem__, __setitem__ in *.
  rewrite setitem_rec_set_path by (auto; lia).
  destruct (set_path_overwrites_leaf segs v d v0 Hres) as [d' [Hset [Hkeys Hres']]].
  exists d'. split; [exact Hset |]. split; [exact Hkeys |].
  rewrite getitem_rec_resolve by (auto; lia). now rewrite Hres'.
Qed.

Lemma set_path_new_first_segment (p : list string) (v : V) :
  forall d : NestedDict V,
    p <> [] ->
    dict_contains (first_segment p) (super d) = false ->
    exists d', set_path leaf_setitem d p (Leaf v) = (d', inr tt)
               /\ keys d' = keys d ++ [join_path p].
Proof.
  induction p as [| s p IH]; intros d Hne Hnew; [contradiction |].
  cbn [first_segment hd] in Hnew. destruct p as [| s2 t].
  - cbn [set_path join_path]. eexists. split; [reflexivity |].
    rewrite (dict_setitem_absent _ _ _ Hnew), keys_app, ND_super. reflexivity.
  - rewrite set_path_cons. cbv zeta. rewrite Hnew. cbn [negb super].
    rewrite dict_getitem_setitem_same.
    destruct (IH empty ltac:(discriminate) eq_refl) as [chain [Hset Hkeys]].
    rewrite Hset, dict_setitem_twice. eexists. split; [reflexivity |].
    rewrite (dict_setitem_absent _ _ _ Hnew), keys_app, ND_super.
    rewrite keys_sub, Hkeys. change (keys (@empty V)) with (@nil string).
    cbn [app map].
    rewrite (join_path_cons s (s2 :: t)) by discriminate. reflexivity.
Qed.

(** On any NestedDict, assigning a leaf to a path whose first segment
    is not yet a key succeeds, creating the sub-trees on the way, and
    puts the new path last in [keys()], after all the keys there
    were. *)
Theorem new_first_segment_goes_last (d : NestedDict V) (segs : list string) (v : V) :
  is_path segs = true ->
  dict_contains (first_segment segs) (super d) = false ->
  exists d',
    __setitem__ leaf_setitem d (join_path segs) (Leaf v) = (d', inr tt)
    /\ keys d' = keys d ++ [join_path segs].
Proof.
  intros Hp Hnew. unfold __setitem__. rewrite setitem_rec_set_path by (auto; lia).
  apply set_path_new_first_segment; [intros ->; discriminate | exact Hnew].
Qed.
End KeysAfterAssignment.

Lemma overwriting_a_leaf_keeps_keys_witness :
  let d := ND [("a", Sub (ND [("b", Leaf 1%Z); ("c", Leaf 2%Z)])); ("d", Leaf 3%Z)] in
  exists d',
    __setitem__ no_setitem d "a/b" (Leaf 9%Z) = (d', inr tt)
    /\ keys d' = ["a/b"; "a/c"; "d"]
    /\ __getitem__ no_getitem d' "a/b" = inr (Leaf 9%Z).
Proof.
  cbv zeta.
  exact (overwriting_a_leaf_keeps_keys no_getitem no_setitem
           (ND [("a", Sub (ND [("b", Leaf 1%Z); ("c", Leaf 2%Z)])); ("d", Leaf 3%Z)])
           ["a"; "b"] 1%Z 9%Z eq_refl eq_refl).
Defined.

Lemma new_first_segment_goes_last_witness :
  let d := ND [("a", Sub (ND [("b", Leaf 1%Z)])); ("d", Leaf 3%Z)] in
  exists d',
    __setitem__ no_setitem d "x/y/z" (Leaf 9%Z) = (d', inr tt)
    /\ keys d' = ["a/b"; "d"; "x/y/z"].
Proof.
  cbv zeta.
  exact (new_first_segment_goes_last no_setitem
           (ND [("a", Sub (ND [("b", Leaf 1%Z)])); ("d", Leaf 3%Z)])
           ["x"; "y"; "z"] 9%Z eq_refl eq_refl).
Defined.

(** ** NestedDict: membership against keys *)

Lemma split_key_single (s : string) : has_slash s = false -> split_key s = [s].
Proof.
  induction s as [| c s IH]; [reflexivity |]. cbn [has_slash split_key].
  intros H. apply orb_false_iff in H. destruct H as [Hc Hs].
  rewrite Hc, (IH Hs). reflexivity.
Qed.

Lemma split_key_at_separator (s rest : string) :
  has_slash s = false -> split_key (s ++ String slash rest) = s :: split_key rest.
Proof.
  induction s as [| c s IH]; cbn [has_slash append split_key].
  - intros _. unfold slash. now rewrite Ascii.eqb_refl.
  - intros H. apply orb_false_iff in H. destruct H as [Hc Hs].
    rewrite Hc, (IH Hs). reflexivity.
Qed.

Lemma split_join_path (p : list string) : is_path p = true -> split_key (join_path p) = p.
Proof.
  induction p as [| s p IH]; intros Hp; [discriminate |].
  destruct p as [| s2 t].
  - apply is_path_single in Hp. now apply split_key_single.
  - apply is_path_cons in Hp. destruct Hp as [Hs [_ Hp]].
    change (join_path (s :: s2 :: t)) with (s ++ String slash (join_path (s2 :: t)))%string.
    rewrite (split_key_at_separator _ _ Hs), (IH Hp). reflexivity.
Qed.

Lemma join_path_injective (p q : list string) :
  is_path p = true -> is_path q = true -> join_path p = join_path q -> p = q.
Proof.
  intros Hp Hq H. rewrite <- (split_join_path p Hp), <- (split_join_path q Hq). now rewrite H.
Qed.

(** [contains] and [keys()] differ on sub-trees: on a NestedDict built
    by assignments from the empty one, the path of a sub-tree (a proper
    prefix of an assigned path) is contained, but [keys()] never yields
    it. *)
Theorem subtree_paths_are_contained_but_no_keys {V : Type}
    (leaf_setitem : V -> string -> Node V -> V * (PyExn + unit))
    (leaf_contains : string -> V -> PyExn + bool)
    (ops : assignments V) (d : NestedDict V) (pre r : list string) :
  Forall (fun o => is_path (fst o) = true) ops ->
  prefix_free ops ->
  run_sets leaf_setitem empty (statements ops) = (d, inr tt) ->
  is_path pre = true ->
  r <> [] ->
  In (pre ++ r) (map fst ops) ->
  __contains__ leaf_contains d (join_path pre) = inr true
  /\ ~ In (join_path pre) (keys d).
Proof.
  intros Hpaths Hpf Hrun Hpre Hr Hin.
  assert (Hne : pre <> []) by (intros ->; discriminate).
  rewrite (run_builds leaf_setitem ops d Hpaths Hpf Hrun). split.
  - destruct (resolve_build_prefix (path_depth ops) ops pre r Hne Hr Hin Hpf
                (path_depth_bounded ops)) as [sub Hsub].
    unfold __contains__. rewrite contains_rec_resolve by (auto; lia). now rewrite Hsub.
  - rewrite <- items_keys, items_build, map_map. intros Hkey.
    apply in_map_iff in Hkey. destruct Hkey as [[p v] [Heq Hp]]. cbn [fst] in Heq.
    destruct (tree_items_are_paths ops p v Hpaths Hpf Hp) as [Hpp Hpin].
    apply (join_path_injective p pre Hpp Hpre) in Heq. subst p.
    apply (Hpf pre (pre ++ r) Hpin Hin). now exists r.
Qed.

Lemma subtree_paths_are_contained_but_no_keys_witness :
  let ops := [(["a"; "b"], 1%Z); (["c"], 2%Z)] in
  let d := ND [("a", Sub (ND [("b", Leaf 1%Z)])); ("c", Leaf 2%Z)] in
  run_sets no_setitem empty (statements ops) = (d, inr tt)
  /\ __contains__ scalar_contains_Z d "a" = inr true
  /\ ~ In "a" (keys d).
Proof.
  cbv zeta.
  assert (H1 : Forall (fun o : list string * Z => is_path (fst o) = true)
                 [(["a"; "b"], 1%Z); (["c"], 2%Z)]) by (repeat constructor).
  assert (H2 : prefix_free [(["a"; "b"], 1%Z); (["c"], 2%Z)]).
  { intros p q Hp Hq [r [Hr E]]. cbn in Hp, Hq.
    repeat (destruct Hp as [<- | Hp]; [
      repeat (destruct Hq as [<- | Hq]; [
        try discriminate; injection E as <-; now apply Hr |]); destruct Hq |]).
    destruct Hp. }
  split; [reflexivity |].
  exact (subtree_paths_are_contained_but_no_keys no_setitem scalar_contains_Z
           [(["a"; "b"], 1%Z); (["c"], 2%Z)]
           (ND [("a", Sub (ND [("b", Leaf 1%Z)])); ("c", Leaf 2%Z)])
           ["a"] ["b"] H1 H2 eq_refl eq_refl ltac:(discriminate) ltac:(now left)).
Defined.
